(** * Ambulance dispatch simulator: routing and dispatch engine

    A shallow embedding of [prototype1.py] (on-demand Dijkstra) and
    [prototype2.py] (precomputed Floyd-Warshall table) and of the greedy
    dispatch loop the two prototypes share.

    Conventions of the embedding.
    - Locations, vehicle ids and call types are Python [str]: [string].
    - Edge weights and distances are whatever numbers the graph carries.  The
      code only uses [0], [float('infinity')], [+], [<], [>] and the [==] of
      tuple comparison on them, so the embedding is written over a structure
      [Weight] with exactly these operations.  Two instances are given:
      [float_weight], IEEE binary64 (what [load_network_data] produces), and
      [int_weight], unbounded integers with [+infinity] (exact arithmetic).
    - A Python [dict] read by key is a [gmap]; a missing key is [KeyError].
      A [dict] or [set] that the code iterates is a list in iteration order.
    - [heapq] is modelled by its contract: a heap is a bag, [heappop] removes
      a least element for Python's tuple order.
    - [while] loops take fuel; every result about a returned value shows that
      the stated amount of fuel suffices.
    - The data files enter as the rows [csv.DictReader] yields; [int] and
      [float] applied to a cell are parameters of the loaders.  Of the output
      only the warnings and the dispatch log are kept. *)

From Stdlib Require Import ZArith Lia String Floats.
From stdpp Require Import gmap strings list fin_maps relations sorting.

Open Scope string_scope.
Open Scope list_scope.

(** ** Numbers *)

(** The operations the code applies to weights and distances. *)
Class Weight : Type := {
  W : Type;
  wzero : W;                  (* the literal [0] *)
  winf : W;                   (* [float('infinity')] *)
  wadd : W -> W -> W;         (* [+] *)
  wlt : W -> W -> bool;       (* [<]; [a > b] is [wlt b a] *)
  weq : W -> W -> bool;       (* [==], used when tuples are compared *)
}.

(** Python [float]: IEEE 754 binary64, round to nearest even. *)
Definition float_weight : Weight :=
  {| W := float; wzero := 0%float; winf := infinity;
     wadd := PrimFloat.add; wlt := PrimFloat.ltb; weq := PrimFloat.eqb |}.

(** Python [int] together with [float('infinity')]: exact arithmetic. *)
Inductive zinf : Type :=
  | Fin (z : Z)
  | Inf.

Definition zinf_add (a b : zinf) : zinf :=
  match a, b with
  | Fin x, Fin y => Fin (x + y)
  | _, _ => Inf
  end.

Definition zinf_lt (a b : zinf) : bool :=
  match a, b with
  | Fin x, Fin y => (x <? y)%Z
  | Fin _, Inf => true
  | Inf, _ => false
  end.

Definition zinf_eq (a b : zinf) : bool :=
  match a, b with
  | Fin x, Fin y => (x =? y)%Z
  | Inf, Inf => true
  | _, _ => false
  end.

Definition int_weight : Weight :=
  {| W := zinf; wzero := Fin 0; winf := Inf;
     wadd := zinf_add; wlt := zinf_lt; weq := zinf_eq |}.

(** ** Results of fallible, fuelled code *)

Inductive result (A : Type) : Type :=
  | Ok (a : A)
  | KeyError
  | OutOfFuel.

Arguments Ok {A} a.
Arguments KeyError {A}.
Arguments OutOfFuel {A}.

Definition result_bind {A B : Type} (f : A -> result B) (r : result A) : result B :=
  match r with
  | Ok a => f a
  | KeyError => KeyError
  | OutOfFuel => OutOfFuel
  end.

#[global] Instance result_mbind : MBind result := @result_bind.

(** [d[k]] on a dict. *)
Definition dict_get {A : Type} (d : gmap string A) (k : string) : result A :=
  match d !! k with
  | Some x => Ok x
  | None => KeyError
  end.

(** [{k: x for k in keys}]. *)
Definition dict_fromkeys {A : Type} (keys : list string) (x : A) : gmap string A :=
  foldl (fun d k => <[k := x]> d) ∅ keys.

(** ** Exceptions and rows of the data files *)

(** The exceptions the loaders can raise. *)
Inductive exn : Type :=
  | PyKeyError
  | PyValueError.

(** What a loader or a whole run does: it returns, it raises, or (a fuelled
    loop only) it is cut off. *)
Inductive outcome (A : Type) : Type :=
  | Returns (a : A)
  | Raises (e : exn)
  | Unfinished.

Arguments Returns {A} a.
Arguments Raises {A} e.
Arguments Unfinished {A}.

Definition outcome_bind {A B : Type} (f : A -> outcome B) (r : outcome A) : outcome B :=
  match r with
  | Returns a => f a
  | Raises e => Raises e
  | Unfinished => Unfinished
  end.

#[global] Instance outcome_mbind : MBind outcome := @outcome_bind.

Definition of_result {A : Type} (r : result A) : outcome A :=
  match r with
  | Ok a => Returns a
  | KeyError => Raises PyKeyError
  | OutOfFuel => Unfinished
  end.

(** [row[column]] on a row of [csv.DictReader]: the cells by column name.
    Every record is taken to have one field for each column of the header, so
    every cell is a [str]. *)
Definition cell (row : gmap string string) (column : string) : outcome string :=
  match row !! column with
  | Some x => Returns x
  | None => Raises PyKeyError
  end.

(** [int(s)] and [float(s)] on a [str] raise [ValueError] or return; they are
    given as partial functions. *)
Definition parsed {A : Type} (x : option A) : outcome A :=
  match x with
  | Some a => Returns a
  | None => Raises PyValueError
  end.

(** [for row in reader: state = body(row, state)], stopping at the first
    exception. *)
Fixpoint for_rows {S : Type} (rows : list (gmap string string))
    (body : gmap string string -> S -> outcome S) (s : S) : outcome S :=
  match rows with
  | [] => Returns s
  | row :: rows' => s' ← body row s; for_rows rows' body s'
  end.

(** [d[k] = v] on a dict that is iterated later: a known key keeps its place,
    a new key goes last. *)
Fixpoint odict_set {A : Type} (d : list (string * A)) (k : string) (v : A)
  : list (string * A) :=
  match d with
  | [] => [(k, v)]
  | (k', v') :: d' =>
      if decide (k' = k) then (k, v) :: d' else (k', v') :: odict_set d' k v
  end.

(** ** heapq *)

(** [heapq.heappush]. *)
Definition heappush {A : Type} (heap : list A) (x : A) : list A := x :: heap.

(** A least element of [x :: l] and the other elements. *)
Fixpoint extract_min {A : Type} (lt : A -> A -> bool) (x : A) (l : list A) : A * list A :=
  match l with
  | [] => (x, [])
  | y :: l' =>
      if lt y x
      then let '(m, r) := extract_min lt y l' in (m, x :: r)
      else let '(m, r) := extract_min lt x l' in (m, y :: r)
  end.

(** [heapq.heappop] on a non-empty heap; [None] stands for the empty heap,
    which the loops test before popping. *)
Definition heappop {A : Type} (lt : A -> A -> bool) (heap : list A) : option (A * list A) :=
  match heap with
  | [] => None
  | x :: l => Some (extract_min lt x l)
  end.

Section Engine.
Context {Wt : Weight}.

(** Python's [<] on the tuples [(cost, node)]: the first components decide
    unless they are [==], then the node names decide. *)
Definition entry_lt (a b : W * string) : bool :=
  if weq a.1 b.1 then String.ltb a.2 b.2 else wlt a.1 b.1.

(** ** Part 1: Graph *)

Record Graph : Type := {
  adjacency_list : list (string * list (string * W));
  vertices : list string;
}.

Definition empty_graph : Graph := {| adjacency_list := []; vertices := [] |}.

(** [adjacency_list[source]], [None] when [source not in adjacency_list]. *)
Fixpoint adj_lookup (adj : list (string * list (string * W))) (source : string)
  : option (list (string * W)) :=
  match adj with
  | [] => None
  | (s, nbrs) :: adj' => if decide (s = source) then Some nbrs else adj_lookup adj' source
  end.

(** [adjacency_list[source].append(e)] on an existing key. *)
Fixpoint adj_append (adj : list (string * list (string * W))) (source : string)
    (e : string * W) : list (string * list (string * W)) :=
  match adj with
  | [] => []
  | (s, nbrs) :: adj' =>
      if decide (s = source) then (s, nbrs ++ [e]) :: adj'
      else (s, nbrs) :: adj_append adj' source e
  end.

(** [vertices.add(v)]. *)
Definition set_add (vs : list string) (v : string) : list string :=
  if decide (v ∈ vs) then vs else vs ++ [v].

Definition add_edge (g : Graph) (source destination : string) (weight : W) : Graph :=
  let adj :=
    match adj_lookup (adjacency_list g) source with
    | None => adjacency_list g ++ [(source, [])]
    | Some _ => adjacency_list g
    end in
  {| adjacency_list := adj_append adj source (destination, weight);
     vertices := set_add (set_add (vertices g) source) destination |}.

(** ** Part 2: data loading *)

Section Loaders.
(** [float] and [int] applied to a cell; [None] is [ValueError]. *)
Variable py_float : string -> option W.
Variable py_int : string -> option Z.

(** The body of the loop of [load_network_data].  The state is the graph and
    the rows reported by "Warning: Skipping row with invalid data". *)
Definition load_network_row (row : gmap string string)
    (st : Graph * list (gmap string string)) : outcome (Graph * list (gmap string string)) :=
  let '(graph, skipped) := st in
  source ← cell row "Start";
  destination ← cell row "End";
  travel ← cell row "Travel Time";
  match py_float travel with
  | None => Returns (graph, skipped ++ [row])
  | Some travel_time =>
      delay ← cell row "Traffic Delay";
      match py_float delay with
      | None => Returns (graph, skipped ++ [row])
      | Some traffic_delay =>
          let weight := wadd travel_time traffic_delay in
          Returns (add_edge graph source destination weight, skipped)
      end
  end.

Definition load_network_data (rows : list (gmap string string))
  : outcome (Graph * list (gmap string string)) :=
  for_rows rows load_network_row (empty_graph, []).

(** [priorities[row['Call Type']] = int(row['Priority'])]: the right-hand
    side is evaluated first. *)
Definition load_call_priorities (rows : list (gmap string string))
  : outcome (gmap string Z) :=
  for_rows rows (fun row priorities =>
    p ← cell row "Priority";
    priority ← parsed (py_int p);
    call_type ← cell row "Call Type";
    Returns (<[call_type := priority]> priorities)) ∅.

(** [ambulances[row['Ambulance Number']] = row['Staging Location']]. *)
Definition load_ambulance_data (rows : list (gmap string string))
  : outcome (list (string * string)) :=
  for_rows rows (fun row ambulances =>
    location ← cell row "Staging Location";
    ambulance_id ← cell row "Ambulance Number";
    Returns (odict_set ambulances ambulance_id location)) [].

End Loaders.

(** ** Part 3 (prototype 1): Dijkstra *)

(** The [for neighbor, edge_weight in ...] loop of the relaxation step. *)
Fixpoint relax_neighbors (current_node : string) (nbrs : list (string * W))
    (priority_queue : list (W * string)) (distances : gmap string W)
  : result (list (W * string) * gmap string W) :=
  match nbrs with
  | [] => Ok (priority_queue, distances)
  | (neighbor, edge_weight) :: rest =>
      dc ← dict_get distances current_node;
      let new_cost := wadd dc edge_weight in
      dn ← dict_get distances neighbor;
      if wlt new_cost dn
      then relax_neighbors current_node rest
             (heappush priority_queue (new_cost, neighbor))
             (<[neighbor := new_cost]> distances)
      else relax_neighbors current_node rest priority_queue distances
  end.

(** The [while priority_queue:] loop. *)
Fixpoint dijkstra_loop (fuel : nat) (g : Graph) (end_node : string)
    (priority_queue : list (W * string)) (distances : gmap string W) : result W :=
  match fuel with
  | O => OutOfFuel
  | S fuel' =>
      match heappop entry_lt priority_queue with
      | None => Ok winf
      | Some ((current_cost, current_node), pq') =>
          d ← dict_get distances current_node;
          if wlt d current_cost
          then dijkstra_loop fuel' g end_node pq' distances
          else if decide (current_node = end_node)
          then dict_get distances end_node
          else
            match adj_lookup (adjacency_list g) current_node with
            | None => dijkstra_loop fuel' g end_node pq' distances
            | Some nbrs =>
                '(pq'', distances') ← relax_neighbors current_node nbrs pq' distances;
                dijkstra_loop fuel' g end_node pq'' distances'
            end
      end
  end.

Definition dijkstra_shortest_path (fuel : nat) (g : Graph)
    (start_node end_node : string) : result W :=
  let priority_queue := [(wzero, start_node)] in
  let distances := <[start_node := wzero]> (dict_fromkeys (vertices g) winf) in
  dijkstra_loop fuel g end_node priority_queue distances.

(** ** Part 3 (prototype 2): Floyd-Warshall *)

(** [dist_matrix[i][j]]. *)
Definition matrix_get (m : gmap string (gmap string W)) (i j : string) : result W :=
  row ← dict_get m i; dict_get row j.

(** [dist_matrix[i][j] = x]: the row must exist, the column is created. *)
Definition matrix_set (m : gmap string (gmap string W)) (i j : string) (x : W)
  : result (gmap string (gmap string W)) :=
  row ← dict_get m i; Ok (<[i := <[j := x]> row]> m).

(** [for x in xs: state = body(x, state)], stopping at the first error. *)
Fixpoint for_each {A S : Type} (xs : list A) (body : A -> S -> result S) (s : S) : result S :=
  match xs with
  | [] => Ok s
  | x :: xs' => s' ← body x s; for_each xs' body s'
  end.

Definition init_matrix (vs : list string) : gmap string (gmap string W) :=
  foldl (fun d v => <[v := dict_fromkeys vs winf]> d) ∅ vs.

Definition set_diagonal (vs : list string) (m : gmap string (gmap string W))
  : result (gmap string (gmap string W)) :=
  for_each vs (fun vertex m => matrix_set m vertex vertex wzero) m.

Definition load_edges (adj : list (string * list (string * W)))
    (m : gmap string (gmap string W)) : result (gmap string (gmap string W)) :=
  for_each adj (fun '(source, neighbors) m =>
    for_each neighbors (fun '(destination, weight) m =>
      d ← matrix_get m source destination;
      if wlt weight d then matrix_set m source destination weight else Ok m) m) m.

Definition fw_step (k i j : string) (m : gmap string (gmap string W))
  : result (gmap string (gmap string W)) :=
  dik ← matrix_get m i k;
  dkj ← matrix_get m k j;
  let new_cost := wadd dik dkj in
  dij ← matrix_get m i j;
  if wlt new_cost dij then matrix_set m i j new_cost else Ok m.

Definition fw_core (vs : list string) (m : gmap string (gmap string W))
  : result (gmap string (gmap string W)) :=
  for_each vs (fun k m =>
    for_each vs (fun i m =>
      for_each vs (fun j m => fw_step k i j m) m) m) m.

Definition floyd_warshall_precomputation (g : Graph)
  : result (gmap string (gmap string W)) :=
  let dist_matrix := init_matrix (vertices g) in
  dist_matrix ← set_diagonal (vertices g) dist_matrix;
  dist_matrix ← load_edges (adjacency_list g) dist_matrix;
  fw_core (vertices g) dist_matrix.

(** ** Part 4: the dispatch loop of [run_simulation] *)

(** A row of [calls.csv] with [int(row['Call ID'])] already applied. *)
Record CallRow : Type := {
  row_call_id : Z;
  row_location : string;
  row_call_type : string;
}.

(** An entry of [dispatch_log]. *)
Record DispatchRecord : Type := {
  log_call_id : Z;
  log_call_type : string;
  log_call_location : string;
  log_selected_ambulance : string;
  log_time_to_call : W;
}.

(** [call_priorities.get(call_type, 99)]. *)
Definition priority_of (call_priorities : gmap string Z) (call_type : string) : Z :=
  default 99%Z (call_priorities !! call_type).

(** Python's [<] on the tuples [(priority, call_id, row)].  When priority and
    id are both equal Python goes on to compare the rows, two dicts, which
    raises; calls are identified by their ids, and the order here answers
    "not less" for such a pair. *)
Definition call_lt (a b : Z * Z * CallRow) : bool :=
  if (a.1.1 =? b.1.1)%Z then (a.1.2 <? b.1.2)%Z else (a.1.1 <? b.1.1)%Z.

(** Step 2 of [run_simulation]: every row is pushed with its priority. *)
Definition prepare_call_queue (call_priorities : gmap string Z) (rows : list CallRow)
  : list (Z * Z * CallRow) :=
  foldl (fun q row =>
           heappush q (priority_of call_priorities (row_call_type row), row_call_id row, row))
        [] rows.

(** The state the dispatch loop works on.  [console] collects the call id and
    location of every "No route found" warning, in the order printed.
    [timed_queries] stands for the performance counter ([total_algorithm_time],
    [total_lookup_time]): elapsed times are not modelled, the counter keeps
    which queries [(ambulance_location, call_location)] were timed. *)
Record SimState : Type := {
  call_queue : list (Z * Z * CallRow);
  dispatch_log : list DispatchRecord;
  available_ambulances : list (string * string);
  console : list (Z * string);
  timed_queries : list (string * string);
}.

(** [if best_ambulance:] once [best_ambulance] is a [str]: the empty string
    is falsy. *)
Definition str_truthy (s : string) : bool := negb (String.eqb s "").

Section Scheduler.
(** The travel-time query: [dijkstra_shortest_path(graph, a, c)] in prototype
    1, [path_matrix[a][c]] in prototype 2. *)
Variable query : string -> string -> result W.
(** [round(x, 2)], applied to the logged time only. *)
Variable round2 : W -> W.

(** The [for ambulance_id, ambulance_location in ...items()] scan. *)
Fixpoint find_best (fleet : list (string * string)) (call_location : string)
    (best_ambulance : option string) (fastest_time : W) (timed : list (string * string))
  : result (option string * W * list (string * string)) :=
  match fleet with
  | [] => Ok (best_ambulance, fastest_time, timed)
  | (ambulance_id, ambulance_location) :: rest =>
      time_to_call ← query ambulance_location call_location;
      let timed := timed ++ [(ambulance_location, call_location)] in
      if wlt time_to_call fastest_time
      then find_best rest call_location (Some ambulance_id) time_to_call timed
      else find_best rest call_location best_ambulance fastest_time timed
  end.

(** The body of [while call_queue:] after the pop. *)
Definition dispatch_call (call_id : Z) (call_details : CallRow) (st : SimState)
  : result SimState :=
  let call_location := row_location call_details in
  '(best_ambulance, fastest_time, timed) ←
     find_best (available_ambulances st) call_location None winf (timed_queries st);
  let logged :=
    match best_ambulance with
    | Some ambulance_id =>
        if str_truthy ambulance_id
        then Some {| log_call_id := call_id;
                     log_call_type := row_call_type call_details;
                     log_call_location := call_location;
                     log_selected_ambulance := ambulance_id;
                     log_time_to_call := round2 fastest_time |}
        else None
    | None => None
    end in
  match logged with
  | Some log_entry =>
      Ok {| call_queue := call_queue st;
            dispatch_log := dispatch_log st ++ [log_entry];
            available_ambulances := available_ambulances st;
            console := console st;
            timed_queries := timed |}
  | None =>
      Ok {| call_queue := call_queue st;
            dispatch_log := dispatch_log st;
            available_ambulances := available_ambulances st;
            console := console st ++ [(call_id, call_location)];
            timed_queries := timed |}
  end.

(** The state with the rest of the queue after a pop. *)
Definition set_queue (q : list (Z * Z * CallRow)) (st : SimState) : SimState :=
  {| call_queue := q;
     dispatch_log := dispatch_log st;
     available_ambulances := available_ambulances st;
     console := console st;
     timed_queries := timed_queries st |}.

(** [while call_queue:]. *)
Fixpoint dispatch_loop (fuel : nat) (st : SimState) : result SimState :=
  match fuel with
  | O => OutOfFuel
  | S fuel' =>
      match heappop call_lt (call_queue st) with
      | None => Ok st
      | Some ((priority, call_id, call_details), q') =>
          st' ← dispatch_call call_id call_details (set_queue q' st);
          dispatch_loop fuel' st'
      end
  end.

(** The state before the loop: [dispatch_log = []], the fleet copied from
    [initial_ambulances], the counter at zero. *)
Definition initial_state (queue : list (Z * Z * CallRow))
    (initial_ambulances : list (string * string)) : SimState :=
  {| call_queue := queue; dispatch_log := [];
     available_ambulances := initial_ambulances; console := [];
     timed_queries := [] |}.

(** Step 3 of [run_simulation]: one pop per queued call, one more test of the
    empty queue. *)
Definition process_calls (queue : list (Z * Z * CallRow))
    (initial_ambulances : list (string * string)) : result SimState :=
  dispatch_loop (S (length queue)) (initial_state queue initial_ambulances).

End Scheduler.

(** Prototype 1: every query runs Dijkstra, with [fuel] loop iterations each. *)
Definition run_simulation_p1 (fuel : nat) (round2 : W -> W) (g : Graph)
    (call_priorities : gmap string Z) (initial_ambulances : list (string * string))
    (rows : list CallRow) : result SimState :=
  process_calls (dijkstra_shortest_path fuel g) round2
    (prepare_call_queue call_priorities rows) initial_ambulances.

(** Prototype 2: the table is built once, every query is a lookup. *)
Definition run_simulation_p2 (round2 : W -> W) (g : Graph)
    (call_priorities : gmap string Z) (initial_ambulances : list (string * string))
    (rows : list CallRow) : result SimState :=
  path_matrix ← floyd_warshall_precomputation g;
  process_calls (matrix_get path_matrix) round2
    (prepare_call_queue call_priorities rows) initial_ambulances.

(** ** [run_simulation] from the rows of the four data files *)

Section Simulation.
Variable py_float : string -> option W.
Variable py_int : string -> option Z.
Variable round2 : W -> W.

(** Step 2 of [run_simulation] on the rows of [calls.csv].  The record kept
    in the queue holds what the loop reads of the row later. *)
Definition read_call_queue (call_priorities : gmap string Z)
    (rows : list (gmap string string)) : outcome (list (Z * Z * CallRow)) :=
  for_rows rows (fun row call_queue =>
    c ← cell row "Call ID";
    call_id ← parsed (py_int c);
    location ← cell row "Location";
    call_type ← cell row "Call Type";
    let priority := priority_of call_priorities call_type in
    Returns (heappush call_queue
               (priority, call_id,
                {| row_call_id := call_id; row_location := location;
                   row_call_type := call_type |}))) [].

(** Prototype 1, steps 1 to 3.  The result is the state after the dispatch
    loop and the network rows that were skipped with a warning. *)
Definition simulate_p1 (fuel : nat)
    (network priorities ambulances calls : list (gmap string string))
  : outcome (SimState * list (gmap string string)) :=
  '(graph, skipped) ← load_network_data py_float network;
  call_priorities ← load_call_priorities py_int priorities;
  initial_ambulances ← load_ambulance_data ambulances;
  call_queue ← read_call_queue call_priorities calls;
  st ← of_result (process_calls (dijkstra_shortest_path fuel graph) round2
                    call_queue initial_ambulances);
  Returns (st, skipped).

(** Prototype 2, steps 1 to 3: the table is computed before the calls are
    read. *)
Definition simulate_p2
    (network priorities ambulances calls : list (gmap string string))
  : outcome (SimState * list (gmap string string)) :=
  '(graph, skipped) ← load_network_data py_float network;
  call_priorities ← load_call_priorities py_int priorities;
  initial_ambulances ← load_ambulance_data ambulances;
  path_matrix ← of_result (floyd_warshall_precomputation graph);
  call_queue ← read_call_queue call_priorities calls;
  st ← of_result (process_calls (matrix_get path_matrix) round2
                    call_queue initial_ambulances);
  Returns (st, skipped).

End Simulation.

End Engine.

(** * Specification vocabulary *)

(** ** Laws of the arithmetic *)

Section Laws.
Context (Wt : Weight).

(** [x <= y], as the code can test it: not [y < x]. *)
Definition wle (x y : W) : Prop := wlt y x = false.

(** A linear order with [winf] on top in which adding is monotone and adding
    a non-negative number does not decrease. *)
Class OrderedWeight : Prop := {
  wle_refl : forall x, wle x x;
  wle_trans : forall x y z, wle x y -> wle y z -> wle x z;
  wle_antisym : forall x y, wle x y -> wle y x -> x = y;
  wlt_wle : forall x y, wlt x y = true -> wle x y;
  weq_sound : forall x y, weq x y = true -> x = y;
  winf_top : forall x, wle x winf;
  wadd_mono_l : forall x y e, wle x y -> wle (wadd x e) (wadd y e);
  wadd_mono_r : forall x y e, wle x y -> wle (wadd e x) (wadd e y);
  wadd_infl : forall x e, wle wzero e -> wle x (wadd x e);
}.

(** Sums are exact: no rounding, so adding associates and [0] is neutral. *)
Class ExactWeight : Prop := {
  exact_ordered :: OrderedWeight;
  wadd_assoc : forall x y z, wadd x (wadd y z) = wadd (wadd x y) z;
  wadd_zero_l : forall x, wadd wzero x = x;
  wadd_zero_r : forall x, wadd x wzero = x;
}.

(** Sums of finite numbers are finite: no overflow to [winf]. *)
Class FiniteSums : Prop := {
  wzero_finite : wlt wzero winf = true;
  wadd_finite : forall x y, wlt x winf = true -> wlt y winf = true ->
                            wlt (wadd x y) winf = true;
}.

End Laws.

Arguments wle {Wt} x y.
Arguments wle_refl {Wt _} x.
Arguments wle_trans {Wt _} x y z _ _.
Arguments wle_antisym {Wt _} x y _ _.
Arguments wlt_wle {Wt _} x y _.
Arguments weq_sound {Wt _} x y _.
Arguments winf_top {Wt _} x.
Arguments wadd_mono_l {Wt _} x y e _.
Arguments wadd_mono_r {Wt _} x y e _.
Arguments wadd_infl {Wt _} x e _.
Arguments exact_ordered {Wt _}.
Arguments wadd_assoc {Wt _} x y z.
Arguments wadd_zero_l {Wt _} x.
Arguments wadd_zero_r {Wt _} x.
Arguments wzero_finite {Wt _}.
Arguments wadd_finite {Wt _} x y _ _.

Section Vocabulary.
Context {Wt : Weight}.

(** ** Graphs *)

(** [g] has an edge from [u] to [v] of weight [e]. *)
Definition edge (g : Graph) (u v : string) (e : W) : Prop :=
  exists nbrs, (u, nbrs) ∈ adjacency_list g /\ (v, e) ∈ nbrs.

(** What [Graph()] and [add_edge] maintain: [vertices] is a set, the keys of
    [adjacency_list] are distinct, and every endpoint of an edge is a vertex. *)
Record wf_graph (g : Graph) : Prop := {
  wf_vertices_nodup : NoDup (vertices g);
  wf_keys_nodup : NoDup (adjacency_list g).*1;
  wf_sources : forall u nbrs, (u, nbrs) ∈ adjacency_list g -> u ∈ vertices g;
  wf_destinations : forall u v e, edge g u v e -> v ∈ vertices g;
}.

Definition nonneg_weights (g : Graph) : Prop :=
  forall u v e, edge g u v e -> wle wzero e.


(** The number of edges. *)
Definition edge_count (g : Graph) : nat :=
  sum_list ((fun p : string * list (string * W) => length p.2) <$> adjacency_list g).

(** [v] can be reached from [u] along edges. *)
Definition reachable (g : Graph) : string -> string -> Prop :=
  rtc (fun u v => exists e, edge g u v e).

(** A walk from [s], with its weight summed edge by edge from the start, as
    Dijkstra's relaxation sums it. *)
Inductive lwalk (g : Graph) (s : string) : string -> W -> Prop :=
  | lwalk_nil : lwalk g s s wzero
  | lwalk_snoc u v w e : lwalk g s u w -> edge g u v e -> lwalk g s v (wadd w e).

(** [d] is the weight of a shortest walk from [s] to [t]: [winf] or the
    weight of a walk, and at most the weight of every walk. *)
Definition shortest (g : Graph) (s t : string) (d : W) : Prop :=
  (d = winf \/ lwalk g s t d) /\ forall w, lwalk g s t w -> wle d w.

(** A walk of at least one edge whose inner vertices all satisfy [K]. *)
Inductive pathK (g : Graph) (K : string -> Prop) (s : string) : string -> W -> Prop :=
  | pathK_edge v e : edge g s v e -> pathK g K s v e
  | pathK_snoc u v w e : pathK g K s u w -> K u -> edge g u v e -> pathK g K s v (wadd w e).




(** ** The call queue *)

(** The entry pushed for a row of [calls.csv]. *)
Definition queue_entry (call_priorities : gmap string Z) (row : CallRow) : Z * Z * CallRow :=
  (priority_of call_priorities (row_call_type row), row_call_id row, row).

(** "Priority ascending, ties on priority broken by call id ascending". *)
Definition call_key_le (a b : Z * Z * CallRow) : Prop :=
  (a.1.1 < b.1.1)%Z \/ (a.1.1 = b.1.1 /\ (a.1.2 <= b.1.2)%Z).

#[global] Instance call_key_le_dec (a b : Z * Z * CallRow) : Decision (call_key_le a b).
Proof. unfold call_key_le. apply _. Defined.

(** The dispatch order the specification asks for: the calls sorted by
    (priority, id). *)
Definition spec_dispatch_order (call_priorities : gmap string Z) (rows : list CallRow)
  : list (Z * Z * CallRow) :=
  merge_sort call_key_le (queue_entry call_priorities <$> rows).

(** The calls in the order [heappop] returns them. *)
Fixpoint pop_all (n : nat) (q : list (Z * Z * CallRow)) : list (Z * Z * CallRow) :=
  match n with
  | O => []
  | S n' =>
      match heappop call_lt q with
      | None => []
      | Some (x, q') => x :: pop_all n' q'
      end
  end.

Definition dequeue_order (q : list (Z * Z * CallRow)) : list (Z * Z * CallRow) :=
  pop_all (length q) q.

(** The loop body applied to a list of calls, one after the other. *)
Fixpoint serve_calls (query : string -> string -> result W) (round2 : W -> W)
    (calls : list (Z * Z * CallRow)) (st : SimState) : result SimState :=
  match calls with
  | [] => Ok st
  | (_, call_id, call_details) :: rest =>
      st' ← dispatch_call query round2 call_id call_details st;
      serve_calls query round2 rest st'
  end.

(** The queries of one scan of the fleet for a call at [call_location]. *)
Definition scan_queries (fleet : list (string * string)) (call_location : string)
  : list (string * string) :=
  (fun v : string * string => (v.2, call_location)) <$> fleet.

End Vocabulary.

(** * Vocabulary of the proofs *)

(** ** The invariant of Dijkstra's loop *)

Section DijkstraInvariantDef.
Context {Wt : Weight}.
Variable g : Graph.
Variables s t : string.

(** [S] is the set of nodes already popped with their final cost ("settled"),
    [Rx] the edges already relaxed. *)
Record dinv (S : gset string) (Rx : string -> string -> W -> Prop)
    (pq : list (W * string)) (dist : gmap string W) : Prop := {
  inv_dom : forall v, v ∈ vertices g -> is_Some (dist !! v);
  inv_settled_dom : forall u, u ∈ S -> is_Some (dist !! u);
  inv_sound : forall v d, dist !! v = Some d -> d = winf \/ lwalk g s v d;
  inv_opt : forall u d w, u ∈ S -> dist !! u = Some d -> lwalk g s u w -> wle d w;
  inv_relaxed_settled : forall u v e, Rx u v e -> u ∈ S;
  inv_relaxed : forall u v e du dv, Rx u v e ->
    dist !! u = Some du -> dist !! v = Some dv -> wle dv (wadd du e);
  inv_frontier : forall v d, v ∉ S -> dist !! v = Some d ->
    wlt d winf = true -> (d, v) ∈ pq;
  inv_pq : forall c v, (c, v) ∈ pq -> exists d, dist !! v = Some d /\ wle d c;
  inv_settled_le : forall u d c v, u ∈ S -> dist !! u = Some d -> (c, v) ∈ pq -> wle d c;
  inv_start : s ∈ S \/ (wzero, s) ∈ pq;
  inv_end : t ∉ S;
}.

Definition settled_edges (S : gset string) (u v : string) (e : W) : Prop :=
  u ∈ S /\ edge g u v e.

End DijkstraInvariantDef.

Arguments inv_dom {Wt g s t S Rx pq dist} _ v _.
Arguments inv_settled_dom {Wt g s t S Rx pq dist} _ u _.
Arguments inv_sound {Wt g s t S Rx pq dist} _ v d _.
Arguments inv_opt {Wt g s t S Rx pq dist} _ u d w _ _ _.
Arguments inv_relaxed_settled {Wt g s t S Rx pq dist} _ u v e _.
Arguments inv_relaxed {Wt g s t S Rx pq dist} _ u v e du dv _ _ _.
Arguments inv_frontier {Wt g s t S Rx pq dist} _ v d _ _ _.
Arguments inv_pq {Wt g s t S Rx pq dist} _ c v _.
Arguments inv_settled_le {Wt g s t S Rx pq dist} _ u d c v _ _ _.
Arguments inv_start {Wt g s t S Rx pq dist} _.
Arguments inv_end {Wt g s t S Rx pq dist} _.

Section ProofVocabulary.
Context {Wt : Weight}.
Implicit Types m : gmap string (gmap string W).

(** Edges not yet relaxed: the out-degrees of the unsettled nodes. *)
Definition pending (S : gset string) (adj : list (string * list (string * W))) : nat :=
  sum_list ((fun p : string * list (string * W) =>
               if decide (p.1 ∈ S) then 0 else length p.2) <$> adj).

(** Every vertex and every queued node has an entry in [distances]. *)
Definition keys_ok (g : Graph) (pq : list (W * string)) (dist : gmap string W) : Prop :=
  (forall v, v ∈ vertices g -> is_Some (dist !! v)) /\
  (forall c v, (c, v) ∈ pq -> is_Some (dist !! v)).

(** ** Tables *)

(** [m'] is defined wherever [m] is and nowhere larger. *)
Definition mle m' m : Prop :=
  forall i j d, matrix_get m i j = Ok d -> exists d', matrix_get m' i j = Ok d' /\ wle d' d.

(** [m] has an entry for every pair over [vs]. *)
Definition mcomplete (vs : list string) m : Prop :=
  forall i j, i ∈ vs -> j ∈ vs -> exists d, matrix_get m i j = Ok d.

(** Every entry of [m] is [winf] or the weight of a walk. *)
Definition msound (g : Graph) m : Prop :=
  forall i j d, matrix_get m i j = Ok d -> d = winf \/ lwalk g i j d.

(** After the two inner loops for [k], every entry is at most the detour
    through [k] in the table the loops started from. *)
Definition via (k : string) m0 m (i j : string) : Prop :=
  exists d, matrix_get m i j = Ok d /\
    forall a b, matrix_get m0 i k = Ok a -> matrix_get m0 k j = Ok b -> wle d (wadd a b).

(** The table after the passes for the vertices in [K]. *)
Record fw_inv (g : Graph) (K : list string) m : Prop := {
  fw_complete : mcomplete (vertices g) m;
  fw_sound : msound g m;
  fw_diag : forall i d, i ∈ vertices g -> matrix_get m i i = Ok d -> wle d wzero;
  fw_lower : forall i j d w, matrix_get m i j = Ok d ->
    pathK g (fun x => x ∈ K) i j w -> wle d w;
}.

(** The entry for [(u, v)] is at most [e]. *)
Definition edge_bound m (u v : string) (e : W) : Prop :=
  exists d, matrix_get m u v = Ok d /\ wle d e.


(** ** Graphs that differ in their weights *)




(** Deciding well-formedness and the sign of the weights of a given graph. *)
Definition wf_graphb (g : Graph) : bool :=
  bool_decide (NoDup (vertices g)) && bool_decide (NoDup (adjacency_list g).*1) &&
  forallb (fun p : string * list (string * W) =>
             bool_decide (p.1 ∈ vertices g) &&
             forallb (fun q : string * W => bool_decide (q.1 ∈ vertices g)) p.2)
          (adjacency_list g).

Definition edges_allb (P : W -> bool) (g : Graph) : bool :=
  forallb (fun p : string * list (string * W) => forallb (fun q : string * W => P q.2) p.2)
          (adjacency_list g).

End ProofVocabulary.

(** * Example inputs *)

(** The example of the specification: A->B (4), B->C (1), A->C (10), with
    integer weights. *)
Definition spec_graph : @Graph int_weight :=
  add_edge (Wt := int_weight)
    (add_edge (Wt := int_weight)
       (add_edge (Wt := int_weight) empty_graph "A" "B" (Fin 4)) "B" "C" (Fin 1))
    "A" "C" (Fin 10).

#[local] Set Warnings "-inexact-float".

(** Travel times 0.1, 0.2, 0.3 along A->B->C->D and along D->C->B->A, as
    binary64 numbers; [vs] is the order in which the vertex set iterates. *)
Definition rounding_graph (vs : list string) : @Graph float_weight :=
  @Build_Graph float_weight
    [("A", [("B", 0.1%float)]);
     ("B", [("C", 0.2%float); ("A", 0.3%float)]);
     ("C", [("D", 0.3%float); ("B", 0.2%float)]);
     ("D", [("C", 0.1%float)])]
    vs.

(** Two edges whose weights are finite and whose sum is not. *)
Definition overflow_graph : @Graph float_weight :=
  add_edge (Wt := float_weight)
    (add_edge (Wt := float_weight) empty_graph "A" "B" 1e308%float) "B" "C" 1e308%float.

(** A self-loop on A, of weight 2.5. *)
Definition self_loop_graph : @Graph float_weight :=
  add_edge (Wt := float_weight) empty_graph "A" "A" 2.5%float.

#[local] Set Warnings "inexact-float".

(** A self-loop of weight -1, with integer weights. *)
Definition negative_loop_graph : @Graph int_weight :=
  add_edge (Wt := int_weight) empty_graph "A" "A" (Fin (-1)).

(** Both strategies return for [(u, v)], and with different numbers. *)
Definition strategies_disagree {Wt : Weight} (fuel : nat) (g : Graph) (u v : string) : bool :=
  match dijkstra_shortest_path fuel g u v,
        floyd_warshall_precomputation g ≫= (fun table => matrix_get table u v) with
  | Ok x, Ok y => negb (weq x y)
  | _, _ => false
  end.

(** The table has entries for [(i, j)], [(i, k)] and [(k, j)], and
    [table[i][k] + table[k][j] < table[i][j]]. *)
Definition triangle_violated {Wt : Weight} (g : Graph) (i k j : string) : bool :=
  match floyd_warshall_precomputation g with
  | Ok table =>
      match matrix_get table i j, matrix_get table i k, matrix_get table k j with
      | Ok dij, Ok dik, Ok dkj => wlt (wadd dik dkj) dij
      | _, _, _ => false
      end
  | _ => false
  end.

(** A fleet whose only vehicle has the empty string as its id. *)
Definition unnamed_fleet : list (string * string) := [("", "A")].

(** The fleet of the specification's example. *)
Definition spec_fleet : list (string * string) := [("V1", "A"); ("V2", "C")].

(** A call at B, of priority 1. *)
Definition call_at_B : CallRow :=
  {| row_call_id := 1; row_location := "B"; row_call_type := "Cardiac" |}.

(** A call at Z, which is no location of [spec_graph], then the call at B. *)
Definition calls_Z_then_B : list CallRow :=
  [{| row_call_id := 0; row_location := "Z"; row_call_type := "Cardiac" |}; call_at_B].

(** Call types and their priorities. *)
Definition spec_priorities : gmap string Z := {[ "Cardiac" := 1%Z; "Fall" := 2%Z ]}.

(** Two calls of equal priority with ids 7 and 3, as in the specification. *)
Definition calls_7_3 : list CallRow :=
  [{| row_call_id := 7; row_location := "B"; row_call_type := "Fall" |};
   {| row_call_id := 3; row_location := "C"; row_call_type := "Fall" |}].

(** Two calls at B: the vehicle selected for the first is selected again for
    the second. *)
Definition two_calls_at_B : list CallRow :=
  [call_at_B; {| row_call_id := 2; row_location := "B"; row_call_type := "Cardiac" |}].

(** * Vocabulary of the further properties *)

Section FurtherVocabulary.
Context {Wt : Weight}.

(** [m] has an entry exactly for the pairs over [vs]. *)
Definition mdom (vs : list string) (m : gmap string (gmap string W)) : Prop :=
  forall i j, (exists d, matrix_get m i j = Ok d) <-> i ∈ vs /\ j ∈ vs.


(** The id and the location of a queued call, and of the call a log entry
    answers. *)
Definition call_key (c : Z * Z * CallRow) : Z * string := (c.1.2, row_location c.2).

Definition record_key (rec : DispatchRecord) : Z * string :=
  (log_call_id rec, log_call_location rec).

(** The row has a cell for each of [columns]. *)
Definition has_columns (columns : list string) (row : gmap string string) : Prop :=
  Forall (fun column => is_Some (row !! column)) columns.

(** The edge a row of the network file stands for, if both numbers parse. *)
Definition network_edge (py_float : string -> option W) (row : gmap string string)
  : option (string * string * W) :=
  source ← row !! "Start";
  destination ← row !! "End";
  travel_time ← row !! "Travel Time" ≫= py_float;
  traffic_delay ← row !! "Traffic Delay" ≫= py_float;
  Some (source, destination, wadd travel_time traffic_delay).

(** The call a row of the calls file stands for, if its id parses. *)
Definition call_of_row (py_int : string -> option Z) (row : gmap string string)
  : option CallRow :=
  call_id ← row !! "Call ID" ≫= py_int;
  location ← row !! "Location";
  call_type ← row !! "Call Type";
  Some {| row_call_id := call_id; row_location := location; row_call_type := call_type |}.

(** The last row with cell [x] in [column]. *)
Definition last_row (column x : string) (rows : list (gmap string string))
  : option (gmap string string) :=
  last (filter (fun row => row !! column = Some x) rows).

End FurtherVocabulary.

(** Plain decimal numerals, on which [int] and [float] agree with this
    reading. *)
Fixpoint digits_value (acc : Z) (s : string) : option Z :=
  match s with
  | EmptyString => Some acc
  | String c s' =>
      let n := Z.of_nat (Ascii.nat_of_ascii c) in
      if ((48 <=? n) && (n <=? 57))%Z
      then digits_value (10 * acc + (n - 48)) s'
      else None
  end.

Definition decimal (s : string) : option Z :=
  match s with
  | EmptyString => None
  | _ => digits_value 0 s
  end.

(** Rows of the four data files.  The third row of the network has a travel
    time that is no number; the other rows give the graph of the
    specification's example.  The type "Fall" and the vehicle V1 are listed
    twice. *)
Definition network_rows : list (gmap string string) :=
  [ {[ "Start" := "A"; "End" := "B"; "Travel Time" := "3"; "Traffic Delay" := "1" ]};
    {[ "Start" := "B"; "End" := "C"; "Travel Time" := "1"; "Traffic Delay" := "0" ]};
    {[ "Start" := "C"; "End" := "A"; "Travel Time" := "soon"; "Traffic Delay" := "0" ]};
    {[ "Start" := "A"; "End" := "C"; "Travel Time" := "8"; "Traffic Delay" := "2" ]} ].

Definition priority_rows : list (gmap string string) :=
  [ {[ "Call Type" := "Cardiac"; "Priority" := "1" ]};
    {[ "Call Type" := "Fall"; "Priority" := "3" ]};
    {[ "Call Type" := "Fall"; "Priority" := "2" ]} ].

Definition ambulance_rows : list (gmap string string) :=
  [ {[ "Ambulance Number" := "V1"; "Staging Location" := "C" ]};
    {[ "Ambulance Number" := "V2"; "Staging Location" := "C" ]};
    {[ "Ambulance Number" := "V1"; "Staging Location" := "A" ]} ].

Definition call_rows : list (gmap string string) :=
  [ {[ "Call ID" := "7"; "Location" := "B"; "Call Type" := "Fall" ]};
    {[ "Call ID" := "3"; "Location" := "Z"; "Call Type" := "Cardiac" ]} ].

(** Weights read as whole numbers. *)
Definition decimal_weight (s : string) : option (@W int_weight) := Fin <$> decimal s.

(** * Theory *)

(** ** The exact instance satisfies the laws *)

Lemma int_weight_ordered : OrderedWeight int_weight.
Proof.
  split; unfold wle; cbn.
  - intros [x|]; cbn; [apply Z.ltb_irrefl | done].
  - intros [x|] [y|] [z|]; cbn; rewrite ?Z.ltb_ge; try done; lia.
  - intros [x|] [y|]; cbn; rewrite ?Z.ltb_ge; try done. intros; f_equal; lia.
  - intros [x|] [y|]; cbn; rewrite ?Z.ltb_ge, ?Z.ltb_lt; try done; lia.
  - intros [x|] [y|]; cbn; try done. intros ?%Z.eqb_eq. by subst.
  - intros [x|]; done.
  - intros [x|] [y|] [e|]; cbn; rewrite ?Z.ltb_ge; try done; lia.
  - intros [x|] [y|] [e|]; cbn; rewrite ?Z.ltb_ge; try done; lia.
  - intros [x|] [e|]; cbn; rewrite ?Z.ltb_ge; try done; lia.
Qed.

Lemma int_weight_exact : ExactWeight int_weight.
Proof.
  split; cbn.
  - apply int_weight_ordered.
  - intros [x|] [y|] [z|]; cbn; try done. f_equal; lia.
  - intros [x|]; cbn; [f_equal; lia | done].
  - intros [x|]; cbn; [f_equal; lia | done].
Qed.


(** ** Consequences of the order laws *)

Section OrderFacts.
Context {Wt : Weight} {OW : OrderedWeight Wt}.

Lemma wle_total (x y : W) : wle x y \/ wle y x.
Proof.
  unfold wle. destruct (wlt y x) eqn:E; [right | by left].
  by apply wlt_wle.
Qed.

Lemma wlt_not_wle (x y : W) : wlt x y = true -> ~ wle y x.
Proof. unfold wle. congruence. Qed.

Lemma wle_inf_eq (x : W) : wle winf x -> x = winf.
Proof. intros H. apply wle_antisym; [apply winf_top | done]. Qed.

Lemma wlt_inf_ne (x y : W) : wlt x y = true -> x <> winf.
Proof.
  intros H ->. apply (wlt_not_wle _ _ H), winf_top.
Qed.

Lemma wadd_mono (x x' y y' : W) : wle x x' -> wle y y' -> wle (wadd x y) (wadd x' y').
Proof.
  intros Hx Hy. eapply wle_trans; [by apply wadd_mono_l | by apply wadd_mono_r].
Qed.

Lemma wadd_inf_l (e : W) : wle wzero e -> wadd winf e = winf.
Proof. intros H. apply wle_inf_eq. by apply wadd_infl. Qed.

Lemma wzero_le_inf : wle (wzero : W) winf.
Proof. apply winf_top. Qed.

End OrderFacts.

(** ** The result monad and dictionaries *)

Lemma bind_Ok {A B : Type} (r : result A) (f : A -> result B) (b : B) :
  r ≫= f = Ok b -> exists a, r = Ok a /\ f a = Ok b.
Proof. destruct r; cbn; [eauto | done | done]. Qed.

Lemma dict_get_Ok {A : Type} (d : gmap string A) (k : string) (x : A) :
  dict_get d k = Ok x <-> d !! k = Some x.
Proof. unfold dict_get. destruct (d !! k); split; congruence. Qed.

Lemma dict_get_Some {A : Type} (d : gmap string A) (k : string) (x : A) :
  d !! k = Some x -> dict_get d k = Ok x.
Proof. apply dict_get_Ok. Qed.

Lemma dict_fromkeys_lookup {A : Type} (keys : list string) (x : A) (k : string) :
  dict_fromkeys keys x !! k = if decide (k ∈ keys) then Some x else None.
Proof.
  unfold dict_fromkeys.
  assert (G : forall d : gmap string A,
    foldl (fun d k => <[k := x]> d) d keys !! k
    = if decide (k ∈ keys) then Some x else d !! k).
  { induction keys as [|a keys IH]; intros d; cbn.
    - case_decide; [by apply elem_of_nil in H | done].
    - rewrite IH. destruct (decide (k ∈ keys)) as [Hin | Hin].
      + rewrite decide_True; [done | by right].
      + destruct (decide (k = a)) as [-> | Hne].
        * rewrite decide_True; [by rewrite lookup_insert_eq | by left].
        * rewrite decide_False; [by rewrite lookup_insert_ne |].
          intros [-> | ?]%elem_of_cons; done. }
  rewrite G. by case_decide.
Qed.

(** [for_each] keeps an invariant indexed by the items already handled. *)
Lemma for_each_inv {A S : Type} (P : list A -> S -> Prop) (xs : list A)
    (body : A -> S -> result S) (s : S) :
  P [] s ->
  (forall done x s, P done s -> x ∈ xs ->
     exists s', body x s = Ok s' /\ P (done ++ [x]) s') ->
  exists s', for_each xs body s = Ok s' /\ P xs s'.
Proof.
  intros H0 Hstep.
  assert (G : forall rest done s, xs = done ++ rest -> P done s ->
            exists s', for_each rest body s = Ok s' /\ P xs s').
  { induction rest as [|x rest IH]; intros done s1 Hxs HP; cbn.
    - rewrite app_nil_r in Hxs. subst. eauto.
    - destruct (Hstep done x s1 HP) as (s' & Hb & HP').
      { rewrite Hxs. apply elem_of_app. right. by left. }
      rewrite Hb. cbn. apply (IH (done ++ [x])); [| done].
      by rewrite <- app_assoc. }
  by apply (G xs []).
Qed.

(** ** heapq *)

Lemma extract_min_perm {A : Type} (lt : A -> A -> bool) (l : list A) (x m : A) (r : list A) :
  extract_min lt x l = (m, r) -> x :: l ≡ₚ m :: r.
Proof.
  revert x m r. induction l as [|y l IH]; intros x m r; cbn.
  - by intros [= <- <-].
  - destruct (lt y x).
    + destruct (extract_min lt y l) as [m' r'] eqn:E. intros [= <- <-].
      rewrite (IH _ _ _ E). apply Permutation_swap.
    + destruct (extract_min lt x l) as [m' r'] eqn:E. intros [= <- <-].
      rewrite (Permutation_swap y x l), (IH _ _ _ E). apply Permutation_swap.
Qed.

(** The element [extract_min] returns is least for any preorder that the
    comparison decides on a key. *)
Lemma extract_min_least {A K : Type} (lt : A -> A -> bool) (key : A -> K)
    (R : K -> K -> Prop) :
  (forall k, R k k) ->
  (forall a b c, R a b -> R b c -> R a c) ->
  (forall a b, lt a b = true -> R (key a) (key b)) ->
  (forall a b, lt a b = false -> R (key b) (key a)) ->
  forall l x m r, extract_min lt x l = (m, r) ->
  forall e, e ∈ x :: l -> R (key m) (key e).
Proof.
  intros Hrefl Htrans Hlt Hge.
  induction l as [|y l IH]; intros x m r; cbn.
  - intros [= <- <-] e ->%list_elem_of_singleton. apply Hrefl.
  - destruct (lt y x) eqn:Hyx.
    + destruct (extract_min lt y l) as [m' r'] eqn:E. intros [= <- <-] e He.
      assert (Hy : R (key m') (key y)) by (apply (IH _ _ _ E); by left).
      apply elem_of_cons in He as [-> | He].
      * eapply Htrans; [exact Hy | by apply Hlt].
      * apply (IH _ _ _ E). done.
    + destruct (extract_min lt x l) as [m' r'] eqn:E. intros [= <- <-] e He.
      assert (Hx : R (key m') (key x)) by (apply (IH _ _ _ E); by left).
      apply elem_of_cons in He as [-> | He]; [done |].
      apply elem_of_cons in He as [-> | He].
      * eapply Htrans; [exact Hx | by apply Hge].
      * apply (IH _ _ _ E). by right.
Qed.

Lemma heappop_Some {A : Type} (lt : A -> A -> bool) (heap : list A) (m : A) (r : list A) :
  heappop lt heap = Some (m, r) -> heap ≡ₚ m :: r.
Proof.
  destruct heap as [|x l]; cbn; [done |]. intros [= H]. by apply extract_min_perm in H.
Qed.

Lemma heappop_None {A : Type} (lt : A -> A -> bool) (heap : list A) :
  heappop lt heap = None <-> heap = [].
Proof. destruct heap; cbn; split; done. Qed.

(** ** Graphs and walks *)

Section GraphFacts.
Context {Wt : Weight}.

Lemma adj_lookup_elem (adj : list (string * list (string * W))) (u : string)
    (nbrs : list (string * W)) :
  adj_lookup adj u = Some nbrs -> (u, nbrs) ∈ adj.
Proof.
  induction adj as [|[s l] adj IH]; cbn; [done |].
  case_decide as Hs.
  - intros [= <-]. subst. by left.
  - intros H. right. by apply IH.
Qed.

Lemma adj_lookup_None (adj : list (string * list (string * W))) (u : string) :
  adj_lookup adj u = None -> forall nbrs, (u, nbrs) ∉ adj.
Proof.
  induction adj as [|[s l] adj IH]; cbn; intros H nbrs Hin.
  - by apply elem_of_nil in Hin.
  - case_decide as Hs; [done |].
    apply elem_of_cons in Hin as [[= -> ->] | Hin]; [done |]. by eapply IH.
Qed.

Lemma adj_lookup_NoDup (adj : list (string * list (string * W))) (u : string)
    (nbrs : list (string * W)) :
  NoDup adj.*1 -> (u, nbrs) ∈ adj -> adj_lookup adj u = Some nbrs.
Proof.
  induction adj as [|[s l] adj IH]; cbn; intros Hnd Hin.
  - by apply elem_of_nil in Hin.
  - apply NoDup_cons in Hnd as [Hs Hnd].
    apply elem_of_cons in Hin as [[= -> ->] | Hin].
    + by rewrite decide_True.
    + rewrite decide_False; [by apply IH |].
      intros ->. apply Hs. apply list_elem_of_fmap. by exists (u, nbrs).
Qed.

Lemma edge_lookup (g : Graph) (u v : string) (e : W) :
  wf_graph g -> edge g u v e ->
  exists nbrs, adj_lookup (adjacency_list g) u = Some nbrs /\ (v, e) ∈ nbrs.
Proof.
  intros Hwf (nbrs & Hin & Hv). exists nbrs. split; [| done].
  apply adj_lookup_NoDup; [apply Hwf | done].
Qed.

Lemma lookup_edge (g : Graph) (u v : string) (e : W) (nbrs : list (string * W)) :
  adj_lookup (adjacency_list g) u = Some nbrs -> (v, e) ∈ nbrs -> edge g u v e.
Proof. intros H Hv. exists nbrs. split; [by apply adj_lookup_elem | done]. Qed.

Lemma lwalk_reachable (g : Graph) (s v : string) (w : W) :
  lwalk g s v w -> reachable g s v.
Proof.
  induction 1 as [|u v w e _ IH He]; [apply rtc_refl |].
  eapply rtc_r; [exact IH | by exists e].
Qed.



Context {OW : OrderedWeight Wt}.

Lemma lwalk_nonneg (g : Graph) (s v : string) (w : W) :
  nonneg_weights g -> lwalk g s v w -> wle wzero w.
Proof.
  intros Hnn. induction 1 as [|u v w e _ IH He]; [apply wle_refl |].
  eapply wle_trans; [exact IH |]. apply wadd_infl. by eapply Hnn.
Qed.

Lemma shortest_unique (g : Graph) (s t : string) (d d' : W) :
  shortest g s t d -> shortest g s t d' -> d = d'.
Proof.
  intros [Hd Hopt] [Hd' Hopt']. apply wle_antisym.
  - destruct Hd' as [-> | Hw]; [apply winf_top | by apply Hopt].
  - destruct Hd as [-> | Hw]; [apply winf_top | by apply Hopt'].
Qed.


End GraphFacts.

(** ** Dijkstra: the loop invariant *)

Section DijkstraInvariant.
Context {Wt : Weight} {OW : OrderedWeight Wt}.
Variable g : Graph.
Hypothesis Hwf : wf_graph g.
Hypothesis Hnn : nonneg_weights g.
Variables s t : string.

Lemma dinv_weaken S Rx Rx' pq dist :
  dinv g s t S Rx pq dist -> (forall u v e, Rx' u v e -> Rx u v e) -> dinv g s t S Rx' pq dist.
Proof. intros [] H. split; eauto. Qed.

Lemma entry_lt_true (a b : W * string) : entry_lt a b = true -> wle a.1 b.1.
Proof.
  unfold entry_lt. destruct (weq a.1 b.1) eqn:E.
  - apply weq_sound in E. rewrite E. intros _. apply wle_refl.
  - apply wlt_wle.
Qed.

Lemma entry_lt_false (a b : W * string) : entry_lt a b = false -> wle b.1 a.1.
Proof.
  unfold entry_lt. destruct (weq a.1 b.1) eqn:E.
  - apply weq_sound in E. rewrite E. intros _. apply wle_refl.
  - done.
Qed.

Lemma heappop_entry_least pq c u pq' :
  heappop entry_lt pq = Some ((c, u), pq') ->
  forall c' v, (c', v) ∈ pq -> wle c c'.
Proof.
  destruct pq as [|x l]; cbn; [done |]. intros [= H] c' v Hin.
  apply (extract_min_least entry_lt fst wle wle_refl wle_trans
           entry_lt_true entry_lt_false _ _ _ _ H (c', v) Hin).
Qed.

(** Every walk that ends outside the settled set weighs at least as much as
    the cheapest queue entry. *)
Lemma unsettled_bound S pq dist c :
  dinv g s t S (settled_edges g S) pq dist ->
  (forall c' v, (c', v) ∈ pq -> wle c c') ->
  forall y w, lwalk g s y w -> y ∉ S -> wle c w.
Proof.
  intros Hinv Hc. induction 1 as [|u v w e Hw IH He]; intros Hy.
  - destruct (inv_start Hinv) as [? | Hin]; [done | by eapply Hc].
  - destruct (decide (u ∈ S)) as [Hu | Hu].
    + destruct (inv_settled_dom Hinv u Hu) as [du Hdu].
      destruct (inv_dom Hinv v) as [dv Hdv]; [by eapply wf_destinations |].
      assert (H1 : wle dv (wadd w e)).
      { apply (wle_trans _ (wadd du e)).
        - apply (inv_relaxed Hinv u v e); [by split | done | done].
        - apply wadd_mono_l. by apply (inv_opt Hinv u). }
      destruct (wlt dv winf) eqn:Hfin.
      * eapply wle_trans; [| exact H1]. eapply Hc. by eapply (inv_frontier Hinv).
      * eapply wle_trans; [apply winf_top |]. eapply wle_trans; [exact Hfin | exact H1].
    + eapply wle_trans; [by apply IH |]. apply wadd_infl. by eapply Hnn.
Qed.

(** One iteration of the relaxation loop. *)
Lemma relax_step S Rx pq dist u du x e :
  dinv g s t S Rx pq dist -> u ∈ S -> dist !! u = Some du ->
  (forall y dy, y ∈ S -> dist !! y = Some dy -> wle dy du) ->
  edge g u x e ->
  exists dx, dist !! x = Some dx /\
    if wlt (wadd du e) dx
    then (x ∉ S) /\
         dinv g s t S (fun a b c => Rx a b c \/ (a = u /\ b = x /\ c = e))
           (heappush pq (wadd du e, x)) (<[x := wadd du e]> dist)
    else dinv g s t S (fun a b c => Rx a b c \/ (a = u /\ b = x /\ c = e)) pq dist.
Proof.
  intros Hinv Hu Hdu Hle He.
  destruct (inv_dom Hinv x) as [dx Hdx]; [by eapply wf_destinations |].
  exists dx. split; [done |].
  assert (He0 : wle wzero e) by (by eapply Hnn).
  destruct (wlt (wadd du e) dx) eqn:Hlt.
  - assert (HxS : x ∉ S).
    { intros HxS. apply (wlt_not_wle _ _ Hlt).
      eapply wle_trans; [by eapply Hle | by apply wadd_infl]. }
    assert (Hux : u <> x) by (intros ->; done).
    split; [done |]. destruct Hinv. split.
    + intros v Hv. destruct (decide (x = v)) as [-> | Hne].
      * rewrite lookup_insert_eq. eauto.
      * rewrite lookup_insert_ne by done. eauto.
    + intros y Hy. rewrite lookup_insert_ne by (intros ->; done). eauto.
    + intros v d. destruct (decide (x = v)) as [-> | Hne].
      * rewrite lookup_insert_eq. intros [= <-]. right.
        destruct (inv_sound0 u du Hdu) as [-> | Hw]; [| by econstructor].
        exfalso. rewrite wadd_inf_l in Hlt by done.
        by apply (wlt_not_wle _ _ Hlt), winf_top.
      * rewrite lookup_insert_ne by done. eauto.
    + intros y d w Hy. rewrite lookup_insert_ne by (intros ->; done). eauto.
    + intros a b c [HR | (-> & _)]; eauto.
    + intros a b c da db HR Ha Hb.
      assert (HaS : a ∈ S) by (destruct HR as [HR | (-> & _)]; eauto).
      rewrite lookup_insert_ne in Ha by (intros ->; done).
      destruct (decide (x = b)) as [-> | Hne].
      * rewrite lookup_insert_eq in Hb. injection Hb as <-.
        destruct HR as [HR | (-> & _ & ->)].
        -- apply (wle_trans _ dx); [by apply wlt_wle | eauto].
        -- rewrite Hdu in Ha. injection Ha as <-. apply wle_refl.
      * rewrite lookup_insert_ne in Hb by done.
        destruct HR as [HR | (_ & -> & _)]; [eauto | done].
    + intros v d Hv. destruct (decide (x = v)) as [-> | Hne].
      * rewrite lookup_insert_eq. intros [= <-] _. by left.
      * rewrite lookup_insert_ne by done. intros. right. eauto.
    + intros c v [[= -> ->] | Hin]%elem_of_cons.
      * exists (wadd du e). rewrite lookup_insert_eq. split; [done | apply wle_refl].
      * destruct (inv_pq0 c v Hin) as (d & Hd & Hdc).
        destruct (decide (x = v)) as [-> | Hne].
        -- exists (wadd du e). rewrite lookup_insert_eq. split; [done |].
           rewrite Hdx in Hd. injection Hd as <-.
           apply (wle_trans _ dx); [by apply wlt_wle | done].
        -- exists d. by rewrite lookup_insert_ne.
    + intros y d c v Hy. rewrite lookup_insert_ne by (intros ->; done).
      intros Hd [[= -> ->] | Hin]%elem_of_cons; [| eauto].
      apply (wle_trans _ du); [eauto | by apply wadd_infl].
    + destruct inv_start0; [by left | right; by right].
    + done.
  - destruct Hinv. split; eauto.
    + intros a b c [HR | (-> & _)]; eauto.
    + intros a b c da db [HR | (-> & -> & ->)] Ha Hb; [eauto |].
      rewrite Hdu in Ha. rewrite Hdx in Hb. injection Ha as <-. injection Hb as <-.
      exact Hlt.
Qed.

(** The whole relaxation loop. *)
Lemma relax_ok S u du nbrs : forall Rx pq dist,
  dinv g s t S Rx pq dist -> u ∈ S -> dist !! u = Some du ->
  (forall y dy, y ∈ S -> dist !! y = Some dy -> wle dy du) ->
  (forall x e, (x, e) ∈ nbrs -> edge g u x e) ->
  exists pq' dist', relax_neighbors u nbrs pq dist = Ok (pq', dist') /\
    dinv g s t S (fun a b c => Rx a b c \/ (a = u /\ (b, c) ∈ nbrs)) pq' dist' /\
    length pq' <= length pq + length nbrs.
Proof.
  induction nbrs as [|[x e] rest IH]; intros Rx pq dist Hinv Hu Hdu Hle Hedges.
  - exists pq, dist. cbn. split; [done |]. split; [| lia].
    apply (dinv_weaken _ _ _ _ _ Hinv). intros a b c [? | [_ Hin]]; [done |].
    by apply elem_of_nil in Hin.
  - destruct (relax_step S Rx pq dist u du x e Hinv Hu Hdu Hle) as (dx & Hdx & Hstep).
    { apply Hedges. by left. }
    cbn. rewrite (dict_get_Some _ _ _ Hdu). cbn. rewrite (dict_get_Some _ _ _ Hdx). cbn.
    destruct (wlt (wadd du e) dx).
    + destruct Hstep as [HxS Hinv'].
      destruct (IH _ _ _ Hinv' Hu) as (pq' & dist' & Hr & Hinv'' & Hlen).
      * rewrite lookup_insert_ne by (intros ->; done). done.
      * intros y dy Hy. rewrite lookup_insert_ne by (intros ->; done). by apply Hle.
      * intros y c Hin. apply Hedges. by right.
      * exists pq', dist'. split; [done |]. split; [| cbn in *; lia].
        apply (dinv_weaken _ _ _ _ _ Hinv'').
        intros a b c [? | [-> [[= -> ->] | Hin]%elem_of_cons]]; auto.
    + destruct (IH _ _ _ Hstep Hu Hdu Hle) as (pq' & dist' & Hr & Hinv'' & Hlen).
      * intros y c Hin. apply Hedges. by right.
      * exists pq', dist'. split; [done |]. split; [| cbn in *; lia].
        apply (dinv_weaken _ _ _ _ _ Hinv'').
        intros a b c [? | [-> [[= -> ->] | Hin]%elem_of_cons]]; auto.
Qed.

(** Relaxing edges that are relaxed already changes nothing. *)
Lemma relax_noop u du nbrs pq dist :
  dist !! u = Some du ->
  (forall x e, (x, e) ∈ nbrs -> exists dx, dist !! x = Some dx /\ wle dx (wadd du e)) ->
  relax_neighbors u nbrs pq dist = Ok (pq, dist).
Proof.
  intros Hdu. induction nbrs as [|[x e] rest IH]; intros H; cbn; [done |].
  destruct (H x e) as (dx & Hdx & Hle); [by left |].
  rewrite (dict_get_Some _ _ _ Hdu). cbn. rewrite (dict_get_Some _ _ _ Hdx). cbn.
  rewrite Hle. apply IH. intros y c Hin. apply H. by right.
Qed.

Lemma pending_mono S u adj : pending ({[u]} ∪ S) adj <= pending S adj.
Proof.
  unfold pending. induction adj as [|[a l] adj IH]; cbn; [lia |].
  repeat case_decide; try lia. set_solver.
Qed.

Lemma pending_settle S u nbrs adj :
  NoDup adj.*1 -> u ∉ S -> adj_lookup adj u = Some nbrs ->
  pending ({[u]} ∪ S) adj + length nbrs <= pending S adj.
Proof.
  unfold pending. induction adj as [|[a l] adj IH]; cbn; [done |].
  intros [Ha Hnd]%NoDup_cons Hu. case_decide as Hau.
  - intros [= ->]. subst a. rewrite decide_True by set_solver.
    rewrite decide_False by done. pose proof (pending_mono S u adj). unfold pending in *. lia.
  - intros Hl. specialize (IH Hnd Hu Hl).
    destruct (decide (a ∈ S)).
    + rewrite decide_True by set_solver. lia.
    + rewrite decide_False by (intros [?%elem_of_singleton | ?]%elem_of_union; done). lia.
Qed.

(** Dropping a popped entry that is stale or belongs to a settled node. *)
Lemma dinv_drop S Rx pq pq' dist c u :
  dinv g s t S Rx pq dist -> pq ≡ₚ (c, u) :: pq' ->
  (u ∈ S \/ exists d, dist !! u = Some d /\ wlt d c = true) ->
  dinv g s t S Rx pq' dist.
Proof.
  intros Hinv Hperm Hu. destruct Hinv. split; eauto.
  - intros v d Hv Hd Hfin. pose proof (inv_frontier0 v d Hv Hd Hfin) as Hin.
    rewrite Hperm in Hin. apply elem_of_cons in Hin as [[= -> ->] | Hin]; [| done].
    destruct Hu as [? | (d' & Hd' & Hlt)]; [done |].
    rewrite Hd in Hd'. injection Hd' as <-.
    exfalso. apply (wlt_not_wle _ _ Hlt), wle_refl.
  - intros c' v Hin. apply inv_pq0. rewrite Hperm. by right.
  - intros y d c' v Hy Hd Hin. apply (inv_settled_le0 y d c' v Hy Hd). rewrite Hperm. by right.
  - destruct inv_start0 as [? | Hin]; [by left |].
    rewrite Hperm in Hin. apply elem_of_cons in Hin as [[= <- <-] | Hin]; [| by right].
    destruct Hu as [? | (d & Hd & Hlt)]; [by left |].
    exfalso. apply (wlt_not_wle _ _ Hlt).
    destruct (inv_sound0 s d Hd) as [-> | Hw]; [apply winf_top |].
    by eapply lwalk_nonneg.
Qed.

(** Settling the node of a popped entry that is least and not stale. *)
Lemma dinv_settle S pq pq' dist c u d :
  dinv g s t S (settled_edges g S) pq dist -> pq ≡ₚ (c, u) :: pq' ->
  (forall c' v, (c', v) ∈ pq -> wle c c') ->
  dist !! u = Some d -> wle c d -> u <> t ->
  (forall w, lwalk g s u w -> wle d w) /\
  dinv g s t ({[u]} ∪ S) (settled_edges g S) pq' dist /\
  (forall y dy, y ∈ ({[u]} ∪ S : gset string) -> dist !! y = Some dy -> wle dy d).
Proof.
  intros Hinv Hperm Hleast Hd Hcd Hut.
  assert (Hin : (c, u) ∈ pq) by (rewrite Hperm; by left).
  assert (Hdc : wle d c).
  { destruct (inv_pq Hinv c u Hin) as (d' & Hd' & Hle). by simplify_eq. }
  assert (Hopt : forall w, lwalk g s u w -> wle d w).
  { intros w Hw. destruct (decide (u ∈ S)) as [HuS | HuS].
    - by eapply (inv_opt Hinv).
    - apply (wle_trans _ c); [done |]. by eapply unsettled_bound. }
  split; [done |]. split.
  - destruct Hinv. split; eauto.
    + intros y [->%elem_of_singleton | Hy]%elem_of_union; eauto.
    + intros y dy w [->%elem_of_singleton | Hy]%elem_of_union; [| eauto].
      intros Hy Hw. simplify_eq. by apply Hopt.
    + intros a b e [Ha _]. apply elem_of_union. by right.
    + intros v dv Hv Hdv Hfin.
      assert (Hin' : (dv, v) ∈ pq).
      { apply inv_frontier0; [| done..]. intros ?. apply Hv, elem_of_union. by right. }
      rewrite Hperm in Hin'. apply elem_of_cons in Hin' as [[= -> ->] | ?]; [| done].
      exfalso. apply Hv, elem_of_union. left. by apply elem_of_singleton.
    + intros c' v Hin'. apply inv_pq0. rewrite Hperm. by right.
    + intros y dy c' v [->%elem_of_singleton | Hy]%elem_of_union Hdy Hin'.
      * simplify_eq. apply (wle_trans _ c); [done |]. eapply Hleast. rewrite Hperm. by right.
      * eapply inv_settled_le0; [done | done |]. rewrite Hperm. by right.
    + destruct inv_start0 as [? | Hin']; [left; set_solver |].
      rewrite Hperm in Hin'. apply elem_of_cons in Hin' as [[= <- <-] | ?]; [left; set_solver | by right].
    + intros [?%elem_of_singleton | ?]%elem_of_union; [congruence | done].
  - intros y dy [->%elem_of_singleton | Hy]%elem_of_union Hdy.
    + simplify_eq. apply wle_refl.
    + apply (wle_trans _ c); [| done]. by eapply (inv_settled_le Hinv).
Qed.

(** The loop returns, within the fuel the invariant accounts for, the weight
    of a shortest walk. *)
Lemma dijkstra_loop_ok : forall fuel S pq dist,
  dinv g s t S (settled_edges g S) pq dist ->
  length pq + pending S (adjacency_list g) < fuel ->
  exists r, dijkstra_loop fuel g t pq dist = Ok r /\ shortest g s t r.
Proof.
  induction fuel as [|fuel IH]; intros S pq dist Hinv Hfuel; [lia |].
  cbn [dijkstra_loop]. destruct (heappop entry_lt pq) as [[[c u] pq'] |] eqn:Hpop.
  2:{ apply heappop_None in Hpop. subst pq. exists winf. split; [done |].
      split; [by left |]. intros w Hw.
      eapply (unsettled_bound S [] dist winf Hinv); [| done | apply (inv_end Hinv)].
      intros c' v Hin. by apply elem_of_nil in Hin. }
  pose proof (heappop_entry_least _ _ _ _ Hpop) as Hleast.
  apply heappop_Some in Hpop as Hperm.
  assert (Hlen : length pq = Datatypes.S (length pq')) by (by rewrite Hperm).
  destruct (inv_pq Hinv c u) as (d & Hd & Hdc); [rewrite Hperm; by left |].
  rewrite (dict_get_Some _ _ _ Hd). cbn.
  destruct (wlt d c) eqn:Hstale.
  { apply (IH S); [| lia]. eapply dinv_drop; [done | done |]. right. eauto. }
  destruct (decide (u = t)) as [-> | Hut].
  { exists d. rewrite (dict_get_Some _ _ _ Hd). split; [done |]. split.
    - by eapply (inv_sound Hinv).
    - intros w Hw. apply (wle_trans _ c); [done |].
      eapply unsettled_bound; [done | done | done | apply (inv_end Hinv)]. }
  destruct (decide (u ∈ S)) as [HuS | HuS].
  { assert (Hinv' : dinv g s t S (settled_edges g S) pq' dist).
    { eapply dinv_drop; [done | done | by left]. }
    destruct (adj_lookup (adjacency_list g) u) as [nbrs |] eqn:Hadj; [| apply (IH S); [done | lia]].
    rewrite (relax_noop u d nbrs pq' dist Hd).
    - cbn. apply (IH S); [done | lia].
    - intros x e Hin. assert (He : edge g u x e) by (by eapply lookup_edge).
      destruct (inv_dom Hinv x) as [dx Hdx]; [by eapply wf_destinations |].
      exists dx. split; [done |].
      by apply (inv_relaxed Hinv u x e d dx). }
  destruct (dinv_settle S pq pq' dist c u d Hinv Hperm Hleast Hd Hstale Hut)
    as (Hopt & Hinv' & Hle).
  destruct (adj_lookup (adjacency_list g) u) as [nbrs |] eqn:Hadj.
  - destruct (relax_ok ({[u]} ∪ S) u d nbrs _ pq' dist Hinv') as (pq'' & dist'' & Hr & Hinv'' & Hlen'').
    + set_solver.
    + done.
    + done.
    + intros x e Hin. by eapply lookup_edge.
    + rewrite Hr. cbn. apply (IH ({[u]} ∪ S)).
      * apply (dinv_weaken _ _ _ _ _ Hinv''). intros a b e [Ha He].
        apply elem_of_union in Ha as [->%elem_of_singleton | Ha].
        -- right. split; [done |].
           destruct (edge_lookup g u b e Hwf He) as (nbrs' & Hl & Hin). by simplify_eq.
        -- left. by split.
      * pose proof (pending_settle S u nbrs (adjacency_list g) (wf_keys_nodup g Hwf) HuS Hadj).
        lia.
  - apply (IH ({[u]} ∪ S)).
    + apply (dinv_weaken _ _ _ _ _ Hinv'). intros a b e [Ha He].
      apply elem_of_union in Ha as [->%elem_of_singleton | Ha]; [| by split].
      destruct (edge_lookup g u b e Hwf He) as (nbrs' & Hl & Hin). by simplify_eq.
    + pose proof (pending_mono S u (adjacency_list g)). lia.
Qed.

Lemma pending_empty adj : pending ∅ adj = sum_list ((fun p : string * list (string * W) => length p.2) <$> adj).
Proof. unfold pending. induction adj as [|[a l] adj IH]; cbn; [done |]. by rewrite IH. Qed.

Lemma dinv_initial :
  dinv g s t ∅ (settled_edges g ∅) [(wzero, s)] (<[s := wzero]> (dict_fromkeys (vertices g) winf)).
Proof.
  split.
  - intros v Hv. destruct (decide (s = v)) as [-> | Hne].
    + rewrite lookup_insert_eq. eauto.
    + rewrite lookup_insert_ne, dict_fromkeys_lookup, decide_True by done. eauto.
  - set_solver.
  - intros v d. destruct (decide (s = v)) as [-> | Hne].
    + rewrite lookup_insert_eq. intros [= <-]. right. constructor.
    + rewrite lookup_insert_ne, dict_fromkeys_lookup by done.
      case_decide; [| done]. intros [= <-]. by left.
  - set_solver.
  - intros u v e [Hu _]. set_solver.
  - intros u v e du dv [Hu _]. set_solver.
  - intros v d _. destruct (decide (s = v)) as [-> | Hne].
    + rewrite lookup_insert_eq. intros [= <-] _. by left.
    + rewrite lookup_insert_ne, dict_fromkeys_lookup by done.
      case_decide; [| done]. intros [= <-] Hfin.
      exfalso. apply (wlt_not_wle _ _ Hfin), wle_refl.
  - intros c v [= -> ->]%list_elem_of_singleton. exists wzero.
    rewrite lookup_insert_eq. split; [done | apply wle_refl].
  - set_solver.
  - right. by left.
  - set_solver.
Qed.

End DijkstraInvariant.

(** Dijkstra returns the weight of a shortest walk, for every start and end
    token, once the fuel exceeds the number of edges by two. *)
Lemma dijkstra_shortest {Wt : Weight} {OW : OrderedWeight Wt} (g : Graph) (s t : string) (fuel : nat) :
  wf_graph g -> nonneg_weights g -> edge_count g + 2 <= fuel ->
  exists r, dijkstra_shortest_path fuel g s t = Ok r /\ shortest g s t r.
Proof.
  intros Hwf Hnn Hfuel. unfold dijkstra_shortest_path.
  apply (dijkstra_loop_ok g Hwf Hnn s t fuel ∅).
  - by apply dinv_initial.
  - rewrite pending_empty. unfold edge_count in Hfuel. cbn. lia.
Qed.

(** ** Floyd-Warshall: the table as a partial function *)

Section MatrixFacts.
Context {Wt : Weight}.
Implicit Types m : gmap string (gmap string W).

Lemma matrix_get_Ok m i j d :
  matrix_get m i j = Ok d <-> exists row, m !! i = Some row /\ row !! j = Some d.
Proof.
  unfold matrix_get, dict_get. destruct (m !! i) as [row |]; cbn.
  - destruct (row !! j) eqn:E; split.
    + intros [= <-]. eauto.
    + intros (row' & [= <-] & Hd). congruence.
    + done.
    + intros (row' & [= <-] & Hd). congruence.
  - split; [done | intros (? & ? & ?); done].
Qed.

Lemma matrix_set_Ok m i j x d :
  matrix_get m i j = Ok d -> exists m', matrix_set m i j x = Ok m'.
Proof.
  intros (row & Hrow & _)%matrix_get_Ok. unfold matrix_set, dict_get.
  rewrite Hrow. cbn. eauto.
Qed.

Lemma matrix_get_set m m' i j x a b :
  matrix_set m i j x = Ok m' ->
  matrix_get m' a b = if decide (a = i /\ b = j) then Ok x else matrix_get m a b.
Proof.
  unfold matrix_set, matrix_get, dict_get.
  destruct (m !! i) as [row |] eqn:Hrow; cbn; [| done]. intros [= <-].
  destruct (decide (a = i)) as [-> | Ha].
  - rewrite lookup_insert_eq, Hrow. cbn. destruct (decide (b = j)) as [-> | Hb].
    + rewrite lookup_insert_eq. by rewrite decide_True.
    + rewrite lookup_insert_ne by done. rewrite decide_False; [done | intros [_ ?]; done].
  - rewrite lookup_insert_ne by done. rewrite decide_False; [done | intros [? _]; done].
Qed.

Lemma init_matrix_get (vs : list string) i j :
  i ∈ vs -> j ∈ vs -> matrix_get (init_matrix vs) i j = Ok winf.
Proof.
  intros Hi Hj. apply matrix_get_Ok. exists (dict_fromkeys vs winf).
  split; [| by rewrite dict_fromkeys_lookup, decide_True].
  change (init_matrix vs) with (dict_fromkeys vs (dict_fromkeys vs (winf : W))).
  by rewrite dict_fromkeys_lookup, decide_True.
Qed.

Lemma init_matrix_inf (vs : list string) i j d :
  matrix_get (init_matrix vs) i j = Ok d -> d = winf.
Proof.
  intros (row & Hrow & Hd)%matrix_get_Ok.
  change (init_matrix vs) with (dict_fromkeys vs (dict_fromkeys vs (winf : W))) in Hrow.
  rewrite dict_fromkeys_lookup in Hrow. case_decide; [| done]. injection Hrow as <-.
  rewrite dict_fromkeys_lookup in Hd. case_decide; [| done]. by injection Hd as <-.
Qed.

Context {OW : OrderedWeight Wt}.

Lemma mle_refl m : mle m m.
Proof. intros i j d H. exists d. split; [done | apply wle_refl]. Qed.

Lemma mle_trans m1 m2 m3 : mle m1 m2 -> mle m2 m3 -> mle m1 m3.
Proof.
  intros H12 H23 i j d H. destruct (H23 i j d H) as (d2 & H2 & Hle2).
  destruct (H12 i j d2 H2) as (d1 & H1 & Hle1). exists d1. split; [done |].
  by eapply wle_trans.
Qed.

Lemma mcomplete_mle vs m m' : mcomplete vs m -> mle m' m -> mcomplete vs m'.
Proof.
  intros Hc Hle i j Hi Hj. destruct (Hc i j Hi Hj) as [d Hd].
  destruct (Hle i j d Hd) as (d' & Hd' & _). eauto.
Qed.

(** Lowering one entry. *)
Lemma matrix_set_lower m m' i j x d :
  matrix_get m i j = Ok d -> wle x d -> matrix_set m i j x = Ok m' -> mle m' m.
Proof.
  intros Hd Hx Hset a b d0 Hab. rewrite (matrix_get_set _ _ _ _ _ _ _ Hset).
  case_decide as Hij.
  - destruct Hij as [-> ->]. exists x. split; [done |].
    rewrite Hd in Hab. by injection Hab as <-.
  - exists d0. split; [done | apply wle_refl].
Qed.

End MatrixFacts.

(** ** Floyd-Warshall: correctness of the table *)

Section FloydWarshall.
Context {Wt : Weight} {EW : ExactWeight Wt}.
Variable g : Graph.
Hypothesis Hwf : wf_graph g.
Hypothesis Hnn : nonneg_weights g.
Implicit Types m : gmap string (gmap string W).

Lemma wadd_inf_r (x : W) : wle wzero x -> wadd x winf = winf.
Proof.
  intros H. apply wle_inf_eq. rewrite <- (wadd_zero_l winf) at 1. by apply wadd_mono_l.
Qed.

Lemma lwalk_app a b c w1 w2 :
  lwalk g a b w1 -> lwalk g b c w2 -> lwalk g a c (wadd w1 w2).
Proof.
  intros H1. induction 1 as [|u v w e _ IH He].
  - by rewrite wadd_zero_r.
  - rewrite wadd_assoc. by econstructor.
Qed.

Lemma lwalk_edge u v e : edge g u v e -> lwalk g u v e.
Proof.
  intros He. rewrite <- (wadd_zero_l e). econstructor; [constructor | done].
Qed.

Lemma pathK_nonneg K s v w : pathK g K s v w -> wle wzero w.
Proof.
  induction 1 as [v e He | u v w e _ IH _ He]; [by eapply Hnn |].
  eapply wle_trans; [exact IH |]. apply wadd_infl. by eapply Hnn.
Qed.

Lemma pathK_ends K s v w : pathK g K s v w -> s ∈ vertices g /\ v ∈ vertices g.
Proof.
  induction 1 as [v e He | u v w e _ [IH _] _ He].
  - split; [| by eapply wf_destinations]. destruct He as (nbrs & Hin & _).
    by eapply wf_sources.
  - split; [done | by eapply wf_destinations].
Qed.

Lemma pathK_mono (K K' : string -> Prop) s v w :
  (forall x, K x -> K' x) -> pathK g K s v w -> pathK g K' s v w.
Proof.
  intros HK. induction 1 as [v e He | u v w e _ IH Hu He]; [by constructor |].
  apply (pathK_snoc _ _ _ u); auto.
Qed.

Lemma pathK_lwalk K s v w : pathK g K s v w -> lwalk g s v w.
Proof.
  induction 1 as [v e He | u v w e _ IH _ He]; [by apply lwalk_edge | by econstructor].
Qed.

(** A walk through [k] can be cut down to one that enters [k] once. *)
Lemma pathK_split (K : string -> Prop) k i j w :
  pathK g (fun x => K x \/ x = k) i j w ->
  pathK g K i j w \/
  exists w1 w3, pathK g K i k w1 /\ pathK g K k j w3 /\ wle (wadd w1 w3) w.
Proof.
  induction 1 as [v e He | u v w e _ IH Hu He]; [left; by constructor |].
  destruct Hu as [Hu | ->], IH as [IH | (w1 & w3 & H1 & H3 & Hle)].
  - left. by econstructor.
  - right. exists w1, (wadd w3 e). split; [done |]. split; [by econstructor |].
    rewrite wadd_assoc. by apply wadd_mono_l.
  - right. exists w, e. split; [done |]. split; [by constructor | apply wle_refl].
  - right. exists w1, e. split; [done |]. split; [by constructor |].
    apply wadd_mono_l. eapply wle_trans; [| exact Hle].
    apply wadd_infl. by eapply pathK_nonneg.
Qed.

Lemma lwalk_pathK s v w :
  lwalk g s v w -> (v = s /\ w = wzero) \/ pathK g (fun x => x ∈ vertices g) s v w.
Proof.
  induction 1 as [|u v w e _ IH He]; [by left | right].
  destruct IH as [[-> ->] | IH].
  - rewrite wadd_zero_l. by constructor.
  - econstructor; [done | | done]. by eapply pathK_ends.
Qed.

Lemma msound_nonneg m i j d : msound g m -> matrix_get m i j = Ok d -> wle wzero d.
Proof.
  intros Hs Hd. destruct (Hs i j d Hd) as [-> | Hw]; [apply winf_top |].
  by eapply lwalk_nonneg.
Qed.

(** One execution of the innermost body. *)
Lemma fw_step_spec k i j m dik dkj dij :
  msound g m ->
  matrix_get m i k = Ok dik -> matrix_get m k j = Ok dkj -> matrix_get m i j = Ok dij ->
  exists m', fw_step k i j m = Ok m' /\ mle m' m /\ msound g m' /\
    exists d', matrix_get m' i j = Ok d' /\ wle d' (wadd dik dkj).
Proof.
  intros Hs Hik Hkj Hij. unfold fw_step. rewrite Hik, Hkj, Hij. cbn.
  destruct (wlt (wadd dik dkj) dij) eqn:Hlt.
  - destruct (matrix_set_Ok m i j (wadd dik dkj) dij Hij) as [m' Hset].
    exists m'. split; [done |]. split; [| split].
    + eapply matrix_set_lower; [done | by apply wlt_wle | done].
    + intros a b d. rewrite (matrix_get_set _ _ _ _ _ _ _ Hset). case_decide as Hab; [| apply Hs].
      destruct Hab as [-> ->]. intros [= <-]. right.
      destruct (Hs _ _ _ Hik) as [-> | Hw1].
      { exfalso. rewrite wadd_inf_l in Hlt by (by eapply msound_nonneg).
        apply (wlt_not_wle _ _ Hlt), winf_top. }
      destruct (Hs _ _ _ Hkj) as [-> | Hw2].
      { exfalso. rewrite wadd_inf_r in Hlt by (by eapply msound_nonneg).
        apply (wlt_not_wle _ _ Hlt), winf_top. }
      by eapply lwalk_app.
    + exists (wadd dik dkj). rewrite (matrix_get_set _ _ _ _ _ _ _ Hset).
      rewrite decide_True by done. split; [done | apply wle_refl].
  - exists m. split; [done |]. split; [apply mle_refl |]. split; [done |].
    exists dij. split; [done | exact Hlt].
Qed.

Lemma via_mle k m0 m m' i j : via k m0 m i j -> mle m' m -> via k m0 m' i j.
Proof.
  intros (d & Hd & Hb) Hle. destruct (Hle i j d Hd) as (d' & Hd' & Hle').
  exists d'. split; [done |]. intros a b Ha Hb'. eapply wle_trans; [exact Hle' | by apply Hb].
Qed.

Lemma fw_row_spec k i m0 m :
  mcomplete (vertices g) m0 -> mle m m0 -> msound g m ->
  k ∈ vertices g -> i ∈ vertices g ->
  exists m', for_each (vertices g) (fun j m => fw_step k i j m) m = Ok m' /\
    mle m' m /\ msound g m' /\ forall j, j ∈ vertices g -> via k m0 m' i j.
Proof.
  intros Hc Hle Hs Hk Hi.
  destruct (for_each_inv
    (fun done m1 => mle m1 m /\ msound g m1 /\ forall j, j ∈ done -> via k m0 m1 i j)
    (vertices g) (fun j m => fw_step k i j m) m) as (m' & Hm' & H1 & H2 & H3).
  - split; [apply mle_refl |]. split; [done |]. intros j Hj. by apply elem_of_nil in Hj.
  - intros done j m1 (Hle1 & Hs1 & Hdone) Hj.
    assert (Hc1 : mcomplete (vertices g) m1).
    { eapply mcomplete_mle; [done |]. by eapply mle_trans. }
    destruct (Hc1 i k Hi Hk) as [dik Hik]. destruct (Hc1 k j Hk Hj) as [dkj Hkj].
    destruct (Hc1 i j Hi Hj) as [dij Hij].
    destruct (fw_step_spec k i j m1 dik dkj dij Hs1 Hik Hkj Hij)
      as (m2 & Hstep & Hle2 & Hs2 & d' & Hd' & Hb).
    exists m2. split; [done |]. split; [by eapply mle_trans |]. split; [done |].
    intros j' [Hj' | ->%list_elem_of_singleton]%elem_of_app.
    + eapply via_mle; [by apply Hdone | done].
    + exists d'. split; [done |]. intros a b Ha Hb'.
      eapply wle_trans; [exact Hb |].
      destruct (mle_trans _ _ _ Hle1 Hle i k a Ha) as (a' & Ha' & Hlea).
      destruct (mle_trans _ _ _ Hle1 Hle k j b Hb') as (b' & Hb'' & Hleb).
      rewrite Hik in Ha'. rewrite Hkj in Hb''. injection Ha' as <-. injection Hb'' as <-.
      by apply wadd_mono.
  - eauto.
Qed.

Lemma fw_pass_spec k m0 :
  mcomplete (vertices g) m0 -> msound g m0 -> k ∈ vertices g ->
  exists m', for_each (vertices g)
               (fun i m => for_each (vertices g) (fun j m => fw_step k i j m) m) m0 = Ok m' /\
    mle m' m0 /\ msound g m' /\
    forall i j, i ∈ vertices g -> j ∈ vertices g -> via k m0 m' i j.
Proof.
  intros Hc Hs Hk.
  destruct (for_each_inv
    (fun done m1 => mle m1 m0 /\ msound g m1 /\
       forall i j, i ∈ done -> j ∈ vertices g -> via k m0 m1 i j)
    (vertices g) (fun i m => for_each (vertices g) (fun j m => fw_step k i j m) m) m0)
    as (m' & Hm' & H1 & H2 & H3).
  - split; [apply mle_refl |]. split; [done |]. intros i j Hi. by apply elem_of_nil in Hi.
  - intros done i m1 (Hle1 & Hs1 & Hdone) Hi.
    destruct (fw_row_spec k i m0 m1 Hc Hle1 Hs1 Hk Hi) as (m2 & Hrow & Hle2 & Hs2 & Hvia).
    exists m2. split; [done |]. split; [by eapply mle_trans |]. split; [done |].
    intros i' j [Hi' | ->%list_elem_of_singleton]%elem_of_app Hj.
    + eapply via_mle; [by apply Hdone | done].
    + by apply Hvia.
  - eauto.
Qed.

Lemma fw_inv_pass K k m0 :
  fw_inv g K m0 -> k ∈ vertices g ->
  exists m', for_each (vertices g)
               (fun i m => for_each (vertices g) (fun j m => fw_step k i j m) m) m0 = Ok m' /\
    fw_inv g (K ++ [k]) m'.
Proof.
  intros [Hc Hs Hd Hl] Hk.
  destruct (fw_pass_spec k m0 Hc Hs Hk) as (m' & Hm' & Hle & Hs' & Hvia).
  exists m'. split; [done |]. split.
  - by eapply mcomplete_mle.
  - done.
  - intros i d Hi Hget. destruct (Hc i i Hi Hi) as [d0 Hd0].
    destruct (Hle i i d0 Hd0) as (d' & Hd' & Hle').
    rewrite Hget in Hd'. injection Hd' as <-.
    eapply wle_trans; [exact Hle' | by eapply Hd].
  - intros i j d w Hget Hp.
    destruct (pathK_ends _ _ _ _ Hp) as [Hi Hj].
    apply (pathK_mono _ (fun x => x ∈ K \/ x = k)) in Hp.
    2:{ intros x [? | ->%list_elem_of_singleton]%elem_of_app; auto. }
    destruct (Hc i j Hi Hj) as [d0 Hd0].
    destruct (Hle i j d0 Hd0) as (d' & Hd' & Hle').
    rewrite Hget in Hd'. injection Hd' as <-.
    apply pathK_split in Hp as [Hp | (w1 & w3 & Hp1 & Hp3 & Hw)].
    + eapply wle_trans; [exact Hle' | by eapply Hl].
    + destruct (Hc i k Hi Hk) as [a Ha]. destruct (Hc k j Hk Hj) as [b Hb].
      destruct (Hvia i j Hi Hj) as (d1 & Hd1 & Hbound).
      rewrite Hget in Hd1. injection Hd1 as <-.
      eapply wle_trans; [by apply Hbound |].
      eapply wle_trans; [| exact Hw].
      apply wadd_mono; by eapply Hl.
Qed.

(** The three nested loops. *)
Lemma fw_core_spec m0 :
  fw_inv g [] m0 ->
  exists m', fw_core (vertices g) m0 = Ok m' /\ fw_inv g (vertices g) m'.
Proof.
  intros H0. unfold fw_core.
  apply (for_each_inv (fun done m => fw_inv g done m)); [done |].
  intros done k m Hinv Hk. by apply fw_inv_pass.
Qed.

(** A table with the invariant for all vertices holds shortest distances. *)
Lemma fw_inv_shortest m i j :
  fw_inv g (vertices g) m -> i ∈ vertices g -> j ∈ vertices g ->
  exists d, matrix_get m i j = Ok d /\ shortest g i j d.
Proof.
  intros [Hc Hs Hd Hl] Hi Hj. destruct (Hc i j Hi Hj) as [d Hget].
  exists d. split; [done |]. split; [by eapply Hs |].
  intros w [[-> ->] | Hp]%lwalk_pathK; [by eapply Hd | by eapply Hl].
Qed.

(** The initial table: [0] on the diagonal, the least edge weight between
    neighbours, [winf] elsewhere. *)
Lemma set_diagonal_spec :
  exists m, set_diagonal (vertices g) (init_matrix (vertices g)) = Ok m /\
    mcomplete (vertices g) m /\
    (forall i j d, matrix_get m i j = Ok d -> d = winf \/ (i = j /\ d = wzero)) /\
    forall v, v ∈ vertices g -> matrix_get m v v = Ok wzero.
Proof.
  unfold set_diagonal.
  apply (for_each_inv (fun done m =>
    mcomplete (vertices g) m /\
    (forall i j d, matrix_get m i j = Ok d -> d = winf \/ (i = j /\ d = wzero)) /\
    forall v, v ∈ done -> matrix_get m v v = Ok wzero)).
  - split; [| split].
    + intros i j Hi Hj. exists winf. by apply init_matrix_get.
    + intros i j d Hd. left. by eapply init_matrix_inf.
    + intros v Hv. by apply elem_of_nil in Hv.
  - intros done v m (Hc & Hent & Hdone) Hv.
    destruct (Hc v v Hv Hv) as [d Hd].
    destruct (matrix_set_Ok m v v wzero d Hd) as [m' Hset].
    exists m'. split; [done |]. split; [| split].
    + intros i j Hi Hj. rewrite (matrix_get_set _ _ _ _ _ _ _ Hset).
      case_decide; [eauto | by apply Hc].
    + intros i j d'. rewrite (matrix_get_set _ _ _ _ _ _ _ Hset).
      case_decide as Hij; [| apply Hent]. destruct Hij as [-> ->]. intros [= <-]. by right.
    + intros v' Hv'. rewrite (matrix_get_set _ _ _ _ _ _ _ Hset).
      case_decide; [done |]. apply elem_of_app in Hv' as [? | ->%list_elem_of_singleton]; [by apply Hdone |].
      exfalso. auto.
Qed.

Lemma edge_bound_mle m m' u v e : edge_bound m u v e -> mle m' m -> edge_bound m' u v e.
Proof.
  intros (d & Hd & Hle) Hm. destruct (Hm u v d Hd) as (d' & Hd' & Hle').
  exists d'. split; [done | by eapply wle_trans].
Qed.

Lemma load_row_spec m1 m source nbrs :
  mcomplete (vertices g) m1 -> mle m m1 -> msound g m ->
  (source, nbrs) ∈ adjacency_list g ->
  exists m', for_each nbrs (fun '(destination, weight) m =>
      d ← matrix_get m source destination;
      if wlt weight d then matrix_set m source destination weight else Ok m) m = Ok m' /\
    mle m' m /\ msound g m' /\
    forall v e, (v, e) ∈ nbrs -> edge_bound m' source v e.
Proof.
  intros Hc Hle Hs Hin.
  destruct (for_each_inv
    (fun done m' => mle m' m /\ msound g m' /\
       forall v e, (v, e) ∈ done -> edge_bound m' source v e)
    nbrs (fun '(destination, weight) m =>
      d ← matrix_get m source destination;
      if wlt weight d then matrix_set m source destination weight else Ok m) m)
    as (m' & Hm' & H1 & H2 & H3).
  - split; [apply mle_refl |]. split; [done |]. intros v e Hv. by apply elem_of_nil in Hv.
  - intros done [v e] m' (Hle' & Hs' & Hdone) Hv.
    assert (He : edge g source v e) by (by exists nbrs).
    assert (Hc' : mcomplete (vertices g) m').
    { eapply mcomplete_mle; [done |]. by eapply mle_trans. }
    destruct (Hc' source v) as [d Hd]; [by eapply wf_sources | by eapply wf_destinations |].
    rewrite Hd. cbn. destruct (wlt e d) eqn:Hlt.
    + destruct (matrix_set_Ok m' source v e d Hd) as [m'' Hset].
      assert (Hle'' : mle m'' m').
      { eapply matrix_set_lower; [done | by apply wlt_wle | done]. }
      exists m''. split; [done |]. split; [by eapply mle_trans |]. split.
      * intros a b d'. rewrite (matrix_get_set _ _ _ _ _ _ _ Hset).
        case_decide as Hab; [| apply Hs']. destruct Hab as [-> ->]. intros [= <-].
        right. by apply lwalk_edge.
      * intros v' e' [Hv' | [= -> ->]%list_elem_of_singleton]%elem_of_app.
        -- eapply edge_bound_mle; [by apply Hdone | done].
        -- exists e. rewrite (matrix_get_set _ _ _ _ _ _ _ Hset), decide_True by done.
           split; [done | apply wle_refl].
    + exists m'. split; [done |]. split; [done |]. split; [done |].
      intros v' e' [Hv' | [= -> ->]%list_elem_of_singleton]%elem_of_app; [by apply Hdone |].
      exists d. split; [done | exact Hlt].
  - eauto.
Qed.

Lemma load_edges_spec m1 :
  mcomplete (vertices g) m1 -> msound g m1 ->
  exists m', load_edges (adjacency_list g) m1 = Ok m' /\
    mle m' m1 /\ msound g m' /\ forall u v e, edge g u v e -> edge_bound m' u v e.
Proof.
  intros Hc Hs. unfold load_edges.
  destruct (for_each_inv
    (fun done m => mle m m1 /\ msound g m /\
       forall u nbrs v e, (u, nbrs) ∈ done -> (v, e) ∈ nbrs -> edge_bound m u v e)
    (adjacency_list g)
    (fun '(source, neighbors) m =>
       for_each neighbors (fun '(destination, weight) m =>
         d ← matrix_get m source destination;
         if wlt weight d then matrix_set m source destination weight else Ok m) m) m1)
    as (m' & Hm' & H1 & H2 & H3).
  - split; [apply mle_refl |]. split; [done |]. intros u nbrs v e Hu. by apply elem_of_nil in Hu.
  - intros done [source nbrs] m (Hle & Hs' & Hdone) Hin.
    destruct (load_row_spec m1 m source nbrs Hc Hle Hs' Hin) as (m' & Hm' & Hle' & Hs'' & Hb).
    exists m'. split; [done |]. split; [by eapply mle_trans |]. split; [done |].
    intros u nbrs' v e [Hu | [= -> ->]%list_elem_of_singleton]%elem_of_app Hv.
    + eapply edge_bound_mle; [by eapply Hdone | done].
    + by apply Hb.
  - exists m'. split; [done |]. split; [done |]. split; [done |].
    intros u v e (nbrs & Hin & Hv). by eapply H3.
Qed.

End FloydWarshall.

(** The table Floyd-Warshall returns holds, for every pair of vertices, the
    weight of a shortest walk. *)
Lemma floyd_warshall_shortest {Wt : Weight} {EW : ExactWeight Wt} (g : Graph) :
  wf_graph g -> nonneg_weights g ->
  exists m, floyd_warshall_precomputation g = Ok m /\
    forall i j, i ∈ vertices g -> j ∈ vertices g ->
      exists d, matrix_get m i j = Ok d /\ shortest g i j d.
Proof.
  intros Hwf Hnn. unfold floyd_warshall_precomputation.
  destruct (set_diagonal_spec g) as (m1 & Hm1 & Hc1 & Hent & Hdiag).
  rewrite Hm1. cbn.
  assert (Hs1 : msound g m1).
  { intros i j d Hd. destruct (Hent i j d Hd) as [-> | [-> ->]]; [by left | right; constructor]. }
  destruct (load_edges_spec g Hwf m1 Hc1 Hs1) as (m2 & Hm2 & Hle & Hs2 & Hb).
  rewrite Hm2. cbn.
  destruct (fw_core_spec g Hwf Hnn m2) as (m3 & Hm3 & Hinv).
  - split.
    + by eapply mcomplete_mle.
    + done.
    + intros i d Hi Hd. destruct (Hle i i wzero (Hdiag i Hi)) as (d' & Hd' & Hle').
      rewrite Hd in Hd'. by injection Hd' as <-.
    + intros i j d w Hd Hp. destruct Hp as [v e He | u v w e _ Hu _].
      * destruct (Hb i v e He) as (d' & Hd' & Hle'). rewrite Hd in Hd'. by injection Hd' as <-.
      * by apply elem_of_nil in Hu.
  - exists m3. split; [done |]. intros i j Hi Hj. by apply fw_inv_shortest.
Qed.

(** ** Graphs built by the code are well formed *)

Section GraphConstruction.
Context {Wt : Weight}.

Lemma set_add_elem (vs : list string) (x v : string) :
  v ∈ set_add vs x <-> v ∈ vs \/ v = x.
Proof.
  unfold set_add. case_decide as Hx.
  - split; [by left | intros [? | ->]; done].
  - rewrite elem_of_app, list_elem_of_singleton. done.
Qed.

Lemma set_add_NoDup (vs : list string) (x : string) : NoDup vs -> NoDup (set_add vs x).
Proof.
  intros Hnd. unfold set_add. case_decide as Hx; [done |].
  apply NoDup_app. split; [done |]. split; [| apply NoDup_singleton].
  intros v Hv ->%list_elem_of_singleton. done.
Qed.

Lemma adj_append_keys (adj : list (string * list (string * W))) s e :
  (adj_append adj s e).*1 = adj.*1.
Proof.
  induction adj as [|[a l] adj IH]; cbn; [done |].
  case_decide; cbn; [done | by rewrite IH].
Qed.

Lemma adj_append_elem (adj : list (string * list (string * W))) s e u nbrs' :
  (u, nbrs') ∈ adj_append adj s e ->
  exists nbrs, (u, nbrs) ∈ adj /\ (nbrs' = nbrs \/ (u = s /\ nbrs' = nbrs ++ [e])).
Proof.
  induction adj as [|[a l] adj IH]; cbn; [by intros ?%elem_of_nil |].
  case_decide as Ha.
  - intros [[= -> ->] | Hin]%elem_of_cons.
    + exists l. split; [by left | right; done].
    + exists nbrs'. split; [by right | by left].
  - intros [[= -> ->] | Hin]%elem_of_cons.
    + exists l. split; [by left | by left].
    + destruct (IH Hin) as (nbrs & Hn & Hor). exists nbrs. split; [by right | done].
Qed.

Lemma adj_lookup_None_keys (adj : list (string * list (string * W))) s :
  adj_lookup adj s = None -> s ∉ adj.*1.
Proof.
  intros H [[a l] [-> Hin]]%list_elem_of_fmap. by eapply adj_lookup_None.
Qed.

Lemma wf_empty_graph : wf_graph empty_graph.
Proof.
  split; cbn.
  - apply NoDup_nil_2.
  - apply NoDup_nil_2.
  - intros u nbrs Hin. by apply elem_of_nil in Hin.
  - intros u v e (nbrs & Hin & _). by apply elem_of_nil in Hin.
Qed.

Lemma wf_add_edge (g : Graph) (source destination : string) (weight : W) :
  wf_graph g -> wf_graph (add_edge g source destination weight).
Proof.
  intros [Hv Hk Hs Hd].
  set (adj := match adj_lookup (adjacency_list g) source with
              | None => adjacency_list g ++ [(source, [])]
              | Some _ => adjacency_list g
              end).
  assert (Hadj : forall u nbrs, (u, nbrs) ∈ adj ->
            (u, nbrs) ∈ adjacency_list g \/ (u = source /\ nbrs = [])).
  { subst adj. intros u nbrs. destruct (adj_lookup _ _); [by left |].
    intros [? | [= -> ->]%list_elem_of_singleton]%elem_of_app; [by left | by right]. }
  split; cbn; fold adj.
  - by do 2 apply set_add_NoDup.
  - rewrite adj_append_keys. subst adj.
    destruct (adj_lookup (adjacency_list g) source) eqn:E; [done |].
    rewrite fmap_app. apply NoDup_app. split; [done |]. split; [| apply NoDup_singleton].
    intros x Hx ->%list_elem_of_singleton. by apply (adj_lookup_None_keys _ _ E).
  - intros u nbrs' (nbrs & Hin & _)%adj_append_elem.
    rewrite !set_add_elem. destruct (Hadj u nbrs Hin) as [? | [-> _]]; [| by left; right].
    left. left. by eapply Hs.
  - intros u v e (nbrs' & (nbrs & Hin & Hor)%adj_append_elem & Hve).
    rewrite !set_add_elem.
    assert (Hold : (v, e) ∈ nbrs -> v ∈ vertices g).
    { intros Hv'. destruct (Hadj u nbrs Hin) as [? | [_ ->]]; [| by apply elem_of_nil in Hv'].
      apply (Hd u v e). by exists nbrs. }
    destruct Hor as [-> | [-> ->]]; [left; left; by apply Hold |].
    apply elem_of_app in Hve as [? | [= -> ->]%list_elem_of_singleton]; [| by right].
    left; left; by apply Hold.
Qed.

Lemma wf_graphb_ok (g : Graph) : wf_graphb g = true -> wf_graph g.
Proof.
  unfold wf_graphb. rewrite !andb_true_iff, !bool_decide_eq_true, forallb_forall.
  intros [[Hv Hk] Hall]. split; [done | done | |].
  - intros u nbrs Hin%list_elem_of_In. apply Hall in Hin.
    by apply andb_true_iff in Hin as [Hu%bool_decide_eq_true _].
  - intros u v e (nbrs & Hin%list_elem_of_In & Hve%list_elem_of_In). apply Hall in Hin.
    apply andb_true_iff in Hin as [_ Hn]. rewrite forallb_forall in Hn.
    apply Hn in Hve. by apply bool_decide_eq_true in Hve.
Qed.

Lemma edges_allb_ok (P : W -> bool) (g : Graph) :
  edges_allb P g = true -> forall u v e, edge g u v e -> P e = true.
Proof.
  unfold edges_allb. rewrite forallb_forall.
  intros Hall u v e (nbrs & Hin%list_elem_of_In & Hve%list_elem_of_In).
  apply Hall in Hin. rewrite forallb_forall in Hin. by apply Hin in Hve.
Qed.

Lemma nonneg_weightsb_ok (g : Graph) :
  edges_allb (fun e => negb (wlt e wzero)) g = true -> nonneg_weights g.
Proof.
  intros H u v e He. apply (edges_allb_ok _ _ H) in He. by apply negb_true_iff in He.
Qed.


End GraphConstruction.

(** ** Dijkstra never raises *)

Section DijkstraSafety.
Context {Wt : Weight}.
Variable g : Graph.
Hypothesis Hwf : wf_graph g.

Lemma relax_keys_ok u nbrs : forall pq dist,
  keys_ok g pq dist -> is_Some (dist !! u) ->
  (forall x e, (x, e) ∈ nbrs -> x ∈ vertices g) ->
  exists pq' dist', relax_neighbors u nbrs pq dist = Ok (pq', dist') /\ keys_ok g pq' dist'.
Proof.
  induction nbrs as [|[x e] rest IH]; intros pq dist Hk [du Hdu] Hn; cbn; [eauto |].
  destruct Hk as [Hv Hq].
  destruct (Hv x) as [dx Hdx]; [apply (Hn x e); by left |].
  rewrite (dict_get_Some _ _ _ Hdu). cbn. rewrite (dict_get_Some _ _ _ Hdx). cbn.
  assert (Hrest : forall y c, (y, c) ∈ rest -> y ∈ vertices g).
  { intros y c Hin. apply (Hn y c). by right. }
  destruct (wlt (wadd du e) dx).
  - apply IH; [| | done].
    + split.
      * intros v Hin. rewrite lookup_insert. case_decide; eauto.
      * intros c v [[= -> ->] | Hin]%elem_of_cons; rewrite lookup_insert; case_decide; eauto.
    + rewrite lookup_insert. case_decide; eauto.
  - apply IH; [done | eauto | done].
Qed.

Lemma dijkstra_loop_no_KeyError end_node : forall fuel pq dist,
  keys_ok g pq dist -> dijkstra_loop fuel g end_node pq dist <> KeyError.
Proof.
  induction fuel as [|fuel IH]; intros pq dist Hk; cbn; [done |].
  destruct (heappop entry_lt pq) as [[[c u] pq'] |] eqn:Hpop; [| done].
  apply heappop_Some in Hpop as Hperm.
  assert (Hk' : keys_ok g pq' dist).
  { destruct Hk as [Hv Hq]. split; [done |]. intros c' v Hin. apply (Hq c').
    rewrite Hperm. by right. }
  destruct (proj2 Hk c u) as [d Hd]; [rewrite Hperm; by left |].
  rewrite (dict_get_Some _ _ _ Hd). cbn.
  destruct (wlt d c); [by apply IH |].
  case_decide as Hu; [subst; by rewrite (dict_get_Some _ _ _ Hd) |].
  destruct (adj_lookup (adjacency_list g) u) as [nbrs |] eqn:Hadj; [| by apply IH].
  destruct (relax_keys_ok u nbrs pq' dist Hk') as (pq'' & dist'' & Hr & Hk''); [eauto | |].
  - intros x e Hin. eapply wf_destinations; [done |]. by eapply lookup_edge.
  - rewrite Hr. cbn. by apply IH.
Qed.

Lemma dijkstra_no_KeyError (s t : string) (fuel : nat) :
  dijkstra_shortest_path fuel g s t <> KeyError.
Proof.
  apply dijkstra_loop_no_KeyError. split.
  - intros v Hv. rewrite lookup_insert. case_decide; [eauto |].
    rewrite dict_fromkeys_lookup, decide_True by done. eauto.
  - intros c v [= -> ->]%list_elem_of_singleton. rewrite lookup_insert_eq. eauto.
Qed.

End DijkstraSafety.

(** The first pop already returns when the start is the end: no edge is
    looked at. *)
Lemma dijkstra_same_node {Wt : Weight} (g : Graph) (v : string) (fuel : nat) :
  wlt wzero wzero = false ->
  dijkstra_shortest_path (S fuel) g v v = Ok wzero.
Proof.
  intros H0. unfold dijkstra_shortest_path.
  cbn [dijkstra_loop heappop extract_min].
  assert (Hd : dict_get (<[v := wzero]> (dict_fromkeys (vertices g) winf)) v = Ok wzero).
  { apply dict_get_Some, lookup_insert_eq. }
  rewrite Hd. cbn [mbind result_mbind result_bind]. rewrite H0.
  by rewrite decide_True.
Qed.

(** ** Lowering edge weights *)

Section Monotone.
Context {Wt : Weight} {OW : OrderedWeight Wt}.





















End Monotone.

(** ** Floyd-Warshall on two graphs that differ in their weights *)

Section TableMonotone.
Context {Wt : Weight} {OW : OrderedWeight Wt}.
Implicit Types m : gmap string (gmap string W).












End TableMonotone.

(** ** The examples of the specification *)

(** A->B (4), B->C (1), A->C (10): the distance from A to C is 5 with both
    strategies. *)
Example spec_distance_A_C :
  dijkstra_shortest_path 5 spec_graph "A" "C" = Ok (Fin 5) /\
  floyd_warshall_precomputation spec_graph ≫= (fun table => matrix_get table "A" "C")
    = Ok (Fin 5).
Proof. split; vm_compute; reflexivity. Qed.

(** Fleet V1 at A and V2 at C, one call at B: V1 is dispatched, at distance
    4; V2 has no route to B. *)
Example spec_dispatch_V1 :
  dijkstra_shortest_path 5 spec_graph "C" "B" = Ok Inf /\
  exists st,
    run_simulation_p1 (Wt := int_weight) 5 id spec_graph spec_priorities spec_fleet
      [call_at_B] = Ok st /\
    dispatch_log st = [@Build_DispatchRecord int_weight 1 "Cardiac" "B" "V1" (Fin 4)] /\
    console st = [].
Proof.
  split; [vm_compute; reflexivity |].
  eexists. split; [vm_compute; reflexivity |]. by vm_compute.
Qed.

(** ** Binary64 arithmetic *)

#[local] Set Warnings "-inexact-float".

(** Binary64 addition rounds: it does not associate. *)
Lemma float_weight_not_exact : ~ ExactWeight float_weight.
Proof.
  intros H. pose proof (wadd_assoc (Wt := float_weight) 0.1 0.2 0.3)%float as E.
  apply (f_equal (fun x => PrimFloat.eqb x (PrimFloat.add 0.1 (PrimFloat.add 0.2 0.3))%float)) in E.
  vm_compute in E. discriminate E.
Qed.

(** Binary64 addition overflows. *)
Lemma float_weight_overflows : ~ FiniteSums float_weight.
Proof.
  intros H.
  pose proof (wadd_finite (Wt := float_weight) 1e308 1e308 eq_refl eq_refl)%float as E.
  vm_compute in E. discriminate E.
Qed.

#[local] Set Warnings "inexact-float".

(** * The routing claims *)

(** ** C1: the two strategies *)

(** With binary64 weights the strategies differ on one of the pairs (A, D)
    and (D, A) of [rounding_graph], whatever the iteration order of the
    vertex set: Dijkstra adds the weights from the start, Floyd-Warshall in
    the order the intermediate vertices are processed, and binary64 addition
    is not associative. *)
Lemma float_strategies_disagree :
  forallb (fun vs => strategies_disagree (Wt := float_weight) 10 (rounding_graph vs) "A" "D"
                     || strategies_disagree (Wt := float_weight) 10 (rounding_graph vs) "D" "A")
          (permutations ["A"; "B"; "C"; "D"]) = true.
Proof. vm_compute. reflexivity. Qed.

(** C1 (amended): when sums of weights are exact, for every graph with
    non-negative weights and every pair of its vertices, Dijkstra returns the
    entry [table[u][v]] of the Floyd-Warshall table, [winf] when [v] cannot be
    reached from [u]. *)
Theorem dijkstra_agrees_with_floyd_warshall {Wt : Weight} {EW : ExactWeight Wt}
    (g : Graph) (u v : string) (fuel : nat) :
  wf_graph g -> nonneg_weights g -> u ∈ vertices g -> v ∈ vertices g ->
  edge_count g + 2 <= fuel ->
  exists table d,
    floyd_warshall_precomputation g = Ok table /\
    matrix_get table u v = Ok d /\
    dijkstra_shortest_path fuel g u v = Ok d /\
    (~ reachable g u v -> d = winf).
Proof.
  intros Hwf Hnn Hu Hv Hfuel.
  destruct (floyd_warshall_shortest g Hwf Hnn) as (table & Hfw & Htab).
  destruct (Htab u v Hu Hv) as (d & Hget & Hsh).
  destruct (dijkstra_shortest g u v fuel Hwf Hnn Hfuel) as (r & Hdij & Hsh').
  exists table, d. split; [done |]. split; [done |]. split.
  - rewrite Hdij. f_equal. by eapply shortest_unique.
  - intros Hnr. destruct Hsh as [[-> | Hw] _]; [done |].
    exfalso. apply Hnr. by eapply lwalk_reachable.
Qed.

Lemma dijkstra_agrees_with_floyd_warshall_witness :
  exists table d,
    floyd_warshall_precomputation spec_graph = Ok table /\
    matrix_get table "A" "C" = Ok d /\
    dijkstra_shortest_path 5 spec_graph "A" "C" = Ok d /\
    (~ reachable spec_graph "A" "C" -> d = winf).
Proof.
  apply (dijkstra_agrees_with_floyd_warshall (Wt := int_weight) (EW := int_weight_exact)).
  - apply wf_graphb_ok. reflexivity.
  - apply nonneg_weightsb_ok. reflexivity.
  - vm_compute. apply list_elem_of_In. simpl. tauto.
  - vm_compute. apply list_elem_of_In. simpl. tauto.
  - vm_compute. lia.
Defined.

(** ** C5: the triangle inequality of the table *)

(** With binary64 weights the table of [rounding_graph] breaks the triangle
    inequality at (A, B, D) or at (D, C, A), whatever the iteration order. *)
Lemma float_triangle_violated :
  forallb (fun vs => triangle_violated (Wt := float_weight) (rounding_graph vs) "A" "B" "D"
                     || triangle_violated (Wt := float_weight) (rounding_graph vs) "D" "C" "A")
          (permutations ["A"; "B"; "C"; "D"]) = true.
Proof. vm_compute. reflexivity. Qed.

(** C5 (amended): when sums of weights are exact, for every graph with
    non-negative weights the table Floyd-Warshall returns satisfies
    [table[i][j] <= table[i][k] + table[k][j]] for all vertices i, j, k. *)
Theorem floyd_warshall_triangle {Wt : Weight} {EW : ExactWeight Wt} (g : Graph) :
  wf_graph g -> nonneg_weights g ->
  exists table, floyd_warshall_precomputation g = Ok table /\
    forall i j k, i ∈ vertices g -> j ∈ vertices g -> k ∈ vertices g ->
      exists dij dik dkj,
        matrix_get table i j = Ok dij /\ matrix_get table i k = Ok dik /\
        matrix_get table k j = Ok dkj /\ wle dij (wadd dik dkj).
Proof.
  intros Hwf Hnn.
  destruct (floyd_warshall_shortest g Hwf Hnn) as (table & Hfw & Htab).
  exists table. split; [done |]. intros i j k Hi Hj Hk.
  destruct (Htab i j Hi Hj) as (dij & Hij & [_ Hopt]).
  destruct (Htab i k Hi Hk) as (dik & Hik & [Sik _]).
  destruct (Htab k j Hk Hj) as (dkj & Hkj & [Skj _]).
  exists dij, dik, dkj. do 3 (split; [done |]).
  assert (Hnn_ik : wle wzero dik).
  { destruct Sik as [-> | Hw]; [apply winf_top | by eapply lwalk_nonneg]. }
  assert (Hnn_kj : wle wzero dkj).
  { destruct Skj as [-> | Hw]; [apply winf_top | by eapply lwalk_nonneg]. }
  destruct Sik as [-> | Hw1]; [rewrite wadd_inf_l by done; apply winf_top |].
  destruct Skj as [-> | Hw2]; [rewrite wadd_inf_r by done; apply winf_top |].
  apply Hopt. by eapply lwalk_app.
Qed.

Lemma floyd_warshall_triangle_witness :
  exists table, floyd_warshall_precomputation spec_graph = Ok table /\
    forall i j k, i ∈ vertices spec_graph -> j ∈ vertices spec_graph ->
      k ∈ vertices spec_graph ->
      exists dij dik dkj,
        matrix_get table i j = Ok dij /\ matrix_get table i k = Ok dik /\
        matrix_get table k j = Ok dkj /\ wle dij (wadd dik dkj).
Proof.
  apply (floyd_warshall_triangle (Wt := int_weight) (EW := int_weight_exact)).
  - apply wf_graphb_ok. reflexivity.
  - apply nonneg_weightsb_ok. reflexivity.
Defined.

(** ** C6: termination and the unreachable case *)




(** ** C7: the distance from a vertex to itself *)

(** C7: for every vertex [v] of a graph whose self-loops at [v] have
    non-negative weight, Dijkstra from [v] to [v] returns [0] (at its first
    iteration; [0 < 0] is false for the numbers used). *)
Theorem dijkstra_vertex_to_itself {Wt : Weight} (g : Graph) (v : string) (fuel : nat) :
  wlt wzero wzero = false ->
  v ∈ vertices g ->
  (forall e, edge g v v e -> wle wzero e) ->
  dijkstra_shortest_path (S fuel) g v v = Ok wzero.
Proof. intros H0 _ _. by apply dijkstra_same_node. Qed.

Lemma dijkstra_vertex_to_itself_witness :
  dijkstra_shortest_path (Wt := float_weight) 1 self_loop_graph "A" "A" = Ok 0%float.
Proof.
  apply (dijkstra_vertex_to_itself (Wt := float_weight) self_loop_graph "A" 0).
  - reflexivity.
  - vm_compute. apply list_elem_of_In. simpl. tauto.
  - intros e He.
    apply (nonneg_weightsb_ok (Wt := float_weight) self_loop_graph eq_refl "A" "A" e He).
Defined.

(** ** C8: lowering the weight of an edge *)

#[local] Set Warnings "-inexact-float".


#[local] Set Warnings "inexact-float".



(** ** C10: arbitrary location tokens *)





(** * The dispatch loop *)

(** ** The call queue is drained in (priority, id) order *)

Lemma call_lt_true (a b : Z * Z * CallRow) : call_lt a b = true -> call_key_le a b.
Proof.
  unfold call_lt, call_key_le. destruct (Z.eqb_spec a.1.1 b.1.1).
  - intros ?%Z.ltb_lt. right. lia.
  - intros ?%Z.ltb_lt. by left.
Qed.

Lemma call_lt_false (a b : Z * Z * CallRow) : call_lt a b = false -> call_key_le b a.
Proof.
  unfold call_lt, call_key_le. destruct (Z.eqb_spec a.1.1 b.1.1).
  - intros ?%Z.ltb_ge. right. lia.
  - intros ?%Z.ltb_ge. left. lia.
Qed.

#[global] Instance call_key_le_refl : Reflexive call_key_le.
Proof. intros a. unfold call_key_le. right. lia. Qed.

#[global] Instance call_key_le_trans : Transitive call_key_le.
Proof. intros a b c. unfold call_key_le. lia. Qed.

#[global] Instance call_key_le_total : Total call_key_le.
Proof. intros a b. unfold call_key_le. lia. Qed.

Lemma heappop_call_least q x q' :
  heappop call_lt q = Some (x, q') -> forall y, y ∈ q -> call_key_le x y.
Proof.
  destruct q as [|a l]; cbn; [done |]. intros [= H] y Hy.
  exact (extract_min_least call_lt id call_key_le call_key_le_refl call_key_le_trans
           call_lt_true call_lt_false l a x q' H y Hy).
Qed.

Lemma pop_all_spec : forall n q, length q <= n ->
  pop_all n q ≡ₚ q /\ StronglySorted call_key_le (pop_all n q).
Proof.
  induction n as [|n IH]; intros q Hlen.
  - destruct q; [| cbn in Hlen; lia]. split; [done | constructor].
  - cbn. destruct (heappop call_lt q) as [[x q'] |] eqn:Hpop.
    + pose proof (heappop_Some _ _ _ _ Hpop) as Hperm.
      destruct (IH q') as [Hp Hs].
      { apply Permutation_length in Hperm. cbn in Hperm. lia. }
      split; [by rewrite Hp, Hperm |]. constructor; [done |].
      apply Forall_forall. intros y Hy. apply (heappop_call_least _ _ _ Hpop).
      rewrite Hperm. right. by rewrite <- Hp.
    + apply heappop_None in Hpop. subst q. split; [done | constructor].
Qed.

Lemma dequeue_order_perm q : dequeue_order q ≡ₚ q.
Proof. by apply pop_all_spec. Qed.

Lemma dequeue_order_sorted q : StronglySorted call_key_le (dequeue_order q).
Proof. by apply pop_all_spec. Qed.

Lemma prepare_call_queue_perm prios rows :
  prepare_call_queue prios rows ≡ₚ queue_entry prios <$> rows.
Proof.
  unfold prepare_call_queue.
  assert (G : forall q, foldl (fun q row => heappush q
               (priority_of prios (row_call_type row), row_call_id row, row)) q rows
             ≡ₚ (queue_entry prios <$> rows) ++ q).
  { induction rows as [|r rows IH]; intros q; cbn; [done |].
    rewrite IH. unfold heappush. by rewrite Permutation_middle. }
  by rewrite G, app_nil_r.
Qed.

Lemma NoDup_fmap_eq {A B : Type} (f : A -> B) (l : list A) (x y : A) :
  NoDup (f <$> l) -> x ∈ l -> y ∈ l -> f x = f y -> x = y.
Proof.
  induction l as [|a l IH]; cbn; [by intros _ ?%elem_of_nil |].
  intros [Ha Hnd]%NoDup_cons [-> | Hx]%elem_of_cons [-> | Hy]%elem_of_cons Hf; auto.
  - exfalso. apply Ha. rewrite Hf. by apply list_elem_of_fmap_2.
  - exfalso. apply Ha. rewrite <- Hf. by apply list_elem_of_fmap_2.
Qed.

(** Calls with distinct ids leave the queue in the order the specification
    asks for, however they were pushed. *)
Lemma dequeue_order_spec prios rows rows' :
  NoDup (row_call_id <$> rows) -> rows' ≡ₚ rows ->
  dequeue_order (prepare_call_queue prios rows') = spec_dispatch_order prios rows.
Proof.
  intros Hnd Hperm.
  assert (Hp1 : dequeue_order (prepare_call_queue prios rows') ≡ₚ queue_entry prios <$> rows).
  { by rewrite dequeue_order_perm, prepare_call_queue_perm, Hperm. }
  assert (Hp2 : spec_dispatch_order prios rows ≡ₚ queue_entry prios <$> rows).
  { apply merge_sort_Permutation. }
  apply (StronglySorted_unique_strong call_key_le).
  - intros x1 x2 Hx1 Hx2 H12 H21.
    rewrite Hp1 in Hx1. rewrite Hp2 in Hx2.
    apply list_elem_of_fmap in Hx1 as (r1 & -> & Hr1).
    apply list_elem_of_fmap in Hx2 as (r2 & -> & Hr2).
    f_equal. apply (NoDup_fmap_eq row_call_id rows); [done.. |].
    unfold call_key_le, queue_entry in *. cbn in *. lia.
  - apply dequeue_order_sorted.
  - apply StronglySorted_merge_sort; apply _.
  - by rewrite Hp1, Hp2.
Qed.

(** ** The loop serves the dequeued calls one after the other *)

Section Serving.
Context {Wt : Weight}.
Variable query : string -> string -> result W.
Variable round2 : W -> W.

Lemma dispatch_call_set_queue call_id row q st :
  dispatch_call query round2 call_id row (set_queue q st)
  = st' ← dispatch_call query round2 call_id row st; Ok (set_queue q st').
Proof.
  unfold dispatch_call. cbn.
  destruct (find_best query (available_ambulances st) (row_location row) None winf
              (timed_queries st)) as [[[best t] timed] | |]; cbn; [| done..].
  by destruct best as [id |]; [destruct (str_truthy id) |].
Qed.

Lemma serve_calls_set_queue calls : forall q st,
  serve_calls query round2 calls (set_queue q st)
  = st' ← serve_calls query round2 calls st; Ok (set_queue q st').
Proof.
  induction calls as [|[[p id] row] calls IH]; intros q st; cbn [serve_calls]; [done |].
  rewrite dispatch_call_set_queue.
  destruct (dispatch_call query round2 id row st) as [st1 | |];
    cbn [mbind result_mbind result_bind]; [| done..].
  apply IH.
Qed.

Lemma set_queue_id st : set_queue (call_queue st) st = st.
Proof. by destruct st. Qed.

Lemma dispatch_loop_S fuel st :
  dispatch_loop query round2 (S fuel) st
  = match heappop call_lt (call_queue st) with
    | None => Ok st
    | Some ((priority, call_id, call_details), q') =>
        st' ← dispatch_call query round2 call_id call_details (set_queue q' st);
        dispatch_loop query round2 fuel st'
    end.
Proof. done. Qed.

Lemma dispatch_loop_serve : forall n st, length (call_queue st) <= n ->
  dispatch_loop query round2 (S n) st
  = st' ← serve_calls query round2 (pop_all n (call_queue st)) st; Ok (set_queue [] st').
Proof.
  induction n as [|n IH]; intros st Hlen.
  - destruct (call_queue st) eqn:Hq; [| cbn in Hlen; lia].
    cbn. rewrite Hq. cbn. by rewrite <- Hq, set_queue_id.
  - rewrite dispatch_loop_S. cbn [pop_all].
    destruct (heappop call_lt (call_queue st)) as [[[[p id] row] q'] |] eqn:Hpop.
    + pose proof (heappop_Some _ _ _ _ Hpop) as Hperm.
      apply Permutation_length in Hperm. cbn in Hperm.
      cbn [serve_calls]. rewrite dispatch_call_set_queue.
      destruct (dispatch_call query round2 id row st) as [st1 | |];
        cbn [mbind result_mbind result_bind]; [| done..].
      rewrite (IH (set_queue q' st1)) by (cbn; lia). cbn [set_queue call_queue].
      rewrite serve_calls_set_queue.
      by destruct (serve_calls query round2 (pop_all n q') st1).
    + apply heappop_None in Hpop. cbn. by rewrite <- Hpop, set_queue_id.
Qed.

(** The loop body writes neither the queue nor the fleet. *)
Lemma dispatch_call_frame call_id row st st' :
  dispatch_call query round2 call_id row st = Ok st' ->
  call_queue st' = call_queue st /\ available_ambulances st' = available_ambulances st.
Proof.
  unfold dispatch_call.
  intros ([[best t] timed] & _ & H)%bind_Ok.
  destruct best as [id |]; [destruct (str_truthy id) |]; by injection H as <-.
Qed.

Lemma serve_calls_frame calls : forall st st',
  serve_calls query round2 calls st = Ok st' ->
  call_queue st' = call_queue st /\ available_ambulances st' = available_ambulances st.
Proof.
  induction calls as [|[[p id] row] calls IH]; intros st st'; cbn [serve_calls].
  - by intros [= <-].
  - intros (st1 & H1 & H2)%bind_Ok. apply dispatch_call_frame in H1 as [Hq Ha].
    apply IH in H2 as [Hq' Ha']. split; congruence.
Qed.

(** [process_calls] is the loop body applied to the calls in dequeue order. *)
Lemma process_calls_serve q fleet :
  process_calls query round2 q fleet
  = serve_calls query round2 (dequeue_order q) (initial_state [] fleet).
Proof.
  unfold process_calls. rewrite dispatch_loop_serve by done. cbn [initial_state call_queue].
  change (initial_state q fleet) with (set_queue q (initial_state [] fleet)).
  rewrite serve_calls_set_queue. unfold dequeue_order.
  destruct (serve_calls query round2 (pop_all (length q) q) (initial_state [] fleet))
    as [st | |] eqn:E; cbn; [| done..].
  f_equal. apply serve_calls_frame in E as [Hq _]. cbn in Hq.
  destruct st. cbn in *. by subst.
Qed.

End Serving.

(** ** The scan of the fleet *)

Section Scan.
Context {Wt : Weight}.
Variable query : string -> string -> result W.
Variable round2 : W -> W.

Lemma find_best_timed fleet loc : forall best t timed best' t' timed',
  find_best query fleet loc best t timed = Ok (best', t', timed') ->
  timed' = timed ++ scan_queries fleet loc.
Proof.
  induction fleet as [|[id l] fleet IH]; intros best t timed best' t' timed'; cbn.
  - intros [= _ _ <-]. by rewrite app_nil_r.
  - intros (d & _ & H)%bind_Ok. destruct (wlt d t); apply IH in H; by rewrite H, <- app_assoc.
Qed.

Lemma find_best_total fleet loc :
  (forall a c, exists d, query a c = Ok d) ->
  forall best t timed, exists r, find_best query fleet loc best t timed = Ok r.
Proof.
  intros Hq. induction fleet as [|[id l] fleet IH]; intros best t timed; cbn; [eauto |].
  destruct (Hq l loc) as [d ->]. cbn. destruct (wlt d t); apply IH.
Qed.


Context {OW : OrderedWeight Wt}.




End Scan.

(** ** One call *)

Section OneCall.
Context {Wt : Weight}.
Variable query : string -> string -> result W.
Variable round2 : W -> W.

(** What [dispatch_call] does to the log. *)
Lemma dispatch_call_log call_id row st st' :
  dispatch_call query round2 call_id row st = Ok st' ->
  exists best t timed,
    find_best query (available_ambulances st) (row_location row) None winf
      (timed_queries st) = Ok (best, t, timed) /\
    timed_queries st' = timed /\
    ((exists id, best = Some id /\ str_truthy id = true /\
        dispatch_log st' = dispatch_log st ++
          [{| log_call_id := call_id; log_call_type := row_call_type row;
              log_call_location := row_location row;
              log_selected_ambulance := id; log_time_to_call := round2 t |}] /\
        console st' = console st) \/
     ((best = None \/ exists id, best = Some id /\ str_truthy id = false) /\
        dispatch_log st' = dispatch_log st /\
        console st' = console st ++ [(call_id, row_location row)])).
Proof.
  unfold dispatch_call. intros ([[best t] timed] & Hfb & H)%bind_Ok.
  exists best, t, timed. split; [done |].
  destruct best as [id |]; [destruct (str_truthy id) eqn:Hid |]; injection H as <-; cbn.
  - split; [done |]. left. eauto.
  - split; [done |]. right. split; [right; eauto | done].
  - split; [done |]. right. split; [by left | done].
Qed.


End OneCall.

(** ** C2: unservable calls *)

(** C2 (the code, at the failing inputs): the vehicle named by the empty
    string is one edge of weight 4 away from the call at B, and the call is
    reported as having no route, in both prototypes; and in prototype 2 a call
    at a location that is not in the graph ends the run with [KeyError],
    where prototype 1 reports it and goes on to dispatch the next call. *)
Theorem unservable_call_failing_inputs :
  (exists st,
     run_simulation_p1 (Wt := int_weight) 5 id spec_graph spec_priorities
       unnamed_fleet [call_at_B] = Ok st /\
     dijkstra_shortest_path 5 spec_graph "A" "B" = Ok (Fin 4) /\
     dispatch_log st = [] /\ console st = [(1%Z, "B")]) /\
  (exists st,
     run_simulation_p2 (Wt := int_weight) id spec_graph spec_priorities
       unnamed_fleet [call_at_B] = Ok st /\
     dispatch_log st = [] /\ console st = [(1%Z, "B")]) /\
  run_simulation_p2 (Wt := int_weight) id spec_graph spec_priorities
    spec_fleet calls_Z_then_B = KeyError /\
  (exists st,
     run_simulation_p1 (Wt := int_weight) 5 id spec_graph spec_priorities
       spec_fleet calls_Z_then_B = Ok st /\
     console st = [(0%Z, "Z")] /\
     log_call_id <$> dispatch_log st = [1%Z]).
Proof.
  split; [| split; [| split]].
  - eexists. split; [vm_compute; reflexivity |]. by vm_compute.
  - eexists. split; [vm_compute; reflexivity |]. by vm_compute.
  - vm_compute. reflexivity.
  - eexists. split; [vm_compute; reflexivity |]. by vm_compute.
Qed.

(** ** C3: the order in which calls are processed *)

(** C3: calls with pairwise distinct ids, pushed in any order, are dequeued
    and processed in the order of (priority, id): the queue is drained in that
    order, and the loop is its body applied to the calls in that order. *)
Theorem dispatch_order_is_sorted {Wt : Weight}
    (query : string -> string -> result W) (round2 : W -> W)
    (call_priorities : gmap string Z) (rows rows' : list CallRow)
    (fleet : list (string * string)) :
  NoDup (row_call_id <$> rows) -> rows' ≡ₚ rows ->
  dequeue_order (prepare_call_queue call_priorities rows')
    = spec_dispatch_order call_priorities rows /\
  process_calls query round2 (prepare_call_queue call_priorities rows') fleet
    = serve_calls query round2 (spec_dispatch_order call_priorities rows)
        (initial_state [] fleet) /\
  StronglySorted call_key_le (spec_dispatch_order call_priorities rows) /\
  spec_dispatch_order call_priorities rows ≡ₚ queue_entry call_priorities <$> rows.
Proof.
  intros Hnd Hperm.
  pose proof (dequeue_order_spec call_priorities rows rows' Hnd Hperm) as Heq.
  split; [done |]. split; [by rewrite process_calls_serve, Heq |].
  split; [rewrite <- Heq; apply dequeue_order_sorted | apply merge_sort_Permutation].
Qed.

Lemma dispatch_order_is_sorted_witness :
  dequeue_order (prepare_call_queue spec_priorities (reverse calls_7_3))
    = spec_dispatch_order spec_priorities calls_7_3 /\
  process_calls (dijkstra_shortest_path (Wt := int_weight) 5 spec_graph) id
      (prepare_call_queue spec_priorities (reverse calls_7_3)) spec_fleet
    = serve_calls (dijkstra_shortest_path (Wt := int_weight) 5 spec_graph) id
        (spec_dispatch_order spec_priorities calls_7_3) (initial_state [] spec_fleet) /\
  StronglySorted call_key_le (spec_dispatch_order spec_priorities calls_7_3) /\
  spec_dispatch_order spec_priorities calls_7_3 ≡ₚ queue_entry spec_priorities <$> calls_7_3.
Proof.
  apply (dispatch_order_is_sorted (Wt := int_weight)).
  - apply (bool_decide_unpack _). vm_compute. exact I.
  - apply Permutation_swap.
Defined.

(** ** C4: the selected vehicle *)

Section Run.
Context {Wt : Weight}.
Variable query : string -> string -> result W.
Variable round2 : W -> W.

(** A property of the records that holds for every record the loop body
    appends holds for the records of the whole run. *)
Lemma serve_calls_log (P : DispatchRecord -> Prop) (fleet : list (string * string)) calls :
  (forall call_id row st st' rec,
     available_ambulances st = fleet ->
     dispatch_call query round2 call_id row st = Ok st' ->
     dispatch_log st' = dispatch_log st ++ [rec] -> P rec) ->
  forall st st', available_ambulances st = fleet ->
    serve_calls query round2 calls st = Ok st' ->
    Forall P (dispatch_log st) -> Forall P (dispatch_log st').
Proof.
  intros Hstep. induction calls as [|[[p id] row] calls IH]; intros st st' Hfleet; cbn [serve_calls].
  - by intros [= <-].
  - intros (st1 & H1 & H2)%bind_Ok Hall.
    pose proof (dispatch_call_frame _ _ _ _ _ _ H1) as [_ Hf].
    apply (IH st1 st'); [congruence | done |].
    destruct (dispatch_call_log _ _ _ _ _ _ H1)
      as (best & t & timed & _ & _ & [(vid & _ & _ & Hlog & _) | (_ & Hlog & _)]).
    + rewrite Hlog. apply Forall_app. split; [done |]. apply Forall_singleton.
      by eapply Hstep.
    + by rewrite Hlog.
Qed.

End Run.



(** ** C9: the fleet *)

(** The timed queries of a run: one scan of the whole fleet per call. *)
Lemma serve_calls_timed {Wt : Weight} (query : string -> string -> result W)
    (round2 : W -> W) (fleet : list (string * string)) calls : forall st st',
  available_ambulances st = fleet ->
  serve_calls query round2 calls st = Ok st' ->
  timed_queries st' = timed_queries st ++
    flat_map (fun c : Z * Z * CallRow => scan_queries fleet (row_location c.2)) calls.
Proof.
  induction calls as [|[[p id] row] calls IH]; intros st st' Hfleet; cbn [serve_calls flat_map].
  - intros [= <-]. by rewrite app_nil_r.
  - intros (st1 & H1 & H2)%bind_Ok.
    pose proof (dispatch_call_frame _ _ _ _ _ _ H1) as [_ Hf].
    rewrite (IH st1 st') by congruence.
    destruct (dispatch_call_log _ _ _ _ _ _ H1) as (best & t & timed & Hfb & -> & _).
    apply find_best_timed in Hfb. rewrite Hfb, Hfleet. by rewrite <- app_assoc.
Qed.

Lemma serve_calls_total {Wt : Weight} (query : string -> string -> result W)
    (round2 : W -> W) calls :
  (forall a c, exists d, query a c = Ok d) ->
  forall st, exists st', serve_calls query round2 calls st = Ok st'.
Proof.
  intros Hq. induction calls as [|[[p id] row] calls IH]; intros st; cbn [serve_calls]; [eauto |].
  assert (exists st1, dispatch_call query round2 id row st = Ok st1) as [st1 ->].
  { unfold dispatch_call.
    destruct (find_best_total query (available_ambulances st) (row_location row) Hq
                None winf (timed_queries st)) as [[[best t] timed] ->].
    cbn. destruct best as [vid |]; [destruct (str_truthy vid) |]; eauto. }
  cbn. apply IH.
Qed.

(** C9: the fleet after the loop is the fleet before it, and every call that
    was dequeued had every vehicle of that fleet queried for it, in the order
    of the fleet; the loop returns whenever the queries do. *)
Theorem scheduler_keeps_fleet {Wt : Weight}
    (query : string -> string -> result W) (round2 : W -> W)
    (queue : list (Z * Z * CallRow)) (fleet : list (string * string)) :
  (forall st, process_calls query round2 queue fleet = Ok st ->
     available_ambulances st = fleet /\
     timed_queries st =
       flat_map (fun c : Z * Z * CallRow => scan_queries fleet (row_location c.2))
                (dequeue_order queue)) /\
  ((forall a c, exists d, query a c = Ok d) ->
   exists st, process_calls query round2 queue fleet = Ok st).
Proof.
  rewrite process_calls_serve. split.
  - intros st Hrun. split.
    + by apply serve_calls_frame in Hrun as [_ ->].
    + by rewrite (serve_calls_timed query round2 fleet _ (initial_state [] fleet) st
                    eq_refl Hrun).
  - intros Hq. by apply serve_calls_total.
Qed.

Lemma scheduler_keeps_fleet_witness :
  exists st,
    process_calls (dijkstra_shortest_path (Wt := int_weight) 5 spec_graph) id
      (prepare_call_queue spec_priorities two_calls_at_B) spec_fleet = Ok st /\
    available_ambulances st = spec_fleet /\
    timed_queries st = [("A", "B"); ("C", "B"); ("A", "B"); ("C", "B")] /\
    log_selected_ambulance <$> dispatch_log st = ["V1"; "V1"].
Proof.
  destruct (scheduler_keeps_fleet (Wt := int_weight)
              (dijkstra_shortest_path (Wt := int_weight) 5 spec_graph) id
              (prepare_call_queue spec_priorities two_calls_at_B) spec_fleet)
    as [Hframe Htotal].
  destruct Htotal as [st Hst].
  { intros a c.
    destruct (dijkstra_shortest (Wt := int_weight) (OW := int_weight_ordered)
                spec_graph a c 5) as (r & Hr & _); [| | | eauto].
    - apply wf_graphb_ok. reflexivity.
    - apply nonneg_weightsb_ok. reflexivity.
    - vm_compute. lia. }
  exists st. split; [done |]. destruct (Hframe st Hst) as [Hfleet Htimed].
  split; [done |]. split; [by rewrite Htimed |].
  assert (Hrun : process_calls (dijkstra_shortest_path (Wt := int_weight) 5 spec_graph) id
            (prepare_call_queue spec_priorities two_calls_at_B) spec_fleet
          = Ok (@Build_SimState int_weight [] 
                  [@Build_DispatchRecord int_weight 1 "Cardiac" "B" "V1" (Fin 4);
                   @Build_DispatchRecord int_weight 2 "Cardiac" "B" "V1" (Fin 4)]
                  spec_fleet [] [("A", "B"); ("C", "B"); ("A", "B"); ("C", "B")]))
    by (vm_compute; reflexivity).
  rewrite Hrun in Hst. by injection Hst as <-.
Defined.

(** * Further properties of the code *)

(** ** Graph.add_edge *)

Section AddEdge.
Context {Wt : Weight}.

Lemma adj_append_edges (adj : list (string * list (string * W))) s e u x :
  s ∈ adj.*1 ->
  (exists nbrs, (u, nbrs) ∈ adj_append adj s e /\ x ∈ nbrs) <->
  (exists nbrs, (u, nbrs) ∈ adj /\ x ∈ nbrs) \/ (u = s /\ x = e).
Proof.
  induction adj as [|[k nbrs0] adj IH]; cbn; [by intros ?%elem_of_nil |].
  intros Hs. case_decide as Hk.
  - subst k. split.
    + intros (nbrs & [[= -> ->] | Hin]%elem_of_cons & Hx).
      * apply elem_of_app in Hx as [Hx | ->%list_elem_of_singleton]; [| by right].
        left. exists nbrs0. split; [by left | done].
      * left. exists nbrs. split; [by right | done].
    + intros [(nbrs & [[= -> ->] | Hin]%elem_of_cons & Hx) | [-> ->]].
      * exists (nbrs0 ++ [e]). split; [by left |]. apply elem_of_app. by left.
      * exists nbrs. split; [by right | done].
      * exists (nbrs0 ++ [e]). split; [by left |]. apply elem_of_app. right. by left.
  - apply elem_of_cons in Hs as [? | Hs]; [done |]. specialize (IH Hs). split.
    + intros (nbrs & [[= -> ->] | Hin]%elem_of_cons & Hx).
      * left. exists nbrs0. split; [by left | done].
      * destruct (proj1 IH) as [(nbrs' & Hin' & Hx') | ?]; [eauto | | by right].
        left. exists nbrs'. split; [by right | done].
    + intros [(nbrs & [[= -> ->] | Hin]%elem_of_cons & Hx) | Heq].
      * exists nbrs0. split; [by left | done].
      * destruct (proj2 IH) as (nbrs' & Hin' & Hx'); [left; eauto |].
        exists nbrs'. split; [by right | done].
      * destruct (proj2 IH) as (nbrs' & Hin' & Hx'); [by right |].
        exists nbrs'. split; [by right | done].
Qed.

Lemma adj_append_count (adj : list (string * list (string * W))) s e :
  s ∈ adj.*1 ->
  sum_list ((fun p : string * list (string * W) => length p.2) <$> adj_append adj s e)
  = S (sum_list ((fun p : string * list (string * W) => length p.2) <$> adj)).
Proof.
  induction adj as [|[k nbrs0] adj IH]; cbn; [by intros ?%elem_of_nil |].
  intros Hs. case_decide as Hk; cbn.
  - rewrite length_app. cbn. lia.
  - apply elem_of_cons in Hs as [? | Hs]; [done |]. rewrite (IH Hs). lia.
Qed.

(** What [add_edge] changes. *)
Lemma add_edge_spec (g : Graph) (source destination : string) (weight : W) :
  (forall u v e, edge (add_edge g source destination weight) u v e <->
     edge g u v e \/ (u = source /\ v = destination /\ e = weight)) /\
  (forall x, x ∈ vertices (add_edge g source destination weight) <->
     x ∈ vertices g \/ x = source \/ x = destination) /\
  edge_count (add_edge g source destination weight) = S (edge_count g).
Proof.
  set (adj := match adj_lookup (adjacency_list g) source with
              | None => adjacency_list g ++ [(source, [])]
              | Some _ => adjacency_list g
              end).
  assert (Hs : source ∈ adj.*1).
  { subst adj. destruct (adj_lookup (adjacency_list g) source) as [nbrs |] eqn:E.
    - apply adj_lookup_elem in E. apply list_elem_of_fmap. by exists (source, nbrs).
    - rewrite fmap_app. apply elem_of_app. right. by left. }
  assert (He : forall u x, (exists nbrs, (u, nbrs) ∈ adj /\ x ∈ nbrs) <->
                           (exists nbrs, (u, nbrs) ∈ adjacency_list g /\ x ∈ nbrs)).
  { intros u x. subst adj. destruct (adj_lookup (adjacency_list g) source); [done |]. split.
    - intros (nbrs & [Hin | [= -> ->]%list_elem_of_singleton]%elem_of_app & Hx); [eauto |].
      by apply elem_of_nil in Hx.
    - intros (nbrs & Hin & Hx). exists nbrs. split; [| done]. apply elem_of_app. by left. }
  assert (Hc : sum_list ((fun p : string * list (string * W) => length p.2) <$> adj)
               = edge_count g).
  { subst adj. unfold edge_count. destruct (adj_lookup (adjacency_list g) source); [done |].
    rewrite fmap_app, sum_list_with_app. cbn. lia. }
  split; [| split].
  - intros u v e. unfold edge at 1. cbn. fold adj.
    rewrite (adj_append_edges adj source (destination, weight) u (v, e) Hs), (He u (v, e)).
    unfold edge. split; (intros [? | H]; [by left | right]).
    + destruct H as [-> [= -> ->]]. done.
    + destruct H as (-> & -> & ->). done.
  - intros x. cbn. rewrite !set_add_elem. tauto.
  - unfold edge_count at 1. cbn. fold adj. by rewrite adj_append_count, Hc.
Qed.

End AddEdge.

(** X1: [add_edge] adds exactly one edge, also when an edge between the two
    nodes exists already, and the two endpoints to the vertex set; nothing
    else changes. *)
Theorem add_edge_adds_one_edge {Wt : Weight} (g : Graph)
    (source destination : string) (weight : W) :
  (forall u v e, edge (add_edge g source destination weight) u v e <->
     edge g u v e \/ (u = source /\ v = destination /\ e = weight)) /\
  (forall x, x ∈ vertices (add_edge g source destination weight) <->
     x ∈ vertices g \/ x = source \/ x = destination) /\
  edge_count (add_edge g source destination weight) = S (edge_count g).
Proof. apply add_edge_spec. Qed.

(** ** Floyd-Warshall: the entries of the table *)

Section TableDomain.
Context {Wt : Weight}.
Implicit Types m : gmap string (gmap string W).

Lemma mdom_init vs : mdom vs (init_matrix vs).
Proof.
  intros i j. split.
  - intros [d (row & Hrow & Hd)%matrix_get_Ok].
    change (init_matrix vs) with (dict_fromkeys vs (dict_fromkeys vs (winf : W))) in Hrow.
    rewrite dict_fromkeys_lookup in Hrow. case_decide; [| done]. injection Hrow as <-.
    rewrite dict_fromkeys_lookup in Hd. case_decide; done.
  - intros [Hi Hj]. exists winf. by apply init_matrix_get.
Qed.

Lemma mdom_set vs m i j x :
  mdom vs m -> i ∈ vs -> j ∈ vs ->
  exists m', matrix_set m i j x = Ok m' /\ mdom vs m'.
Proof.
  intros Hm Hi Hj. destruct (proj2 (Hm i j)) as [d Hd]; [done |].
  destruct (matrix_set_Ok m i j x d Hd) as [m' Hset]. exists m'. split; [done |].
  intros a b. rewrite (matrix_get_set _ _ _ _ _ _ _ Hset). case_decide as Hab.
  - destruct Hab as [-> ->]. split; [done | eauto].
  - apply Hm.
Qed.

Lemma mdom_lower vs m i j x :
  mdom vs m -> i ∈ vs -> j ∈ vs ->
  exists m', (d ← matrix_get m i j; if wlt x d then matrix_set m i j x else Ok m) = Ok m' /\
    mdom vs m'.
Proof.
  intros Hm Hi Hj. destruct (proj2 (Hm i j)) as [d Hd]; [done |]. rewrite Hd. cbn.
  destruct (wlt x d); [by apply mdom_set | eauto].
Qed.

Lemma fw_step_dom vs k i j m :
  mdom vs m -> k ∈ vs -> i ∈ vs -> j ∈ vs ->
  exists m', fw_step k i j m = Ok m' /\ mdom vs m'.
Proof.
  intros Hm Hk Hi Hj. unfold fw_step.
  destruct (proj2 (Hm i k)) as [dik Hik]; [done |].
  destruct (proj2 (Hm k j)) as [dkj Hkj]; [done |].
  rewrite Hik. cbn. rewrite Hkj. cbn. by apply mdom_lower.
Qed.

Lemma fw_core_dom vs m :
  mdom vs m -> exists m', fw_core vs m = Ok m' /\ mdom vs m'.
Proof.
  intros Hm. unfold fw_core.
  apply (for_each_inv (fun _ m => mdom vs m)); [done |].
  intros _ k m1 Hm1 Hk.
  apply (for_each_inv (fun _ m => mdom vs m)); [done |].
  intros _ i m2 Hm2 Hi.
  apply (for_each_inv (fun _ m => mdom vs m)); [done |].
  intros _ j m3 Hm3 Hj. by apply fw_step_dom.
Qed.

Lemma set_diagonal_dom vs m :
  mdom vs m -> exists m', set_diagonal vs m = Ok m' /\ mdom vs m'.
Proof.
  intros Hm. unfold set_diagonal.
  apply (for_each_inv (fun _ m => mdom vs m)); [done |].
  intros _ v m1 Hm1 Hv. by apply mdom_set.
Qed.

Lemma load_edges_dom (g : Graph) m :
  wf_graph g -> mdom (vertices g) m ->
  exists m', load_edges (adjacency_list g) m = Ok m' /\ mdom (vertices g) m'.
Proof.
  intros Hwf Hm. unfold load_edges.
  apply (for_each_inv (fun _ m => mdom (vertices g) m)); [done |].
  intros _ [source nbrs] m1 Hm1 Hin.
  apply (for_each_inv (fun _ m => mdom (vertices g) m)); [done |].
  intros _ [destination weight] m2 Hm2 Hd.
  apply mdom_lower; [done | by eapply wf_sources |].
  eapply wf_destinations; [done |]. by exists nbrs.
Qed.

(** The precomputation returns on every well-formed graph, whatever its
    weights are, and the table has an entry exactly for the pairs of vertices. *)
Lemma floyd_warshall_dom (g : Graph) :
  wf_graph g ->
  exists table, floyd_warshall_precomputation g = Ok table /\ mdom (vertices g) table.
Proof.
  intros Hwf. unfold floyd_warshall_precomputation.
  destruct (set_diagonal_dom (vertices g) (init_matrix (vertices g)) (mdom_init _))
    as (m1 & -> & Hm1). cbn.
  destruct (load_edges_dom g m1 Hwf Hm1) as (m2 & -> & Hm2). cbn.
  by apply fw_core_dom.
Qed.

Lemma mdom_KeyError vs m i j :
  mdom vs m -> matrix_get m i j = KeyError <-> ~ (i ∈ vs /\ j ∈ vs).
Proof.
  intros Hm. rewrite <- (Hm i j). split.
  - intros H [d Hd]. congruence.
  - intros H. unfold matrix_get, dict_get in *.
    destruct (m !! i) as [row |]; cbn in *; [| done].
    destruct (row !! j); [| done]. exfalso. eauto.
Qed.

End TableDomain.

(** X2: [floyd_warshall_precomputation] returns a table on every graph built
    by [add_edge], whatever the weights are; [table[a][c]] is a number when
    [a] and [c] are both vertices and raises [KeyError] otherwise. *)
Theorem floyd_warshall_table_entries {Wt : Weight} (g : Graph) :
  wf_graph g ->
  exists table, floyd_warshall_precomputation g = Ok table /\
    forall a c,
      (a ∈ vertices g /\ c ∈ vertices g -> exists d, matrix_get table a c = Ok d) /\
      (~ (a ∈ vertices g /\ c ∈ vertices g) -> matrix_get table a c = KeyError).
Proof.
  intros Hwf. destruct (floyd_warshall_dom g Hwf) as (table & Htable & Hdom).
  exists table. split; [done |]. intros a c. split.
  - intros H. by apply Hdom.
  - intros H. by apply (mdom_KeyError (vertices g)).
Qed.

Lemma floyd_warshall_table_entries_witness :
  exists table, floyd_warshall_precomputation negative_loop_graph = Ok table /\
    forall a c,
      (a ∈ vertices negative_loop_graph /\ c ∈ vertices negative_loop_graph ->
       exists d, matrix_get table a c = Ok d) /\
      (~ (a ∈ vertices negative_loop_graph /\ c ∈ vertices negative_loop_graph) ->
       matrix_get table a c = KeyError).
Proof.
  apply (floyd_warshall_table_entries (Wt := int_weight) negative_loop_graph).
  apply wf_graphb_ok. reflexivity.
Defined.

(** ** Dijkstra: what is returned *)

(** X3: when weights are non-negative, [dijkstra_shortest_path] returns the
    weight of a shortest walk from [start_node] to [end_node]: the result is
    [winf] or the weight of a walk, and no walk weighs less.  Parallel edges
    and self-loops are allowed. *)
Theorem dijkstra_returns_shortest_walk {Wt : Weight} {OW : OrderedWeight Wt}
    (g : Graph) (start_node end_node : string) (fuel : nat) :
  wf_graph g -> nonneg_weights g -> edge_count g + 2 <= fuel ->
  exists r, dijkstra_shortest_path fuel g start_node end_node = Ok r /\
    (r = winf \/ lwalk g start_node end_node r) /\
    forall w, lwalk g start_node end_node w -> wle r w.
Proof.
  intros Hwf Hnn Hfuel.
  destruct (dijkstra_shortest g start_node end_node fuel Hwf Hnn Hfuel) as (r & Hr & Hs).
  exists r. split; [done |]. exact Hs.
Qed.

Lemma dijkstra_returns_shortest_walk_witness :
  exists r, dijkstra_shortest_path 5 spec_graph "A" "C" = Ok r /\
    (r = winf \/ lwalk spec_graph "A" "C" r) /\
    forall w, lwalk spec_graph "A" "C" w -> wle r w.
Proof.
  apply (dijkstra_returns_shortest_walk (Wt := int_weight) (OW := int_weight_ordered)).
  - apply wf_graphb_ok. reflexivity.
  - apply nonneg_weightsb_ok. reflexivity.
  - vm_compute. lia.
Defined.

(** X4: a start node that is no vertex of the graph gets an entry in
    [distances] and is popped; it has no edges, so the queue runs empty and
    the result is [winf], whatever the weights are. *)
Theorem dijkstra_unknown_start {Wt : Weight} (g : Graph)
    (start_node end_node : string) (fuel : nat) :
  wf_graph g -> start_node ∉ vertices g -> end_node <> start_node ->
  dijkstra_shortest_path (S (S fuel)) g start_node end_node = Ok winf.
Proof.
  intros Hwf Hs Hne. unfold dijkstra_shortest_path.
  cbn [dijkstra_loop heappop extract_min].
  assert (Hd : dict_get (<[start_node := wzero]> (dict_fromkeys (vertices g) winf))
                 start_node = Ok wzero).
  { apply dict_get_Some, lookup_insert_eq. }
  rewrite Hd. cbn [mbind result_mbind result_bind].
  destruct (wlt wzero wzero); [done |].
  rewrite decide_False by done.
  destruct (adj_lookup (adjacency_list g) start_node) as [nbrs |] eqn:Hadj; [| done].
  exfalso. apply Hs. eapply wf_sources; [done |]. by eapply adj_lookup_elem.
Qed.

Lemma dijkstra_unknown_start_witness :
  dijkstra_shortest_path (Wt := float_weight) 2 overflow_graph "Z" "C" = Ok infinity.
Proof.
  apply (dijkstra_unknown_start (Wt := float_weight) overflow_graph "Z" "C" 0).
  - apply wf_graphb_ok. reflexivity.
  - apply (bool_decide_unpack _). vm_compute. exact I.
  - discriminate.
Defined.

Section VertexOrder.
Context {Wt : Weight}.

Lemma dict_fromkeys_perm {A : Type} (vs vs' : list string) (x : A) :
  vs ≡ₚ vs' -> dict_fromkeys vs x = dict_fromkeys vs' x.
Proof.
  intros Hp. apply map_eq. intros k. rewrite !dict_fromkeys_lookup.
  destruct (decide (k ∈ vs)) as [Hk | Hk].
  - rewrite decide_True; [done | by rewrite <- Hp].
  - rewrite decide_False; [done | by rewrite <- Hp].
Qed.

Lemma dijkstra_loop_adj (g g' : Graph) (end_node : string) :
  adjacency_list g = adjacency_list g' ->
  forall fuel pq dist,
    dijkstra_loop fuel g end_node pq dist = dijkstra_loop fuel g' end_node pq dist.
Proof.
  intros Hadj. induction fuel as [|fuel IH]; intros pq dist; cbn; [done |].
  destruct (heappop entry_lt pq) as [[[c u] pq'] |]; [| done].
  destruct (dict_get dist u) as [d | |]; cbn; [| done | done].
  destruct (wlt d c); [apply IH |].
  case_decide; [done |]. rewrite Hadj.
  destruct (adj_lookup (adjacency_list g') u) as [nbrs |]; [| apply IH].
  destruct (relax_neighbors u nbrs pq' dist) as [[pq'' dist'] | |]; cbn; [apply IH | done | done].
Qed.

End VertexOrder.

(** X5: the order in which the vertex set iterates (which for a set of
    strings changes from one run of the interpreter to the next) does not
    influence the result of [dijkstra_shortest_path], whatever the weights
    are. *)
Theorem dijkstra_ignores_vertex_order {Wt : Weight}
    (adj : list (string * list (string * W))) (vs vs' : list string)
    (start_node end_node : string) (fuel : nat) :
  vs ≡ₚ vs' ->
  dijkstra_shortest_path fuel {| adjacency_list := adj; vertices := vs |} start_node end_node
  = dijkstra_shortest_path fuel {| adjacency_list := adj; vertices := vs' |} start_node end_node.
Proof.
  intros Hp. unfold dijkstra_shortest_path. cbn [vertices].
  rewrite (dict_fromkeys_perm vs vs' winf Hp). by apply dijkstra_loop_adj.
Qed.

#[local] Set Warnings "-inexact-float".

Lemma dijkstra_ignores_vertex_order_witness :
  dijkstra_shortest_path (Wt := float_weight) 10 (rounding_graph ["A"; "B"; "C"; "D"]) "A" "D"
  = dijkstra_shortest_path (Wt := float_weight) 10 (rounding_graph ["D"; "C"; "B"; "A"]) "A" "D".
Proof.
  apply (dijkstra_ignores_vertex_order (Wt := float_weight)).
  symmetry. exact (reverse_Permutation ["A"; "B"; "C"; "D"]).
Defined.

#[local] Set Warnings "inexact-float".

(** ** Floyd-Warshall: what the table holds *)

Section SameEdges.
Context {Wt : Weight}.
Variables g g' : Graph.
Hypothesis Hadj : adjacency_list g' = adjacency_list g.

Lemma same_edges_edge u v e : edge g u v e -> edge g' u v e.
Proof. unfold edge. by rewrite Hadj. Qed.

Lemma same_edges_lwalk s v w : lwalk g s v w -> lwalk g' s v w.
Proof.
  induction 1 as [|u v w e _ IH He]; [constructor |].
  econstructor; [done | by apply same_edges_edge].
Qed.

End SameEdges.

(** X6: with exact sums and non-negative weights, every entry of the table
    for a pair of vertices is the weight of a shortest walk between them. *)
Theorem floyd_warshall_entries_shortest {Wt : Weight} {EW : ExactWeight Wt} (g : Graph) :
  wf_graph g -> nonneg_weights g ->
  exists table, floyd_warshall_precomputation g = Ok table /\
    forall i j, i ∈ vertices g -> j ∈ vertices g ->
      exists d, matrix_get table i j = Ok d /\
        (d = winf \/ lwalk g i j d) /\ forall w, lwalk g i j w -> wle d w.
Proof.
  intros Hwf Hnn. destruct (floyd_warshall_shortest g Hwf Hnn) as (table & Htable & Hs).
  exists table. split; [done |]. intros i j Hi Hj.
  destruct (Hs i j Hi Hj) as (d & Hd & Hsh). exists d. split; [done | exact Hsh].
Qed.

Lemma floyd_warshall_entries_shortest_witness :
  exists table, floyd_warshall_precomputation spec_graph = Ok table /\
    forall i j, i ∈ vertices spec_graph -> j ∈ vertices spec_graph ->
      exists d, matrix_get table i j = Ok d /\
        (d = winf \/ lwalk spec_graph i j d) /\
        forall w, lwalk spec_graph i j w -> wle d w.
Proof.
  apply (floyd_warshall_entries_shortest (Wt := int_weight) (EW := int_weight_exact)).
  - apply wf_graphb_ok. reflexivity.
  - apply nonneg_weightsb_ok. reflexivity.
Defined.

(** X7: with exact sums and non-negative weights the diagonal of the table is
    zero, also at a vertex with a self-loop: the loop never improves on the
    [0] written before the edges are loaded. *)
Theorem floyd_warshall_diagonal_zero {Wt : Weight} {EW : ExactWeight Wt} (g : Graph) :
  wf_graph g -> nonneg_weights g ->
  exists table, floyd_warshall_precomputation g = Ok table /\
    forall v, v ∈ vertices g -> matrix_get table v v = Ok wzero.
Proof.
  intros Hwf Hnn. destruct (floyd_warshall_shortest g Hwf Hnn) as (table & Htable & Hs).
  exists table. split; [done |]. intros v Hv.
  destruct (Hs v v Hv Hv) as (d & Hd & [Hw Hmin]). rewrite Hd. f_equal.
  apply wle_antisym.
  - apply Hmin. constructor.
  - destruct Hw as [-> | Hw]; [apply wzero_le_inf | by eapply lwalk_nonneg].
Qed.

Lemma floyd_warshall_diagonal_zero_witness :
  exists table,
    floyd_warshall_precomputation
      (add_edge (Wt := int_weight) spec_graph "B" "B" (Fin 3)) = Ok table /\
    forall v, v ∈ vertices (add_edge (Wt := int_weight) spec_graph "B" "B" (Fin 3)) ->
      matrix_get table v v = Ok (Fin 0).
Proof.
  apply (floyd_warshall_diagonal_zero (Wt := int_weight) (EW := int_weight_exact)).
  - apply wf_graphb_ok. reflexivity.
  - apply nonneg_weightsb_ok. reflexivity.
Defined.

(** X8: with exact sums and non-negative weights the table does not depend
    on the order in which the vertex set iterates: the entries, and the pairs
    that raise [KeyError], are the same. *)
Theorem floyd_warshall_ignores_vertex_order {Wt : Weight} {EW : ExactWeight Wt}
    (adj : list (string * list (string * W))) (vs vs' : list string) :
  wf_graph {| adjacency_list := adj; vertices := vs |} ->
  nonneg_weights {| adjacency_list := adj; vertices := vs |} ->
  vs ≡ₚ vs' ->
  exists table table',
    floyd_warshall_precomputation {| adjacency_list := adj; vertices := vs |} = Ok table /\
    floyd_warshall_precomputation {| adjacency_list := adj; vertices := vs' |} = Ok table' /\
    forall i j, matrix_get table i j = matrix_get table' i j.
Proof.
  set (g := {| adjacency_list := adj; vertices := vs |}).
  set (g' := {| adjacency_list := adj; vertices := vs' |}).
  intros Hwf Hnn Hp.
  assert (Hwf' : wf_graph g').
  { destruct Hwf as [H1 H2 H3 H4]. split; cbn in *.
    - by rewrite <- Hp.
    - done.
    - intros u nbrs Hin. rewrite <- Hp. by eapply H3.
    - intros u v e He. rewrite <- Hp. by eapply (H4 u v e). }
  assert (Hnn' : nonneg_weights g') by exact Hnn.
  destruct (floyd_warshall_shortest g Hwf Hnn) as (table & Htable & Hs).
  destruct (floyd_warshall_shortest g' Hwf' Hnn') as (table' & Htable' & Hs').
  destruct (floyd_warshall_dom g Hwf) as (t0 & Ht0 & Hdom).
  destruct (floyd_warshall_dom g' Hwf') as (t0' & Ht0' & Hdom').
  rewrite Htable in Ht0. injection Ht0 as <-.
  rewrite Htable' in Ht0'. injection Ht0' as <-.
  exists table, table'. split; [done |]. split; [done |]. intros i j.
  destruct (decide (i ∈ vs /\ j ∈ vs)) as [[Hi Hj] | Hn].
  - destruct (Hs i j Hi Hj) as (d & Hd & Hsh).
    destruct (Hs' i j) as (d' & Hd' & Hsh');
      [change (i ∈ vs'); by rewrite <- Hp | change (j ∈ vs'); by rewrite <- Hp |].
    rewrite Hd, Hd'. f_equal. apply (shortest_unique g i j); [done |].
    destruct Hsh' as [Hw Hmin]. split.
    + destruct Hw as [-> | Hw]; [by left | right].
      by apply (same_edges_lwalk g' g).
    + intros w Hw'. apply Hmin. by apply (same_edges_lwalk g g').
  - rewrite (proj2 (mdom_KeyError vs table i j Hdom) Hn).
    symmetry. apply (mdom_KeyError vs' table' i j Hdom').
    intros [Hi Hj]. apply Hn. by rewrite Hp.
Qed.

Lemma floyd_warshall_ignores_vertex_order_witness :
  exists table table',
    floyd_warshall_precomputation
      (@Build_Graph int_weight (adjacency_list spec_graph) ["A"; "B"; "C"]) = Ok table /\
    floyd_warshall_precomputation
      (@Build_Graph int_weight (adjacency_list spec_graph) ["C"; "B"; "A"]) = Ok table' /\
    forall i j, matrix_get table i j = matrix_get table' i j.
Proof.
  apply (floyd_warshall_ignores_vertex_order (Wt := int_weight) (EW := int_weight_exact)).
  - apply wf_graphb_ok. reflexivity.
  - apply nonneg_weightsb_ok. reflexivity.
  - symmetry. exact (reverse_Permutation ["A"; "B"; "C"]).
Defined.

(** ** The dispatch loop: which queries matter *)

Section QueryExt.
Context {Wt : Weight}.
Variables query query' : string -> string -> result W.
Variable round2 : W -> W.

Lemma find_best_ext fleet loc :
  (forall id l, (id, l) ∈ fleet -> query l loc = query' l loc) ->
  forall best t timed,
    find_best query fleet loc best t timed = find_best query' fleet loc best t timed.
Proof.
  induction fleet as [|[id0 l0] fleet IH]; intros Hq best t timed; cbn; [done |].
  rewrite <- (Hq id0 l0) by (by left).
  destruct (query l0 loc) as [d | |]; cbn; [| done..].
  assert (Hq' : forall id l, (id, l) ∈ fleet -> query l loc = query' l loc).
  { intros id l Hin. apply (Hq id l). by right. }
  destruct (wlt d t); by apply IH.
Qed.

Lemma dispatch_call_ext call_id row st :
  (forall id l, (id, l) ∈ available_ambulances st ->
     query l (row_location row) = query' l (row_location row)) ->
  dispatch_call query round2 call_id row st = dispatch_call query' round2 call_id row st.
Proof. intros Hq. unfold dispatch_call. by rewrite (find_best_ext _ _ Hq). Qed.

Lemma serve_calls_ext fleet calls :
  (forall c id l, c ∈ calls -> (id, l) ∈ fleet ->
     query l (row_location c.2) = query' l (row_location c.2)) ->
  forall st, available_ambulances st = fleet ->
    serve_calls query round2 calls st = serve_calls query' round2 calls st.
Proof.
  induction calls as [|[[p id] row] calls IH]; intros Hq st Hst; cbn [serve_calls]; [done |].
  rewrite (dispatch_call_ext id row st).
  - destruct (dispatch_call query' round2 id row st) as [st1 | |] eqn:E;
      cbn [mbind result_mbind result_bind]; [| done..].
    apply IH.
    + intros c id' l Hc Hl. apply (Hq c id' l); [by right | done].
    + apply dispatch_call_frame in E as [_ ->]. done.
  - intros id' l Hin. rewrite Hst in Hin. apply (Hq (p, id, row) id' l); [by left | done].
Qed.

Lemma process_calls_ext queue fleet :
  (forall c id l, c ∈ queue -> (id, l) ∈ fleet ->
     query l (row_location c.2) = query' l (row_location c.2)) ->
  process_calls query round2 queue fleet = process_calls query' round2 queue fleet.
Proof.
  intros Hq. rewrite !process_calls_serve. apply (serve_calls_ext fleet); [| done].
  intros c id l Hc Hl. apply (Hq c id l); [| done]. by rewrite <- (dequeue_order_perm queue).
Qed.

End QueryExt.

Section QueryErrors.
Context {Wt : Weight}.
Variable query : string -> string -> result W.
Variable round2 : W -> W.

(** The loop returns when the queries it makes do. *)
Lemma process_calls_returns queue fleet :
  (forall c id l, c ∈ queue -> (id, l) ∈ fleet ->
     exists d, query l (row_location c.2) = Ok d) ->
  exists st, process_calls query round2 queue fleet = Ok st.
Proof.
  intros Hq.
  set (query' := fun a c => match query a c with Ok d => Ok d | _ => Ok winf end).
  rewrite (process_calls_ext query query' round2 queue fleet).
  - rewrite process_calls_serve. apply serve_calls_total.
    intros a c. unfold query'. destruct (query a c); eauto.
  - intros c id l Hc Hin. unfold query'.
    destruct (Hq c id l Hc Hin) as [d ->]. done.
Qed.

Hypothesis Hfuel : forall a c, query a c <> OutOfFuel.

Lemma find_best_no_OutOfFuel fleet loc : forall best t timed,
  find_best query fleet loc best t timed <> OutOfFuel.
Proof.
  induction fleet as [|[id0 l0] fleet IH]; intros best t timed; cbn; [done |].
  destruct (query l0 loc) as [d | |] eqn:E; cbn; [| done | by apply Hfuel in E].
  destruct (wlt d t); apply IH.
Qed.

Lemma find_best_KeyError fleet loc id l :
  (id, l) ∈ fleet -> query l loc = KeyError ->
  forall best t timed, find_best query fleet loc best t timed = KeyError.
Proof.
  intros Hin Hq. induction fleet as [|[id0 l0] fleet IH]; intros best t timed; cbn;
    [by apply elem_of_nil in Hin |].
  apply elem_of_cons in Hin as [[= <- <-] | Hin]; [by rewrite Hq |].
  destruct (query l0 loc) as [d | |] eqn:E; cbn; [| done | by apply Hfuel in E].
  destruct (wlt d t); by apply IH.
Qed.

Lemma dispatch_call_Ok_or_KeyError call_id row st :
  (exists st', dispatch_call query round2 call_id row st = Ok st') \/
  dispatch_call query round2 call_id row st = KeyError.
Proof.
  unfold dispatch_call.
  destruct (find_best query (available_ambulances st) (row_location row) None winf
              (timed_queries st)) as [[[best t] timed] | |] eqn:E;
    cbn [mbind result_mbind result_bind].
  - left. destruct best as [id |]; [destruct (str_truthy id) |]; eauto.
  - by right.
  - by apply find_best_no_OutOfFuel in E.
Qed.

Lemma serve_calls_KeyError fleet calls c id l :
  c ∈ calls -> (id, l) ∈ fleet -> query l (row_location c.2) = KeyError ->
  forall st, available_ambulances st = fleet ->
    serve_calls query round2 calls st = KeyError.
Proof.
  intros Hc Hin Hq. induction calls as [|[[p0 id0] row0] calls IH]; intros st Hst;
    cbn [serve_calls]; [by apply elem_of_nil in Hc |].
  apply elem_of_cons in Hc as [-> | Hc].
  - unfold dispatch_call. rewrite Hst.
    by rewrite (find_best_KeyError fleet _ id l Hin Hq).
  - destruct (dispatch_call_Ok_or_KeyError id0 row0 st) as [[st' E] | E]; rewrite E;
      cbn [mbind result_mbind result_bind]; [| done].
    apply IH; [done |]. apply dispatch_call_frame in E as [_ ->]. done.
Qed.

End QueryErrors.

(** X9: on a network with exact sums and non-negative weights, when every
    vehicle and every call is at a vertex of the graph, the two prototypes
    end in the same state: the same log, the same warnings, the same queries
    timed. *)
Theorem prototypes_agree {Wt : Weight} {EW : ExactWeight Wt}
    (fuel : nat) (round2 : W -> W) (g : Graph) (call_priorities : gmap string Z)
    (fleet : list (string * string)) (rows : list CallRow) :
  wf_graph g -> nonneg_weights g -> edge_count g + 2 <= fuel ->
  NoDup (row_call_id <$> rows) ->
  (forall id l, (id, l) ∈ fleet -> l ∈ vertices g) ->
  (forall c, c ∈ rows -> row_location c ∈ vertices g) ->
  exists st,
    run_simulation_p1 fuel round2 g call_priorities fleet rows = Ok st /\
    run_simulation_p2 round2 g call_priorities fleet rows = Ok st.
Proof.
  intros Hwf Hnn Hfuel _ Hfleet Hrows.
  destruct (floyd_warshall_shortest g Hwf Hnn) as (table & Htable & Hs).
  unfold run_simulation_p1, run_simulation_p2. rewrite Htable.
  cbn [mbind result_mbind result_bind].
  assert (Hloc : forall c, c ∈ prepare_call_queue call_priorities rows ->
                           row_location c.2 ∈ vertices g).
  { intros c Hc. rewrite prepare_call_queue_perm in Hc.
    apply list_elem_of_fmap in Hc as (r & -> & Hr). by apply Hrows. }
  assert (Hq : forall c id l, c ∈ prepare_call_queue call_priorities rows -> (id, l) ∈ fleet ->
     dijkstra_shortest_path fuel g l (row_location c.2)
     = matrix_get table l (row_location c.2)).
  { intros c id l Hc Hin.
    destruct (Hs l (row_location c.2)) as (d & Hd & Hsh); [by eapply Hfleet | by apply Hloc |].
    destruct (dijkstra_shortest g l (row_location c.2) fuel Hwf Hnn Hfuel) as (r & Hr & Hsh').
    rewrite Hr, Hd. f_equal. by eapply shortest_unique. }
  rewrite (process_calls_ext _ _ round2 _ fleet Hq).
  destruct (process_calls_returns (matrix_get table) round2
              (prepare_call_queue call_priorities rows) fleet) as [st Hst]; [| eauto].
  intros c id l Hc Hin.
  destruct (Hs l (row_location c.2)) as (d & Hd & _); [by eapply Hfleet | by apply Hloc |].
  eauto.
Qed.

Lemma prototypes_agree_witness :
  exists st,
    run_simulation_p1 (Wt := int_weight) 5 id spec_graph spec_priorities spec_fleet
      two_calls_at_B = Ok st /\
    run_simulation_p2 (Wt := int_weight) id spec_graph spec_priorities spec_fleet
      two_calls_at_B = Ok st.
Proof.
  apply (prototypes_agree (Wt := int_weight) (EW := int_weight_exact)).
  - apply wf_graphb_ok. reflexivity.
  - apply nonneg_weightsb_ok. reflexivity.
  - vm_compute. lia.
  - apply (bool_decide_unpack _). vm_compute. exact I.
  - intros id l Hin.
    assert (HF : Forall (fun v : string * string => v.2 ∈ vertices spec_graph) spec_fleet)
      by (apply (bool_decide_unpack _); vm_compute; exact I).
    rewrite Forall_forall in HF. exact (HF (id, l) Hin).
  - intros c Hc.
    assert (HF : Forall (fun c => row_location c ∈ vertices spec_graph) two_calls_at_B)
      by (apply (bool_decide_unpack _); vm_compute; exact I).
    rewrite Forall_forall in HF. exact (HF c Hc).
Defined.

(** When prototype 2 raises. *)
Lemma run_simulation_p2_KeyError {Wt : Weight}
    (round2 : W -> W) (g : Graph) (call_priorities : gmap string Z)
    (fleet : list (string * string)) (rows : list CallRow) :
  wf_graph g ->
  (run_simulation_p2 round2 g call_priorities fleet rows = KeyError <->
   exists id l c, (id, l) ∈ fleet /\ c ∈ rows /\
     ~ (l ∈ vertices g /\ row_location c ∈ vertices g)) /\
  ((forall id l c, (id, l) ∈ fleet -> c ∈ rows ->
      l ∈ vertices g /\ row_location c ∈ vertices g) ->
   exists st, run_simulation_p2 round2 g call_priorities fleet rows = Ok st).
Proof.
  intros Hwf. destruct (floyd_warshall_dom g Hwf) as (table & Htable & Hdom).
  unfold run_simulation_p2. rewrite Htable. cbn [mbind result_mbind result_bind].
  assert (Hret : (forall id l c, (id, l) ∈ fleet -> c ∈ rows ->
                    l ∈ vertices g /\ row_location c ∈ vertices g) ->
    exists st, process_calls (matrix_get table) round2
                 (prepare_call_queue call_priorities rows) fleet = Ok st).
  { intros Hall. apply process_calls_returns. intros c id l Hc Hin.
    rewrite prepare_call_queue_perm in Hc.
    apply list_elem_of_fmap in Hc as (r & -> & Hr). apply Hdom. by apply (Hall id). }
  split; [| done]. split.
  - intros Herr.
    destruct (decide (Forall (fun v : string * string =>
                Forall (fun c => v.2 ∈ vertices g /\ row_location c ∈ vertices g) rows) fleet))
      as [Hall | Hex].
    + destruct Hret as [st Hst]; [| congruence].
      intros id l c Hin Hc. rewrite Forall_forall in Hall.
      specialize (Hall (id, l) Hin). rewrite Forall_forall in Hall. by apply Hall.
    + apply not_Forall_Exists in Hex; [| apply _].
      apply Exists_exists in Hex as ([id l] & Hin & Hex).
      apply not_Forall_Exists in Hex; [| apply _].
      apply Exists_exists in Hex as (c & Hc & Hn). by exists id, l, c.
  - intros (id & l & c & Hin & Hc & Hn).
    rewrite process_calls_serve.
    apply (serve_calls_KeyError (matrix_get table) round2) with
      (fleet := fleet) (c := queue_entry call_priorities c) (id := id) (l := l).
    + intros a b H. unfold matrix_get, dict_get in H.
      destruct (table !! a) as [row |]; cbn in H; [| done]. by destruct (row !! b).
    + rewrite dequeue_order_perm, prepare_call_queue_perm. by apply list_elem_of_fmap_2.
    + done.
    + by apply (mdom_KeyError (vertices g)).
    + done.
Qed.

(** X10: prototype 2 raises [KeyError] exactly when there are a vehicle and a
    call one of whose locations is no vertex of the graph; otherwise it runs
    to the end.  The weights play no role. *)
Theorem prototype2_raises_iff_unknown_location {Wt : Weight}
    (round2 : W -> W) (g : Graph) (call_priorities : gmap string Z)
    (fleet : list (string * string)) (rows : list CallRow) :
  wf_graph g -> NoDup (row_call_id <$> rows) ->
  (run_simulation_p2 round2 g call_priorities fleet rows = KeyError <->
   exists id l c, (id, l) ∈ fleet /\ c ∈ rows /\
     ~ (l ∈ vertices g /\ row_location c ∈ vertices g)) /\
  ((forall id l c, (id, l) ∈ fleet -> c ∈ rows ->
      l ∈ vertices g /\ row_location c ∈ vertices g) ->
   exists st, run_simulation_p2 round2 g call_priorities fleet rows = Ok st).
Proof. intros Hwf _. by apply run_simulation_p2_KeyError. Qed.

Lemma prototype2_raises_iff_unknown_location_witness :
  run_simulation_p2 (Wt := int_weight) id spec_graph spec_priorities spec_fleet
    calls_Z_then_B = KeyError.
Proof.
  apply (prototype2_raises_iff_unknown_location (Wt := int_weight) id spec_graph
           spec_priorities spec_fleet calls_Z_then_B).
  - apply wf_graphb_ok. reflexivity.
  - apply (bool_decide_unpack _). vm_compute. exact I.
  - exists "V1", "A", {| row_call_id := 0; row_location := "Z"; row_call_type := "Cardiac" |}.
    split; [by left |]. split; [by left |]. intros [_ H]. revert H.
    apply (bool_decide_unpack _). vm_compute. exact I.
Defined.

(** ** The dispatch loop: what happens to each call *)

Section Answers.
Context {Wt : Weight}.
Variable query : string -> string -> result W.
Variable round2 : W -> W.

(** Every call served adds one log entry or one warning, in the order served. *)
Lemma serve_calls_answers calls : forall st st',
  serve_calls query round2 calls st = Ok st' ->
  exists L C,
    dispatch_log st' = dispatch_log st ++ L /\ console st' = console st ++ C /\
    (record_key <$> L) ++ C ≡ₚ call_key <$> calls /\
    sublist (record_key <$> L) (call_key <$> calls) /\
    sublist C (call_key <$> calls).
Proof.
  induction calls as [|[[p id] row] calls IH]; intros st st'; cbn [serve_calls].
  - intros [= <-]. exists [], []. rewrite !app_nil_r. by repeat split.
  - intros (st1 & H1 & Hrest)%bind_Ok.
    destruct (IH st1 st' Hrest) as (L & C & HL & HC & Hp & HsL & HsC).
    apply dispatch_call_log in H1 as (best & t & timed & _ & _ & Hcase).
    destruct Hcase as [(aid & _ & _ & Hlog & Hcon) | (_ & Hlog & Hcon)].
    + eexists (_ :: L), C. rewrite HL, HC, Hlog, Hcon, <- app_assoc. cbn.
      split; [done |]. split; [done |]. split; [| split].
      * by constructor.
      * by apply sublist_skip.
      * by apply sublist_cons.
    + exists L, ((id, row_location row) :: C). rewrite HL, HC, Hlog, Hcon, <- app_assoc. cbn.
      split; [done |]. split; [done |]. split; [| split].
      * rewrite <- Permutation_middle. by constructor.
      * by apply sublist_cons.
      * by apply sublist_skip.
Qed.

Lemma process_calls_answers queue fleet st :
  process_calls query round2 queue fleet = Ok st ->
  (record_key <$> dispatch_log st) ++ console st ≡ₚ call_key <$> queue /\
  sublist (record_key <$> dispatch_log st) (call_key <$> dequeue_order queue) /\
  sublist (console st) (call_key <$> dequeue_order queue).
Proof.
  rewrite process_calls_serve. intros H.
  apply serve_calls_answers in H as (L & C & HL & HC & Hp & HsL & HsC).
  cbn in HL, HC. subst. split; [| done].
  by rewrite Hp, (dequeue_order_perm queue).
Qed.

Lemma serve_calls_empty_fleet calls : forall st,
  available_ambulances st = [] ->
  serve_calls query round2 calls st
  = Ok {| call_queue := call_queue st; dispatch_log := dispatch_log st;
          available_ambulances := []; console := console st ++ (call_key <$> calls);
          timed_queries := timed_queries st |}.
Proof.
  induction calls as [|[[p id] row] calls IH]; intros st Hst; cbn [serve_calls].
  - cbn. rewrite app_nil_r, <- Hst. by destruct st.
  - unfold dispatch_call. rewrite Hst. cbn [find_best mbind result_mbind result_bind].
    rewrite IH by done. cbn. by rewrite <- app_assoc.
Qed.

Lemma find_best_timed_irrel fleet loc : forall best0 t0 timed timed' best t timed1,
  find_best query fleet loc best0 t0 timed = Ok (best, t, timed1) ->
  exists timed1', find_best query fleet loc best0 t0 timed' = Ok (best, t, timed1').
Proof.
  induction fleet as [|[id0 l0] fleet IH]; intros best0 t0 timed timed' best t timed1; cbn.
  - intros [= <- <- <-]. eauto.
  - destruct (query l0 loc) as [d | |]; cbn; [| done..].
    destruct (wlt d t0); apply IH.
Qed.

(** The entry logged for a call is a function of the fleet and of the
    location of the call. *)
Lemma process_calls_scan queue fleet st rec :
  process_calls query round2 queue fleet = Ok st -> rec ∈ dispatch_log st ->
  exists t timed,
    find_best query fleet (log_call_location rec) None winf []
      = Ok (Some (log_selected_ambulance rec), t, timed) /\
    log_time_to_call rec = round2 t.
Proof.
  rewrite process_calls_serve. intros Hrun. revert rec. apply Forall_forall.
  apply (serve_calls_log query round2 _ fleet (dequeue_order queue)) with
    (st := initial_state [] fleet); [| done | done | by constructor].
  intros call_id row st0 st1 rec Hfleet Hcall Hlog.
  apply dispatch_call_log in Hcall as (best & t & timed & Hfb & _ & Hcase).
  destruct Hcase as [(aid & -> & _ & Hlog' & _) | (_ & Hlog' & _)].
  - rewrite Hlog' in Hlog. apply app_inv_head in Hlog. injection Hlog as <-. cbn.
    rewrite Hfleet in Hfb.
    destruct (find_best_timed_irrel _ _ _ _ _ [] _ _ _ Hfb) as [timed' Hfb']. eauto.
  - rewrite Hlog' in Hlog. apply (f_equal length) in Hlog.
    rewrite length_app in Hlog. cbn in Hlog. lia.
Qed.


End Answers.

(** X11: every call of the queue is answered exactly once, by a log entry or
    by a "No route found" warning, and the log and the warnings are in the
    order in which the calls leave the queue. *)
Theorem every_call_answered_once {Wt : Weight}
    (query : string -> string -> result W) (round2 : W -> W)
    (queue : list (Z * Z * CallRow)) (fleet : list (string * string)) (st : SimState) :
  process_calls query round2 queue fleet = Ok st ->
  (record_key <$> dispatch_log st) ++ console st ≡ₚ call_key <$> queue /\
  sublist (record_key <$> dispatch_log st) (call_key <$> dequeue_order queue) /\
  sublist (console st) (call_key <$> dequeue_order queue).
Proof. apply process_calls_answers. Qed.

Lemma every_call_answered_once_witness :
  exists st,
    process_calls (dijkstra_shortest_path (Wt := int_weight) 5 spec_graph) id
      (prepare_call_queue spec_priorities calls_Z_then_B) spec_fleet = Ok st /\
    (record_key <$> dispatch_log st) ++ console st
      ≡ₚ call_key <$> prepare_call_queue spec_priorities calls_Z_then_B /\
    sublist (record_key <$> dispatch_log st)
      (call_key <$> dequeue_order (prepare_call_queue spec_priorities calls_Z_then_B)) /\
    sublist (console st)
      (call_key <$> dequeue_order (prepare_call_queue spec_priorities calls_Z_then_B)).
Proof.
  eexists. split; [vm_compute; reflexivity |].
  apply (every_call_answered_once (Wt := int_weight)
           (dijkstra_shortest_path (Wt := int_weight) 5 spec_graph) id
           (prepare_call_queue spec_priorities calls_Z_then_B) spec_fleet).
  vm_compute. reflexivity.
Defined.

(** X12: with an empty fleet no distance is queried: calls with distinct ids
    all get a warning, in the order of (priority, id), and the log stays
    empty. *)
Theorem empty_fleet_warns_every_call {Wt : Weight}
    (query : string -> string -> result W) (round2 : W -> W)
    (call_priorities : gmap string Z) (rows : list CallRow) :
  NoDup (row_call_id <$> rows) ->
  process_calls query round2 (prepare_call_queue call_priorities rows) []
  = Ok {| call_queue := []; dispatch_log := []; available_ambulances := [];
          console := call_key <$> spec_dispatch_order call_priorities rows;
          timed_queries := [] |}.
Proof.
  intros Hnd. rewrite process_calls_serve, serve_calls_empty_fleet by done.
  by rewrite (dequeue_order_spec call_priorities rows rows Hnd).
Qed.

Lemma empty_fleet_warns_every_call_witness :
  process_calls (dijkstra_shortest_path (Wt := int_weight) 5 spec_graph) id
    (prepare_call_queue spec_priorities calls_7_3) []
  = Ok (@Build_SimState int_weight [] [] [] [(3%Z, "C"); (7%Z, "B")] []).
Proof.
  apply (empty_fleet_warns_every_call (Wt := int_weight)
           (dijkstra_shortest_path (Wt := int_weight) 5 spec_graph) id
           spec_priorities calls_7_3).
  apply (bool_decide_unpack _). vm_compute. exact I.
Defined.



(** X14: a vehicle is never marked busy: two log entries for calls at the
    same location name the same vehicle and the same time. *)
Theorem same_location_same_vehicle {Wt : Weight}
    (query : string -> string -> result W) (round2 : W -> W)
    (queue : list (Z * Z * CallRow)) (fleet : list (string * string))
    (st : SimState) (rec1 rec2 : DispatchRecord) :
  process_calls query round2 queue fleet = Ok st ->
  rec1 ∈ dispatch_log st -> rec2 ∈ dispatch_log st ->
  log_call_location rec1 = log_call_location rec2 ->
  log_selected_ambulance rec1 = log_selected_ambulance rec2 /\
  log_time_to_call rec1 = log_time_to_call rec2.
Proof.
  intros Hrun H1 H2 Hloc.
  destruct (process_calls_scan query round2 queue fleet st rec1 Hrun H1) as (t1 & tm1 & Hf1 & Ht1).
  destruct (process_calls_scan query round2 queue fleet st rec2 Hrun H2) as (t2 & tm2 & Hf2 & Ht2).
  rewrite Hloc, Hf2 in Hf1. injection Hf1 as Hid Ht _.
  split; [done |]. by rewrite Ht1, Ht2, Ht.
Qed.

Lemma same_location_same_vehicle_witness :
  exists st,
    process_calls (dijkstra_shortest_path (Wt := int_weight) 5 spec_graph) id
      (prepare_call_queue spec_priorities two_calls_at_B) spec_fleet = Ok st /\
    length (dispatch_log st) = 2 /\
    forall rec1 rec2, rec1 ∈ dispatch_log st -> rec2 ∈ dispatch_log st ->
      log_call_location rec1 = log_call_location rec2 ->
      log_selected_ambulance rec1 = log_selected_ambulance rec2 /\
      log_time_to_call rec1 = log_time_to_call rec2.
Proof.
  eexists. split; [vm_compute; reflexivity |]. split; [reflexivity |].
  intros rec1 rec2.
  apply (same_location_same_vehicle (Wt := int_weight)
           (dijkstra_shortest_path (Wt := int_weight) 5 spec_graph) id
           (prepare_call_queue spec_priorities two_calls_at_B) spec_fleet).
  vm_compute. reflexivity.
Defined.

(** X15: on a network with non-negative weights prototype 1 runs to the end
    for every fleet and every list of calls, whatever location tokens they
    name: it raises nothing, and it answers every call. *)
Theorem prototype1_always_returns {Wt : Weight} {OW : OrderedWeight Wt}
    (fuel : nat) (round2 : W -> W) (g : Graph) (call_priorities : gmap string Z)
    (fleet : list (string * string)) (rows : list CallRow) :
  wf_graph g -> nonneg_weights g -> edge_count g + 2 <= fuel ->
  NoDup (row_call_id <$> rows) ->
  exists st,
    run_simulation_p1 fuel round2 g call_priorities fleet rows = Ok st /\
    length (dispatch_log st) + length (console st) = length rows.
Proof.
  intros Hwf Hnn Hfuel _. unfold run_simulation_p1.
  destruct (process_calls_returns (dijkstra_shortest_path fuel g) round2
              (prepare_call_queue call_priorities rows) fleet) as [st Hst].
  { intros c id l _ _.
    destruct (dijkstra_shortest g l (row_location c.2) fuel Hwf Hnn Hfuel) as (r & Hr & _).
    eauto. }
  exists st. split; [done |].
  apply process_calls_answers in Hst as [Hp _].
  apply Permutation_length in Hp. rewrite prepare_call_queue_perm in Hp.
  by rewrite length_app, !length_fmap in Hp.
Qed.

Lemma prototype1_always_returns_witness :
  exists st,
    run_simulation_p1 (Wt := int_weight) 5 id spec_graph spec_priorities spec_fleet
      calls_Z_then_B = Ok st /\
    length (dispatch_log st) + length (console st) = length calls_Z_then_B.
Proof.
  apply (prototype1_always_returns (Wt := int_weight) (OW := int_weight_ordered)).
  - apply wf_graphb_ok. reflexivity.
  - apply nonneg_weightsb_ok. reflexivity.
  - vm_compute. lia.
  - apply (bool_decide_unpack _). vm_compute. exact I.
Defined.

(** ** The loaders *)

Section Rows.

Lemma outcome_bind_Returns {A B : Type} (r : outcome A) (f : A -> outcome B) (b : B) :
  r ≫= f = Returns b -> exists a, r = Returns a /\ f a = Returns b.
Proof. destruct r as [a | e |]; cbn; [eauto | done | done]. Qed.

Lemma cell_Returns (row : gmap string string) (column x : string) :
  row !! column = Some x -> cell row column = Returns x.
Proof. unfold cell. by intros ->. Qed.

Lemma for_rows_snoc {S : Type} (rows : list (gmap string string))
    (body : gmap string string -> S -> outcome S) (row : gmap string string) : forall s,
  for_rows (rows ++ [row]) body s = s' ← for_rows rows body s; body row s'.
Proof.
  induction rows as [|r rows IH]; intros s; cbn.
  - by destruct (body row s).
  - destruct (body r s) as [s1 | e |]; cbn; [apply IH | done | done].
Qed.

Lemma last_row_snoc_eq (column x : string) rows row :
  row !! column = Some x -> last_row column x (rows ++ [row]) = Some row.
Proof.
  intros H. unfold last_row. rewrite filter_app, filter_cons_True, filter_nil by done.
  apply last_snoc.
Qed.

Lemma last_row_snoc_ne (column x : string) rows row :
  row !! column <> Some x -> last_row column x (rows ++ [row]) = last_row column x rows.
Proof.
  intros H. unfold last_row. rewrite filter_app, filter_cons_False, filter_nil by done.
  by rewrite app_nil_r.
Qed.

Lemma odict_set_keys {A : Type} (d : list (string * A)) (k : string) (v : A) :
  (odict_set d k v).*1 = set_add d.*1 k.
Proof.
  unfold set_add. induction d as [|[k' v'] d IH]; cbn.
  - rewrite decide_False; [done | by intros ?%elem_of_nil].
  - destruct (decide (k' = k)) as [-> | Hk]; cbn.
    + rewrite decide_True; [done | by left].
    + rewrite IH. destruct (decide (k ∈ d.*1)) as [Hin | Hin].
      * rewrite decide_True; [done | by right].
      * rewrite decide_False; [done |]. intros [? | ?]%elem_of_cons; [by subst | done].
Qed.

Lemma odict_set_elem {A : Type} (d : list (string * A)) (k : string) (v : A) k' v' :
  NoDup d.*1 ->
  (k', v') ∈ odict_set d k v <-> (k' = k /\ v' = v) \/ (k' <> k /\ (k', v') ∈ d).
Proof.
  induction d as [|[k0 v0] d IH]; cbn.
  - intros _. split.
    + intros [= -> ->]%list_elem_of_singleton. by left.
    + intros [[-> ->] | [_ ?%elem_of_nil]]; [by left | done].
  - intros [Hk0 Hnd]%NoDup_cons. destruct (decide (k0 = k)) as [-> | Hk].
    + split.
      * intros [[= -> ->] | Hin]%elem_of_cons; [by left |].
        right. split; [| by right]. intros ->. apply Hk0.
        apply list_elem_of_fmap. by exists (k, v').
      * intros [[-> ->] | [Hne [[= ? ?] | Hin]%elem_of_cons]]; [by left | done | by right].
    + rewrite elem_of_cons, (IH Hnd), elem_of_cons. split.
      * intros [[= -> ->] | [? | [? ?]]]; [right; split; [done | by left] | by left |].
        right. split; [done | by right].
      * intros [? | [Hne [[= -> ->] | Hin]]]; [right; by left | by left |].
        right. right. done.
Qed.

End Rows.

Section NetworkLoader.
Context {Wt : Weight}.
Variable py_float : string -> option W.

Lemma load_network_row_Returns row g skipped g' skipped' :
  load_network_row py_float row (g, skipped) = Returns (g', skipped') ->
  (g' = g /\ skipped' = skipped ++ [row]) \/
  (exists source destination weight,
     g' = add_edge g source destination weight /\ skipped' = skipped).
Proof.
  unfold load_network_row.
  intros (source & _ & H)%outcome_bind_Returns.
  apply outcome_bind_Returns in H as (destination & _ & H).
  apply outcome_bind_Returns in H as (travel & _ & H).
  destruct (py_float travel) as [travel_time |]; [| injection H as <- <-; by left].
  apply outcome_bind_Returns in H as (delay & _ & H).
  destruct (py_float delay) as [traffic_delay |]; injection H as <- <-; [right; eauto | by left].
Qed.

Lemma load_network_rows_wf rows : forall g skipped g' skipped',
  for_rows rows (load_network_row py_float) (g, skipped) = Returns (g', skipped') ->
  wf_graph g -> wf_graph g'.
Proof.
  induction rows as [|row rows IH]; intros g skipped g' skipped'; cbn.
  - by intros [= <- <-].
  - intros ([g1 skipped1] & H1 & Hrest)%outcome_bind_Returns Hwf.
    apply (IH _ _ _ _ Hrest).
    apply load_network_row_Returns in H1 as [[-> _] | (s & d & w & -> & _)]; [done |].
    by apply wf_add_edge.
Qed.

Lemma load_network_data_wf rows g skipped :
  load_network_data py_float rows = Returns (g, skipped) -> wf_graph g.
Proof. intros H. eapply load_network_rows_wf; [exact H | apply wf_empty_graph]. Qed.

Lemma load_network_row_columns row g skipped :
  has_columns ["Start"; "End"; "Travel Time"; "Traffic Delay"] row ->
  load_network_row py_float row (g, skipped)
  = Returns match network_edge py_float row with
            | Some (source, destination, weight) =>
                (add_edge g source destination weight, skipped)
            | None => (g, skipped ++ [row])
            end.
Proof.
  intros Hc. unfold has_columns in Hc. rewrite !Forall_cons in Hc.
  destruct Hc as ([source Hs] & [destination Hd] & [travel Ht] & [delay Hy] & _).
  unfold load_network_row, network_edge.
  rewrite (cell_Returns _ _ _ Hs), (cell_Returns _ _ _ Hd), (cell_Returns _ _ _ Ht),
    (cell_Returns _ _ _ Hy), Hs, Hd, Ht, Hy.
  cbn. destruct (py_float travel) as [travel_time |]; cbn; [| done].
  destruct (py_float delay) as [traffic_delay |]; cbn; done.
Qed.

Lemma load_network_rows_spec rows :
  Forall (has_columns ["Start"; "End"; "Travel Time"; "Traffic Delay"]) rows ->
  forall g skipped, exists g',
    for_rows rows (load_network_row py_float) (g, skipped)
    = Returns (g', skipped ++ filter (fun row => network_edge py_float row = None) rows) /\
    (forall u v e, edge g' u v e <->
       edge g u v e \/ exists row, row ∈ rows /\ network_edge py_float row = Some (u, v, e)) /\
    (forall x, x ∈ vertices g' <->
       x ∈ vertices g \/
       exists row u v e, row ∈ rows /\ network_edge py_float row = Some (u, v, e) /\
                         (x = u \/ x = v)) /\
    edge_count g' = edge_count g + length (omap (network_edge py_float) rows).
Proof.
  induction 1 as [|row rows Hrow _ IH]; intros g skipped.
  - exists g. cbn. rewrite ?filter_nil, app_nil_r. split; [done |]. split; [| split].
    + intros u v e. split; [by left |]. intros [? | (row & ?%elem_of_nil & _)]; done.
    + intros x. split; [by left |]. intros [? | (row & ? & ? & ? & ?%elem_of_nil & _)]; done.
    + lia.
  - cbn [for_rows]. rewrite (load_network_row_columns row g skipped Hrow).
    cbn [mbind outcome_mbind outcome_bind].
    destruct (network_edge py_float row) as [[[s d] w] |] eqn:E.
    + destruct (IH (add_edge g s d w) skipped) as (g' & Hg' & He & Hv & Hc).
      destruct (add_edge_spec g s d w) as (He0 & Hv0 & Hc0).
      exists g'. rewrite filter_cons_False by (by rewrite E). split; [done |].
      split; [| split].
      * intros u v e. rewrite He, He0. split.
        -- intros [[? | (-> & -> & ->)] | (row' & Hin & Hr)]; [by left | |].
           ++ right. exists row. split; [by left | done].
           ++ right. exists row'. split; [by right | done].
        -- intros [? | (row' & [-> | Hin]%elem_of_cons & Hr)]; [left; by left | |].
           ++ rewrite E in Hr. injection Hr as -> -> ->. left. by right.
           ++ right. eauto.
      * intros x. rewrite Hv, Hv0. split.
        -- intros [[? | Hx] | (row' & u & v & e & Hin & Hr & Hx)]; [by left | |].
           ++ right. exists row, s, d, w. split; [by left | done].
           ++ right. exists row', u, v, e. split; [by right | done].
        -- intros [? | (row' & u & v & e & [-> | Hin]%elem_of_cons & Hr & Hx)];
             [left; by left | |].
           ++ rewrite E in Hr. injection Hr as -> -> ->. left. by right.
           ++ right. exists row', u, v, e. done.
      * rewrite Hc, Hc0. cbn. rewrite E. cbn. lia.
    + destruct (IH g (skipped ++ [row])) as (g' & Hg' & He & Hv & Hc).
      exists g'. rewrite filter_cons_True by done. rewrite <- app_assoc in Hg'.
      split; [done |]. split; [| split].
      * intros u v e. rewrite He. split.
        -- intros [? | (row' & Hin & Hr)]; [by left |]. right. exists row'. split; [by right | done].
        -- intros [? | (row' & [-> | Hin]%elem_of_cons & Hr)]; [by left | congruence |].
           right. eauto.
      * intros x. rewrite Hv. split.
        -- intros [? | (row' & u & v & e & Hin & Hr & Hx)]; [by left |].
           right. exists row', u, v, e. split; [by right | done].
        -- intros [? | (row' & u & v & e & [-> | Hin]%elem_of_cons & Hr & Hx)];
             [by left | congruence |].
           right. exists row', u, v, e. done.
      * rewrite Hc. cbn. by rewrite E.
Qed.

Lemma load_network_data_spec rows :
  Forall (has_columns ["Start"; "End"; "Travel Time"; "Traffic Delay"]) rows ->
  exists g,
    load_network_data py_float rows
    = Returns (g, filter (fun row => network_edge py_float row = None) rows) /\
    (forall u v e, edge g u v e <->
       exists row, row ∈ rows /\ network_edge py_float row = Some (u, v, e)) /\
    (forall x, x ∈ vertices g <->
       exists row u v e, row ∈ rows /\ network_edge py_float row = Some (u, v, e) /\
                         (x = u \/ x = v)) /\
    edge_count g = length (omap (network_edge py_float) rows).
Proof.
  intros Hrows.
  destruct (load_network_rows_spec rows Hrows empty_graph []) as (g & Hg & He & Hv & Hc).
  exists g. split; [done |]. split; [| split].
  - intros u v e. rewrite He. split; [| by right].
    intros [(nbrs & ?%elem_of_nil & _) | ?]; done.
  - intros x. rewrite Hv. split; [| by right]. intros [?%elem_of_nil | ?]; done.
  - rewrite Hc. done.
Qed.

End NetworkLoader.

(** X16: whatever the rows of the network file are, the graph
    [load_network_data] returns is well formed: [dijkstra_shortest_path]
    never raises [KeyError] on it and [floyd_warshall_precomputation] returns
    a table. *)
Theorem loaded_network_is_well_formed {Wt : Weight} (py_float : string -> option W)
    (rows : list (gmap string string)) (g : Graph) (skipped : list (gmap string string)) :
  load_network_data py_float rows = Returns (g, skipped) ->
  wf_graph g /\
  (forall fuel s t, dijkstra_shortest_path fuel g s t <> KeyError) /\
  exists table, floyd_warshall_precomputation g = Ok table.
Proof.
  intros Hwf%load_network_data_wf. split; [done |]. split.
  - intros fuel s t. by apply dijkstra_no_KeyError.
  - destruct (floyd_warshall_dom g Hwf) as (table & Htable & _). eauto.
Qed.

Lemma loaded_network_is_well_formed_witness :
  exists g skipped,
    load_network_data decimal_weight network_rows = Returns (g, skipped) /\
    wf_graph g /\
    (forall fuel s t, dijkstra_shortest_path fuel g s t <> KeyError) /\
    exists table, floyd_warshall_precomputation g = Ok table.
Proof.
  eexists _, _. split; [vm_compute; reflexivity |].
  eapply (loaded_network_is_well_formed (Wt := int_weight) decimal_weight network_rows).
  vm_compute. reflexivity.
Defined.

(** X17: when every row of the network file has the four columns, a row one
    of whose numbers does not parse is reported and changes nothing, and every
    other row adds one edge of weight travel time plus traffic delay: the
    edges of the graph are exactly those of the rows that parse, with
    repetitions, and its vertices their endpoints. *)
Theorem load_network_data_skips_invalid_rows {Wt : Weight} (py_float : string -> option W)
    (rows : list (gmap string string)) :
  Forall (has_columns ["Start"; "End"; "Travel Time"; "Traffic Delay"]) rows ->
  exists g,
    load_network_data py_float rows
    = Returns (g, filter (fun row => network_edge py_float row = None) rows) /\
    (forall u v e, edge g u v e <->
       exists row, row ∈ rows /\ network_edge py_float row = Some (u, v, e)) /\
    (forall x, x ∈ vertices g <->
       exists row u v e, row ∈ rows /\ network_edge py_float row = Some (u, v, e) /\
                         (x = u \/ x = v)) /\
    edge_count g = length (omap (network_edge py_float) rows).
Proof. apply load_network_data_spec. Qed.

Lemma load_network_data_skips_invalid_rows_witness :
  exists g,
    load_network_data decimal_weight network_rows
    = Returns (g, filter (fun row => network_edge decimal_weight row = None) network_rows) /\
    (forall u v e, edge g u v e <->
       exists row, row ∈ network_rows /\ network_edge decimal_weight row = Some (u, v, e)) /\
    (forall x, x ∈ vertices g <->
       exists row u v e, row ∈ network_rows /\
         network_edge decimal_weight row = Some (u, v, e) /\ (x = u \/ x = v)) /\
    edge_count g = length (omap (network_edge decimal_weight) network_rows).
Proof.
  apply (load_network_data_skips_invalid_rows (Wt := int_weight) decimal_weight network_rows).
  unfold has_columns. apply (bool_decide_unpack _). vm_compute. exact I.
Defined.

Section OtherLoaders.
Variable py_int : string -> option Z.

Lemma load_call_priorities_spec rows :
  Forall (has_columns ["Call Type"; "Priority"]) rows ->
  (Forall (fun row => is_Some (row !! "Priority" ≫= py_int)) rows ->
   exists priorities,
     load_call_priorities py_int rows = Returns priorities /\
     forall call_type,
       priorities !! call_type
       = last_row "Call Type" call_type rows ≫= (fun row => row !! "Priority" ≫= py_int)) /\
  (~ Forall (fun row => is_Some (row !! "Priority" ≫= py_int)) rows ->
   load_call_priorities py_int rows = Raises PyValueError).
Proof.
  unfold load_call_priorities.
  induction rows as [|row rows IH] using rev_ind; intros Hc.
  - split; [| intros H; by destruct H].
    intros _. exists ∅. split; [done |]. intros call_type. by rewrite lookup_empty.
  - apply Forall_app in Hc as [Hc Hrow]. apply Forall_inv in Hrow.
    unfold has_columns in Hrow. rewrite !Forall_cons in Hrow.
    destruct Hrow as ([ct Hct] & [p Hp] & _).
    destruct (IH Hc) as [IHok IHerr]. rewrite for_rows_snoc.
    split.
    + intros [Hall Hrow]%Forall_app. apply Forall_singleton in Hrow as [v Hv].
      destruct (IHok Hall) as (priorities & -> & Hlk).
      cbn [mbind outcome_mbind outcome_bind].
      rewrite (cell_Returns _ _ _ Hp). cbn [mbind outcome_mbind outcome_bind].
      rewrite Hp in Hv. cbn in Hv. rewrite Hv. cbn [parsed mbind outcome_mbind outcome_bind].
      rewrite (cell_Returns _ _ _ Hct). cbn [mbind outcome_mbind outcome_bind].
      eexists. split; [done |]. intros call_type.
      destruct (decide (call_type = ct)) as [-> | Hne].
      * rewrite lookup_insert_eq, last_row_snoc_eq by done. cbn. by rewrite Hp.
      * rewrite lookup_insert_ne by done. rewrite last_row_snoc_ne; [apply Hlk |].
        rewrite Hct. congruence.
    + intros Hn.
      destruct (decide (Forall (fun row => is_Some (row !! "Priority" ≫= py_int)) rows))
        as [Hall | Hall].
      * destruct (IHok Hall) as (priorities & -> & _).
        cbn [mbind outcome_mbind outcome_bind].
        rewrite (cell_Returns _ _ _ Hp). cbn [mbind outcome_mbind outcome_bind].
        destruct (py_int p) as [v |] eqn:Hv; [| done].
        exfalso. apply Hn. apply Forall_app. split; [done |]. apply Forall_singleton.
        rewrite Hp. cbn. rewrite Hv. eauto.
      * by rewrite (IHerr Hall).
Qed.

Lemma load_ambulance_data_spec rows :
  Forall (has_columns ["Ambulance Number"; "Staging Location"]) rows ->
  exists fleet,
    load_ambulance_data rows = Returns fleet /\
    NoDup fleet.*1 /\
    fleet.*1 = foldl set_add [] (omap (fun row => row !! "Ambulance Number") rows) /\
    forall id loc,
      (id, loc) ∈ fleet <->
      last_row "Ambulance Number" id rows ≫= (fun row => row !! "Staging Location") = Some loc.
Proof.
  unfold load_ambulance_data.
  induction rows as [|row rows IH] using rev_ind; intros Hc.
  - exists []. split; [done |]. split; [constructor |]. split; [done |].
    intros id loc. split; [by intros ?%elem_of_nil | done].
  - apply Forall_app in Hc as [Hc Hrow]. apply Forall_inv in Hrow.
    unfold has_columns in Hrow. rewrite !Forall_cons in Hrow.
    destruct Hrow as ([aid Haid] & [aloc Hloc] & _).
    destruct (IH Hc) as (fleet & Hfleet & Hnd & Hkeys & Hlk).
    rewrite for_rows_snoc, Hfleet. cbn [mbind outcome_mbind outcome_bind].
    rewrite (cell_Returns _ _ _ Hloc). cbn [mbind outcome_mbind outcome_bind].
    rewrite (cell_Returns _ _ _ Haid). cbn [mbind outcome_mbind outcome_bind].
    eexists. split; [done |]. split; [| split].
    + rewrite odict_set_keys. by apply set_add_NoDup.
    + rewrite odict_set_keys, Hkeys, omap_app, foldl_app. cbn. by rewrite Haid.
    + intros id loc. rewrite (odict_set_elem _ _ _ _ _ Hnd).
      destruct (decide (id = aid)) as [-> | Hne].
      * rewrite last_row_snoc_eq by done. cbn. rewrite Hloc. split.
        -- intros [[_ ->] | [? _]]; done.
        -- intros [= ->]. by left.
      * rewrite last_row_snoc_ne by (rewrite Haid; congruence). rewrite <- Hlk. split.
        -- intros [[? _] | [_ ?]]; done.
        -- intros ?. by right.
Qed.

Lemma read_call_queue_spec call_priorities rows :
  Forall (fun row => is_Some (call_of_row py_int row)) rows ->
  read_call_queue py_int call_priorities rows
  = Returns (prepare_call_queue call_priorities (omap (call_of_row py_int) rows)).
Proof.
  unfold read_call_queue, prepare_call_queue.
  induction rows as [|row rows IH] using rev_ind; intros Hc; [done |].
  apply Forall_app in Hc as [Hc Hrow]. apply Forall_singleton in Hrow as [c Hrow].
  rewrite for_rows_snoc, (IH Hc), omap_app, foldl_app. cbn. rewrite Hrow. cbn.
  unfold call_of_row in Hrow.
  destruct (row !! "Call ID") as [cid |] eqn:Hcid; [| done]. cbn in Hrow.
  destruct (py_int cid) as [call_id |] eqn:Hid; [| done]. cbn in Hrow.
  destruct (row !! "Location") as [location |] eqn:Hloc; [| done]. cbn in Hrow.
  destruct (row !! "Call Type") as [call_type |] eqn:Hty; [| done]. cbn in Hrow.
  injection Hrow as <-.
  rewrite (cell_Returns _ _ _ Hcid). cbn. rewrite Hid. cbn.
  rewrite (cell_Returns _ _ _ Hloc). cbn. rewrite (cell_Returns _ _ _ Hty). cbn. done.
Qed.

End OtherLoaders.

(** X18: when every row of the priority file has its two columns, the
    loader raises [ValueError] if some priority does not parse; otherwise a
    call type listed several times gets the priority of its last row, and a
    type that is not listed gets none. *)
Theorem load_call_priorities_last_row_wins (py_int : string -> option Z)
    (rows : list (gmap string string)) :
  Forall (has_columns ["Call Type"; "Priority"]) rows ->
  (Forall (fun row => is_Some (row !! "Priority" ≫= py_int)) rows ->
   exists priorities,
     load_call_priorities py_int rows = Returns priorities /\
     forall call_type,
       priorities !! call_type
       = last_row "Call Type" call_type rows ≫= (fun row => row !! "Priority" ≫= py_int)) /\
  (~ Forall (fun row => is_Some (row !! "Priority" ≫= py_int)) rows ->
   load_call_priorities py_int rows = Raises PyValueError).
Proof. apply load_call_priorities_spec. Qed.

Lemma load_call_priorities_last_row_wins_witness :
  (exists priorities,
     load_call_priorities decimal priority_rows = Returns priorities /\
     priorities !! "Fall" = Some 2%Z /\
     forall call_type,
       priorities !! call_type
       = last_row "Call Type" call_type priority_rows
           ≫= (fun row => row !! "Priority" ≫= decimal)) /\
  load_call_priorities decimal (priority_rows ++ [ {[ "Call Type" := "Fire"; "Priority" := "high" ]} ])
  = Raises PyValueError.
Proof.
  split.
  - destruct (load_call_priorities_last_row_wins decimal priority_rows) as [Hok _].
    { unfold has_columns. apply (bool_decide_unpack _). vm_compute. exact I. }
    destruct Hok as (priorities & Hp & Hlk).
    { apply (bool_decide_unpack _). vm_compute. exact I. }
    exists priorities. split; [done |]. split; [| done]. rewrite Hlk. vm_compute. reflexivity.
  - apply (load_call_priorities_last_row_wins decimal).
    + unfold has_columns. apply (bool_decide_unpack _). vm_compute. exact I.
    + apply (bool_decide_unpack _). vm_compute. exact I.
Defined.

(** X19: when every row of the ambulance file has its two columns, the fleet
    has every vehicle id once, in the order in which the ids first appear in
    the file, and each vehicle at the location of its last row. *)
Theorem load_ambulance_data_builds_fleet (rows : list (gmap string string)) :
  Forall (has_columns ["Ambulance Number"; "Staging Location"]) rows ->
  exists fleet,
    load_ambulance_data rows = Returns fleet /\
    NoDup fleet.*1 /\
    fleet.*1 = foldl set_add [] (omap (fun row => row !! "Ambulance Number") rows) /\
    forall id loc,
      (id, loc) ∈ fleet <->
      last_row "Ambulance Number" id rows ≫= (fun row => row !! "Staging Location") = Some loc.
Proof. apply load_ambulance_data_spec. Qed.

Lemma load_ambulance_data_builds_fleet_witness :
  load_ambulance_data ambulance_rows = Returns spec_fleet /\
  exists fleet,
    load_ambulance_data ambulance_rows = Returns fleet /\
    NoDup fleet.*1 /\
    fleet.*1 = foldl set_add [] (omap (fun row => row !! "Ambulance Number") ambulance_rows) /\
    forall id loc,
      (id, loc) ∈ fleet <->
      last_row "Ambulance Number" id ambulance_rows
        ≫= (fun row => row !! "Staging Location") = Some loc.
Proof.
  split; [vm_compute; reflexivity |].
  apply (load_ambulance_data_builds_fleet ambulance_rows).
  unfold has_columns. apply (bool_decide_unpack _). vm_compute. exact I.
Defined.

(** ** [run_simulation] from the data files *)

Section Pipeline.
Context {Wt : Weight}.
Variable py_float : string -> option W.
Variable py_int : string -> option Z.
Variable round2 : W -> W.

Lemma omap_length_le {A B : Type} (f : A -> option B) (l : list A) :
  length (omap f l) <= length l.
Proof. induction l as [|x l IH]; cbn; [done |]. destruct (f x); cbn; lia. Qed.

Lemma omap_length_all {A B : Type} (f : A -> option B) (l : list A) :
  Forall (fun x => is_Some (f x)) l -> length (omap f l) = length l.
Proof. induction 1 as [|x l [y Hy] _ IH]; cbn; [done |]. rewrite Hy. cbn. lia. Qed.

Lemma network_edge_nonneg {OW : OrderedWeight Wt} row u v e :
  (forall s w, row !! "Travel Time" = Some s \/ row !! "Traffic Delay" = Some s ->
     py_float s = Some w -> wle wzero w) ->
  network_edge py_float row = Some (u, v, e) -> wle wzero e.
Proof.
  intros Hpos. unfold network_edge.
  destruct (row !! "Start"); cbn; [| done]. destruct (row !! "End"); cbn; [| done].
  destruct (row !! "Travel Time") as [ts |]; cbn; [| done].
  destruct (py_float ts) as [t |] eqn:Ht; cbn; [| done].
  destruct (row !! "Traffic Delay") as [ds |]; cbn; [| done].
  destruct (py_float ds) as [d |] eqn:Hd; cbn; [| done].
  intros [= _ _ <-].
  apply (wle_trans _ t); [apply (Hpos ts); auto |]. apply wadd_infl. apply (Hpos ds); auto.
Qed.

(** What the loaders hand to the dispatch loop when the files are in order. *)
Lemma loaders_return network priorities ambulances calls :
  Forall (has_columns ["Start"; "End"; "Travel Time"; "Traffic Delay"]) network ->
  Forall (has_columns ["Call Type"; "Priority"]) priorities ->
  Forall (fun row => is_Some (row !! "Priority" ≫= py_int)) priorities ->
  Forall (has_columns ["Ambulance Number"; "Staging Location"]) ambulances ->
  Forall (fun row => is_Some (call_of_row py_int row)) calls ->
  exists g call_priorities fleet,
    load_network_data py_float network
      = Returns (g, filter (fun row => network_edge py_float row = None) network) /\
    load_call_priorities py_int priorities = Returns call_priorities /\
    load_ambulance_data ambulances = Returns fleet /\
    read_call_queue py_int call_priorities calls
      = Returns (prepare_call_queue call_priorities (omap (call_of_row py_int) calls)) /\
    wf_graph g /\ edge_count g <= length network /\
    forall u v e, edge g u v e ->
      exists row, row ∈ network /\ network_edge py_float row = Some (u, v, e).
Proof.
  intros Hn Hp Hpp Ha Hc.
  destruct (load_network_data_spec py_float network Hn) as (g & Hg & He & _ & Hcount).
  destruct (load_call_priorities_spec py_int priorities Hp) as [Hprio _].
  destruct (Hprio Hpp) as (call_priorities & Hcp & _).
  destruct (load_ambulance_data_spec ambulances Ha) as (fleet & Hfleet & _).
  exists g, call_priorities, fleet. split; [done |]. split; [done |]. split; [done |].
  split; [by apply read_call_queue_spec |]. split; [by eapply load_network_data_wf |].
  split; [rewrite Hcount; apply omap_length_le |]. intros u v e. apply He.
Qed.

End Pipeline.

(** X20: when the four files have their columns, the priorities and the call
    ids parse and the numbers of the network file are non-negative, prototype
    1 runs from the files to the end of the dispatch loop: network rows that
    do not parse are skipped with a warning, nothing is raised, whatever
    locations the vehicles and the calls name, and every call is answered. *)
Theorem simulate_p1_returns {Wt : Weight} {OW : OrderedWeight Wt}
    (py_float : string -> option W) (py_int : string -> option Z) (round2 : W -> W)
    (fuel : nat) (network priorities ambulances calls : list (gmap string string)) :
  (forall row s w, row ∈ network ->
     row !! "Travel Time" = Some s \/ row !! "Traffic Delay" = Some s ->
     py_float s = Some w -> wle wzero w) ->
  Forall (has_columns ["Start"; "End"; "Travel Time"; "Traffic Delay"]) network ->
  Forall (has_columns ["Call Type"; "Priority"]) priorities ->
  Forall (fun row => is_Some (row !! "Priority" ≫= py_int)) priorities ->
  Forall (has_columns ["Ambulance Number"; "Staging Location"]) ambulances ->
  Forall (fun row => is_Some (call_of_row py_int row)) calls ->
  NoDup (row_call_id <$> omap (call_of_row py_int) calls) ->
  length network + 2 <= fuel ->
  exists st,
    simulate_p1 py_float py_int round2 fuel network priorities ambulances calls
    = Returns (st, filter (fun row => network_edge py_float row = None) network) /\
    length (dispatch_log st) + length (console st) = length calls.
Proof.
  intros Hpos Hn Hp Hpp Ha Hc _ Hfuel.
  destruct (loaders_return py_float py_int network priorities ambulances calls Hn Hp Hpp Ha Hc)
    as (g & call_priorities & fleet & Hg & Hcp & Hfleet & Hq & Hwf & Hcount & He).
  assert (Hnn : nonneg_weights g).
  { intros u v e (row & Hin & Hrow)%He.
    apply (network_edge_nonneg py_float row u v e); [| exact Hrow].
    intros s w. by apply Hpos. }
  destruct (process_calls_returns (dijkstra_shortest_path fuel g) round2
              (prepare_call_queue call_priorities (omap (call_of_row py_int) calls)) fleet)
    as [st Hst].
  { intros c id l _ _.
    destruct (dijkstra_shortest g l (row_location c.2) fuel Hwf Hnn) as (r & Hr & _); [lia |].
    eauto. }
  exists st. split.
  - unfold simulate_p1. rewrite Hg. cbn [mbind outcome_mbind outcome_bind].
    rewrite Hcp. cbn [mbind outcome_mbind outcome_bind].
    rewrite Hfleet. cbn [mbind outcome_mbind outcome_bind].
    rewrite Hq. cbn [mbind outcome_mbind outcome_bind].
    rewrite Hst. done.
  - apply process_calls_answers in Hst as [Hperm _].
    apply Permutation_length in Hperm. rewrite prepare_call_queue_perm in Hperm.
    rewrite length_app, !length_fmap in Hperm. rewrite Hperm.
    by apply omap_length_all.
Qed.

Lemma simulate_p1_returns_witness :
  exists st,
    simulate_p1 (Wt := int_weight) decimal_weight decimal id 6
      network_rows priority_rows ambulance_rows call_rows
    = Returns (st, filter (fun row => network_edge decimal_weight row = None) network_rows) /\
    length (dispatch_log st) + length (console st) = length call_rows.
Proof.
  apply (simulate_p1_returns (Wt := int_weight) (OW := int_weight_ordered)).
  - intros _ s w _ _. unfold decimal_weight, decimal.
    assert (G : forall s acc z, (0 <= acc)%Z -> digits_value acc s = Some z -> (0 <= z)%Z).
    { clear. induction s as [|c s IH]; intros acc z Hacc; cbn.
      - intros [= <-]. done.
      - destruct ((48 <=? Z.of_nat (Ascii.nat_of_ascii c))
                  && (Z.of_nat (Ascii.nat_of_ascii c) <=? 57))%Z eqn:E; [| done].
        apply andb_prop in E as [E1%Z.leb_le E2]. apply IH. lia. }
    destruct s as [|c s]; [done |].
    destruct (digits_value 0 (String c s)) as [z |] eqn:E; [| done].
    intros [= <-]. cbn. apply Z.ltb_ge. by apply (G (String c s) 0%Z).
  - unfold has_columns. apply (bool_decide_unpack _). vm_compute. exact I.
  - unfold has_columns. apply (bool_decide_unpack _). vm_compute. exact I.
  - apply (bool_decide_unpack _). vm_compute. exact I.
  - unfold has_columns. apply (bool_decide_unpack _). vm_compute. exact I.
  - apply (bool_decide_unpack _). vm_compute. exact I.
  - apply (bool_decide_unpack _). vm_compute. exact I.
  - vm_compute. lia.
Defined.

(** X21: under the same conditions on the files, prototype 2 raises
    [KeyError] exactly when some vehicle and some call are listed and the
    location of one of them is no endpoint of a network row that parses;
    otherwise it runs to the end of the dispatch loop. *)
Theorem simulate_p2_raises_iff_unknown_location {Wt : Weight}
    (py_float : string -> option W) (py_int : string -> option Z) (round2 : W -> W)
    (network priorities ambulances calls : list (gmap string string))
    (g : Graph) (skipped : list (gmap string string)) (fleet : list (string * string)) :
  load_network_data py_float network = Returns (g, skipped) ->
  load_ambulance_data ambulances = Returns fleet ->
  Forall (has_columns ["Call Type"; "Priority"]) priorities ->
  Forall (fun row => is_Some (row !! "Priority" ≫= py_int)) priorities ->
  Forall (fun row => is_Some (call_of_row py_int row)) calls ->
  NoDup (row_call_id <$> omap (call_of_row py_int) calls) ->
  (simulate_p2 py_float py_int round2 network priorities ambulances calls = Raises PyKeyError <->
   exists id l c, (id, l) ∈ fleet /\ c ∈ omap (call_of_row py_int) calls /\
     ~ (l ∈ vertices g /\ row_location c ∈ vertices g)) /\
  ((forall id l c, (id, l) ∈ fleet -> c ∈ omap (call_of_row py_int) calls ->
      l ∈ vertices g /\ row_location c ∈ vertices g) ->
   exists st,
     simulate_p2 py_float py_int round2 network priorities ambulances calls
     = Returns (st, skipped)).
Proof.
  intros Hg Hfleet Hp Hpp Hc _.
  assert (Hwf : wf_graph g) by (by eapply load_network_data_wf).
  destruct (load_call_priorities_spec py_int priorities Hp) as [Hprio _].
  destruct (Hprio Hpp) as (call_priorities & Hcp & _).
  assert (Hsim : simulate_p2 py_float py_int round2 network priorities ambulances calls
    = st ← of_result (run_simulation_p2 round2 g call_priorities fleet
                        (omap (call_of_row py_int) calls)); Returns (st, skipped)).
  { unfold simulate_p2, run_simulation_p2.
    rewrite Hg. cbn [mbind outcome_mbind outcome_bind].
    rewrite Hcp. cbn [mbind outcome_mbind outcome_bind].
    rewrite Hfleet. cbn [mbind outcome_mbind outcome_bind].
    destruct (floyd_warshall_precomputation g) as [table | |];
      cbn [of_result mbind outcome_mbind outcome_bind result_mbind result_bind]; [| done..].
    rewrite (read_call_queue_spec py_int call_priorities calls Hc).
    cbn [mbind outcome_mbind outcome_bind]. done. }
  rewrite Hsim.
  destruct (run_simulation_p2_KeyError round2 g call_priorities fleet
              (omap (call_of_row py_int) calls) Hwf) as [Hiff Hret].
  split.
  - rewrite <- Hiff.
    destruct (run_simulation_p2 round2 g call_priorities fleet
                (omap (call_of_row py_int) calls)); cbn; split; congruence.
  - intros Hall. destruct (Hret Hall) as [st ->]. cbn. eauto.
Qed.

Lemma simulate_p2_raises_iff_unknown_location_witness :
  simulate_p2 (Wt := int_weight) decimal_weight decimal id
    network_rows priority_rows ambulance_rows call_rows = Raises PyKeyError.
Proof.
  eapply (simulate_p2_raises_iff_unknown_location (Wt := int_weight) decimal_weight decimal id
            network_rows priority_rows ambulance_rows call_rows).
  - vm_compute. reflexivity.
  - vm_compute. reflexivity.
  - unfold has_columns. apply (bool_decide_unpack _). vm_compute. exact I.
  - apply (bool_decide_unpack _). vm_compute. exact I.
  - apply (bool_decide_unpack _). vm_compute. exact I.
  - apply (bool_decide_unpack _). vm_compute. exact I.
  - exists "V1", "A", {| row_call_id := 3; row_location := "Z"; row_call_type := "Cardiac" |}.
    split; [by left |]. split; [right; by left |]. intros [_ H]. revert H.
    apply (bool_decide_unpack _). vm_compute. exact I.
Defined.

Section CallRows.
Context {Wt : Weight}.
Variable py_int : string -> option Z.

Lemma call_of_row_parses row :
  has_columns ["Call ID"; "Location"; "Call Type"] row ->
  is_Some (row !! "Call ID" ≫= py_int) -> is_Some (call_of_row py_int row).
Proof.
  intros Hc [call_id Hid]. unfold has_columns in Hc. rewrite !Forall_cons in Hc.
  destruct Hc as (_ & [location Hloc] & [call_type Hty] & _).
  unfold call_of_row. rewrite Hid, Hloc, Hty. cbn. eauto.
Qed.

Lemma read_call_queue_ValueError call_priorities rows :
  Forall (has_columns ["Call ID"; "Location"; "Call Type"]) rows ->
  ~ Forall (fun row => is_Some (row !! "Call ID" ≫= py_int)) rows ->
  read_call_queue py_int call_priorities rows = Raises PyValueError.
Proof.
  induction rows as [|row rows IH] using rev_ind; intros Hc Hn; [by destruct Hn |].
  apply Forall_app in Hc as [Hc Hrow]. apply Forall_inv in Hrow.
  unfold read_call_queue. rewrite for_rows_snoc. fold (read_call_queue py_int call_priorities rows).
  destruct (decide (Forall (fun row => is_Some (row !! "Call ID" ≫= py_int)) rows))
    as [Hall | Hall]; [| by rewrite (IH Hc Hall)].
  rewrite read_call_queue_spec.
  - cbn [mbind outcome_mbind outcome_bind].
    unfold has_columns in Hrow. rewrite !Forall_cons in Hrow.
    destruct Hrow as ([cid Hcid] & _).
    rewrite (cell_Returns _ _ _ Hcid). cbn [mbind outcome_mbind outcome_bind].
    destruct (py_int cid) as [call_id |] eqn:Hid; [| done].
    exfalso. apply Hn. apply Forall_app. split; [done |]. apply Forall_singleton.
    rewrite Hcid. cbn. rewrite Hid. eauto.
  - rewrite Forall_forall in Hc, Hall. apply Forall_forall. intros r Hr.
    apply call_of_row_parses; auto.
Qed.

End CallRows.

(** X23: unlike a network row that does not parse, a call whose id does not
    parse is not skipped: when the other three files load, every row of the
    calls file has its columns and the ids that parse are distinct, one such
    call makes both prototypes raise [ValueError] before any call is
    dispatched. *)
Theorem unparsable_call_id_aborts_run {Wt : Weight}
    (py_float : string -> option W) (py_int : string -> option Z) (round2 : W -> W)
    (fuel : nat) (network priorities ambulances calls : list (gmap string string))
    (g : Graph) (skipped : list (gmap string string))
    (call_priorities : gmap string Z) (fleet : list (string * string)) :
  load_network_data py_float network = Returns (g, skipped) ->
  load_call_priorities py_int priorities = Returns call_priorities ->
  load_ambulance_data ambulances = Returns fleet ->
  Forall (has_columns ["Call ID"; "Location"; "Call Type"]) calls ->
  NoDup (omap (fun row => row !! "Call ID" ≫= py_int) calls) ->
  ~ Forall (fun row => is_Some (row !! "Call ID" ≫= py_int)) calls ->
  simulate_p1 py_float py_int round2 fuel network priorities ambulances calls
    = Raises PyValueError /\
  simulate_p2 py_float py_int round2 network priorities ambulances calls
    = Raises PyValueError.
Proof.
  intros Hg Hcp Hfleet Hc _ Hn.
  assert (Hq := read_call_queue_ValueError py_int call_priorities calls Hc Hn).
  unfold simulate_p1, simulate_p2.
  rewrite Hg. cbn [mbind outcome_mbind outcome_bind].
  rewrite Hcp. cbn [mbind outcome_mbind outcome_bind].
  rewrite Hfleet. cbn [mbind outcome_mbind outcome_bind].
  rewrite Hq. split; [done |].
  destruct (floyd_warshall_dom g) as (table & -> & _); [by eapply load_network_data_wf |].
  done.
Qed.

Lemma unparsable_call_id_aborts_run_witness :
  simulate_p1 (Wt := int_weight) decimal_weight decimal id 6 network_rows priority_rows
    ambulance_rows
    (call_rows ++ [ {[ "Call ID" := "x9"; "Location" := "B"; "Call Type" := "Fall" ]} ])
    = Raises PyValueError /\
  simulate_p2 (Wt := int_weight) decimal_weight decimal id network_rows priority_rows
    ambulance_rows
    (call_rows ++ [ {[ "Call ID" := "x9"; "Location" := "B"; "Call Type" := "Fall" ]} ])
    = Raises PyValueError.
Proof.
  eapply (unparsable_call_id_aborts_run (Wt := int_weight) decimal_weight decimal id 6
            network_rows priority_rows ambulance_rows).
  - vm_compute. reflexivity.
  - vm_compute. reflexivity.
  - vm_compute. reflexivity.
  - unfold has_columns. apply (bool_decide_unpack _). vm_compute. exact I.
  - apply (bool_decide_unpack _). vm_compute. exact I.
  - apply (bool_decide_unpack _). vm_compute. exact I.
Defined.
